(** * code_saturne: heterogeneous memory pool and extended-neighbourhood
      connectivity

    Shallow embedding of
      - [src/base/cs_base_mempool.cxx] (class [MemoryPool]) and
      - [src/base/cs_ext_neighborhood.c] (connectivity builders and the
        non-orthogonality filter [redvse]),
    together with the properties established about them. *)

From stdpp Require Import base tactics option list gmap fin_maps.
From Stdlib Require Import ZArith Lia.
From Corelib Require Import PrimFloat.

Open Scope Z_scope.

(* ===================================================================== *)
(** * Part I: the memory pool ([cs_base_mempool.cxx])                     *)
(* ===================================================================== *)

Module MemPool.

(** Modelled from the spec: the enumeration [cs_alloc_mode_t] is declared in
    a header that is not among the files embedded here.  The specification
    gives its members and their order,
    HOST < HOST_DEVICE < HOST_DEVICE_PINNED < HOST_DEVICE_SHARED < DEVICE,
    which is all the pool relies on (the test [mode < CS_ALLOC_HOST_DEVICE_PINNED]). *)
Inductive cs_alloc_mode_t :=
| CS_ALLOC_HOST
| CS_ALLOC_HOST_DEVICE
| CS_ALLOC_HOST_DEVICE_PINNED
| CS_ALLOC_HOST_DEVICE_SHARED
| CS_ALLOC_DEVICE.

Definition mode_rank (m : cs_alloc_mode_t) : Z :=
  match m with
  | CS_ALLOC_HOST => 0
  | CS_ALLOC_HOST_DEVICE => 1
  | CS_ALLOC_HOST_DEVICE_PINNED => 2
  | CS_ALLOC_HOST_DEVICE_SHARED => 3
  | CS_ALLOC_DEVICE => 4
  end.

Definition mode_of_rank (z : Z) : cs_alloc_mode_t :=
  if decide (z = 0) then CS_ALLOC_HOST
  else if decide (z = 1) then CS_ALLOC_HOST_DEVICE
  else if decide (z = 2) then CS_ALLOC_HOST_DEVICE_PINNED
  else if decide (z = 3) then CS_ALLOC_HOST_DEVICE_SHARED
  else CS_ALLOC_DEVICE.

#[global] Instance cs_alloc_mode_eq_dec : EqDecision cs_alloc_mode_t.
Proof. solve_decision. Defined.

#[global] Instance cs_alloc_mode_countable : Countable cs_alloc_mode_t.
Proof.
  apply (inj_countable' mode_rank mode_of_rank).
  intros []; reflexivity.
Defined.

(** [mode < CS_ALLOC_HOST_DEVICE_PINNED]: the host-only test. *)
Definition host_only (m : cs_alloc_mode_t) : bool :=
  bool_decide (mode_rank m < mode_rank CS_ALLOC_HOST_DEVICE_PINNED).

(** Pointers are opaque addresses; [nullptr] is address 0. *)
Abbreviation ptr := Z.
Definition nullptr : ptr := 0.

(** [cs_mem_block_t], with the fields the pool initialises in
    [allocate_new_block].  [device_ptr] exists in accelerator builds only;
    [get_block_info] and [free_block] read it unconditionally, so the pool
    is a unit of such a build. *)
Record cs_mem_block_t := mk_block {
  host_ptr : ptr;
  device_ptr : ptr;
  size : Z;
  mode : cs_alloc_mode_t;
  ttl : Z
}.

#[global] Instance cs_mem_block_eq_dec : EqDecision cs_mem_block_t.
Proof. solve_decision. Defined.

Definition set_ttl (me : cs_mem_block_t) (t : Z) : cs_mem_block_t :=
  mk_block (host_ptr me) (device_ptr me) (size me) (mode me) t.
Definition set_host_ptr (me : cs_mem_block_t) (p : ptr) : cs_mem_block_t :=
  mk_block p (device_ptr me) (size me) (mode me) (ttl me).
Definition set_device_ptr (me : cs_mem_block_t) (p : ptr) : cs_mem_block_t :=
  mk_block (host_ptr me) p (size me) (mode me) (ttl me).

(** ** The Block Allocator seen from the pool

    The pool calls into [bft_mem] and into the accelerator runtime (the
    CUDA family is the one written out below; the SYCL and OpenMP-target
    branches of the source have the same shape).  These are external to the
    pool: the calls are recorded as events, and the answers of the backend
    are parameters -- a backend is any pair of functions of the call
    history. *)
Inductive call :=
| bft_mem_malloc (sz : Z)
| cs_cuda_mem_malloc_host (sz : Z)
| cs_cuda_mem_malloc_managed (sz : Z)
| cs_cuda_mem_malloc_device (sz : Z)
| bft_mem_free (p : ptr)
| cs_cuda_mem_free (p : ptr)
| cs_cuda_mem_free_host (p : ptr)
| bft_mem_update_block_info (old new : option cs_mem_block_t).

#[global] Instance call_eq_dec : EqDecision call.
Proof. solve_decision. Defined.

Record backend := mk_backend {
  (** the pointer returned by an allocation call made after history [tr] *)
  returned : list call → call → ptr;
  (** [bft_mem_get_block_info_try]: what the allocator's own bookkeeping
      reports about a pointer after history [tr] *)
  bft_mem_get_block_info_try : list call → ptr → cs_mem_block_t
}.

Definition is_malloc (c : call) : bool :=
  match c with
  | bft_mem_malloc _ | cs_cuda_mem_malloc_host _
  | cs_cuda_mem_malloc_managed _ | cs_cuda_mem_malloc_device _ => true
  | _ => false
  end.

Definition is_host_malloc (c : call) : bool :=
  match c with bft_mem_malloc _ => true | _ => false end.

(** Number of physical allocations in a call history. *)
Definition n_mallocs (tr : list call) : nat := length (filter is_malloc tr).

(** ** State of the singleton

    [allocated_blocks_] and [free_blocks_] are the two [unordered_map]s of
    the class; [calls] is the history of backend calls made so far.  The
    mutex serialises the operations, which are therefore modelled as
    atomic state transformers. *)
Record MemoryPool := mk_pool {
  allocated_blocks_ : gmap Z cs_mem_block_t;
  free_blocks_ : gmap cs_alloc_mode_t (list cs_mem_block_t);
  calls : list call
}.

Definition empty_pool : MemoryPool := mk_pool ∅ ∅ [].

(** [free_blocks_[m]]: [operator[]] yields an empty vector for a mode that
    has no entry yet. *)
Definition free_list (st : MemoryPool) (m : cs_alloc_mode_t) : list cs_mem_block_t :=
  default [] (free_blocks_ st !! m).

Definition TTL_MAX : Z := 500.

(** [size_t] arithmetic of [((size + 63) / 64) * 64]. *)
Definition size_max : Z := 2 ^ 64.
Definition adjusted_size (sz : Z) : Z := ((sz + 63) mod size_max) / 64 * 64.

Section Pool.

Context (B : backend).

(** [MemoryPool::free_block]; [file_name] is [true] when the source passes
    a non-null file name. *)
Definition free_block (tr : list call) (me : cs_mem_block_t) (file_name : bool)
  : list call :=
  let tr1 :=
    if host_only (mode me) then tr ++ [bft_mem_free (host_ptr me)]
    else if bool_decide (host_ptr me ≠ nullptr) then
      if bool_decide (mode me = CS_ALLOC_HOST_DEVICE_SHARED)
      then tr ++ [cs_cuda_mem_free (host_ptr me)]
      else tr ++ [cs_cuda_mem_free_host (host_ptr me)]
    else tr in
  let tr2 :=
    if bool_decide (device_ptr me ≠ nullptr) && bool_decide (device_ptr me ≠ host_ptr me)
    then tr1 ++ [cs_cuda_mem_free (device_ptr me)]
    else tr1 in
  if file_name then tr2 ++ [bft_mem_update_block_info (Some me) None] else tr2.

(** [MemoryPool::allocate_new_block]. *)
Definition allocate_new_block (tr : list call) (sz : Z) (m : cs_alloc_mode_t)
    (file_name : bool) : list call * cs_mem_block_t :=
  let me := mk_block nullptr nullptr sz m 0 in
  let '(tr1, me1) :=
    if host_only m then
      let c := bft_mem_malloc sz in
      (tr ++ [c], set_host_ptr me (returned B tr c))
    else if bool_decide (m = CS_ALLOC_HOST_DEVICE_PINNED) then
      let c := cs_cuda_mem_malloc_host (size me) in
      (tr ++ [c], set_host_ptr me (returned B tr c))
    else if bool_decide (m = CS_ALLOC_HOST_DEVICE_SHARED) then
      let c := cs_cuda_mem_malloc_managed (size me) in
      let me' := set_host_ptr me (returned B tr c) in
      (tr ++ [c], set_device_ptr me' (host_ptr me'))
    else if bool_decide (m = CS_ALLOC_DEVICE) then
      let c := cs_cuda_mem_malloc_device (size me) in
      (tr ++ [c], set_device_ptr me (returned B tr c))
    else (tr, me) in
  if file_name
  then (tr1 ++ [bft_mem_update_block_info None (Some me1)], me1)
  else (tr1, me1).

(** First loop of [allocate]: every entry of the free list ages by one
    cycle; an entry reaching [TTL_MAX] is released and erased. *)
Fixpoint evict_scan (tr : list call) (l : list cs_mem_block_t)
  : list call * list cs_mem_block_t :=
  match l with
  | [] => (tr, [])
  | it :: l' =>
      let it' := set_ttl it (ttl it + 1) in
      if bool_decide (TTL_MAX ≤ ttl it') then evict_scan (free_block tr it' true) l'
      else let '(tr', r) := evict_scan tr l' in (tr', it' :: r)
  end.

(** Second loop of [allocate]: the first entry of exactly the adjusted
    size, together with the list once it is erased. *)
Fixpoint first_fit (adj : Z) (l : list cs_mem_block_t)
  : option (cs_mem_block_t * list cs_mem_block_t) :=
  match l with
  | [] => None
  | it2 :: l' =>
      if bool_decide (size it2 = adj) then Some (it2, l')
      else match first_fit adj l' with
           | Some (me, r) => Some (me, it2 :: r)
           | None => None
           end
  end.

(** [MemoryPool::allocate] (acquire). *)
Definition allocate (st : MemoryPool) (sz : Z) (m : cs_alloc_mode_t)
    (file_name : bool) : MemoryPool * cs_mem_block_t :=
  let adj := adjusted_size sz in
  let '(tr1, fl1) := evict_scan (calls st) (free_list st m) in
  match first_fit adj fl1 with
  | Some (me, fl2) =>
      (mk_pool (<[host_ptr me := me]> (allocated_blocks_ st))
               (<[m := fl2]> (free_blocks_ st)) tr1, me)
  | None =>
      let '(tr2, me) := allocate_new_block tr1 adj m file_name in
      (mk_pool (<[host_ptr me := me]> (allocated_blocks_ st))
               (<[m := fl1]> (free_blocks_ st)) tr2, me)
  end.

(** [MemoryPool::get_block_info] (lookup). *)
Definition get_block_info (st : MemoryPool) (p : ptr) : MemoryPool * cs_mem_block_t :=
  match allocated_blocks_ st !! p with
  | Some me => (st, me)
  | None =>
      let me := bft_mem_get_block_info_try B (calls st) p in
      if bool_decide (host_ptr me ≠ nullptr) || bool_decide (device_ptr me ≠ nullptr)
      then (mk_pool (<[host_ptr me := me]> (allocated_blocks_ st))
                    (free_blocks_ st) (calls st), me)
      else (st, me)
  end.

(** [MemoryPool::deallocate] (release). *)
Definition deallocate (st : MemoryPool) (p : ptr) : MemoryPool :=
  if bool_decide (p = nullptr) then st
  else match allocated_blocks_ st !! p with
       | Some it =>
           let me := set_ttl it 0 in
           mk_pool (delete p (allocated_blocks_ st))
                   (<[mode me := free_list st (mode me) ++ [me]]> (free_blocks_ st))
                   (calls st)
       | None =>
           let me := set_ttl (bft_mem_get_block_info_try B (calls st) p) 0 in
           mk_pool (allocated_blocks_ st)
                   (<[mode me := free_list st (mode me) ++ [me]]> (free_blocks_ st))
                   (calls st)
       end.

(** [MemoryPool::insert_block] (insert_external). *)
Definition insert_block (st : MemoryPool) (unmanaged_block : cs_mem_block_t) : MemoryPool :=
  mk_pool (<[host_ptr unmanaged_block := unmanaged_block]> (allocated_blocks_ st))
          (free_blocks_ st) (calls st).

(** [MemoryPool::update_block] (update). *)
Definition update_block (st : MemoryPool) (p : ptr) (me_new : cs_mem_block_t) : MemoryPool :=
  mk_pool (<[p := me_new]> (allocated_blocks_ st)) (free_blocks_ st) (calls st).

(** [MemoryPool::allocate_device]: a device counterpart for a block of mode
    HOST_DEVICE or HOST_DEVICE_PINNED.  The method touches neither map of
    the pool. *)
Definition allocate_device (st : MemoryPool) (me_old : cs_mem_block_t)
  : MemoryPool * cs_mem_block_t :=
  let me_new := me_old in
  if bool_decide (mode me_old = CS_ALLOC_HOST_DEVICE)
     || bool_decide (mode me_old = CS_ALLOC_HOST_DEVICE_PINNED)
  then
    let c := cs_cuda_mem_malloc_device (size me_old) in
    (mk_pool (allocated_blocks_ st) (free_blocks_ st) (calls st ++ [c]),
     set_device_ptr me_new (returned B (calls st) c))
  else (st, me_new).

(** [MemoryPool::~MemoryPool]: every block of every free list is released
    with null names; the result is the final call history.  The order in
    which an [unordered_map] is traversed is unspecified; the model takes
    the order of [map_to_list]. *)
Definition destructor (st : MemoryPool) : list call :=
  foldl (λ tr (mode_blocks : cs_alloc_mode_t * list cs_mem_block_t),
           foldl (λ tr me, free_block tr me false) tr mode_blocks.2)
        (calls st) (map_to_list (free_blocks_ st)).

(** The five public operations, as a client sees them. *)
Inductive op :=
| Acquire (sz : Z) (m : cs_alloc_mode_t) (file_name : bool)
| Release (p : ptr)
| Lookup (p : ptr)
| Update (p : ptr) (me_new : cs_mem_block_t)
| InsertExternal (unmanaged_block : cs_mem_block_t).

Definition run_op (st : MemoryPool) (o : op) : MemoryPool :=
  match o with
  | Acquire sz m fn => (allocate st sz m fn).1
  | Release p => deallocate st p
  | Lookup p => (get_block_info st p).1
  | Update p me_new => update_block st p me_new
  | InsertExternal me => insert_block st me
  end.

Definition run_ops (st : MemoryPool) (os : list op) : MemoryPool :=
  foldl run_op st os.

(** States a client can bring the pool into, whatever it calls. *)
Inductive reachable : MemoryPool → Prop :=
| reachable_init : reachable empty_pool
| reachable_step st o : reachable st → reachable (run_op st o).

(** A condition that every call of a sequence meets in the state in which
    it is made. *)
Fixpoint along (P : MemoryPool → op → Prop) (st : MemoryPool) (os : list op) : Prop :=
  match os with
  | [] => True
  | o :: os' => P st o ∧ along P (run_op st o) os'
  end.

(** The block that [deallocate] retires for a non-null [p]: the entry of
    [allocated_blocks_], or else what the bookkeeping reports. *)
Definition released_block (st : MemoryPool) (p : ptr) : cs_mem_block_t :=
  default (bft_mem_get_block_info_try B (calls st) p) (allocated_blocks_ st !! p).

End Pool.

(** ** A reference backend

    Modelled from the spec: a Block Allocator to run the pool on ([bft_mem]
    and the accelerator runtime are not among the files embedded here).  It
    hands out a new address at every allocation call, and its bookkeeping
    knows the host blocks obtained through [bft_mem_malloc] (until
    [bft_mem_free]) and the blocks registered through
    [bft_mem_update_block_info], under their host pointer, or under their
    device pointer when they have no host pointer. *)
Definition ref_returned (tr : list call) (c : call) : ptr :=
  4096 * (1 + Z.of_nat (length tr)).

Definition block_key (me : cs_mem_block_t) : ptr :=
  if bool_decide (host_ptr me ≠ nullptr) then host_ptr me else device_ptr me.

Fixpoint ref_book (n : nat) (tr : list call) (acc : gmap Z cs_mem_block_t)
  : gmap Z cs_mem_block_t :=
  match tr with
  | [] => acc
  | c :: tr' =>
      let p := 4096 * (1 + Z.of_nat n) in
      let acc' :=
        match c with
        | bft_mem_malloc sz => <[p := mk_block p nullptr sz CS_ALLOC_HOST 0]> acc
        | bft_mem_free q => delete q acc
        | bft_mem_update_block_info old new =>
            let acc1 := match old with Some b => delete (block_key b) acc | None => acc end in
            match new with Some b => <[block_key b := b]> acc1 | None => acc1 end
        | _ => acc
        end in
      ref_book (S n) tr' acc'
  end.

Definition not_found : cs_mem_block_t := mk_block nullptr nullptr 0 CS_ALLOC_HOST 0.

Definition ref_backend : backend :=
  mk_backend ref_returned (λ tr p, default not_found (ref_book 0 tr ∅ !! p)).

(** ** Basic facts about the two loops of [allocate] *)

Definition age (b : cs_mem_block_t) : cs_mem_block_t := set_ttl b (ttl b + 1).

Section PoolFacts.

Context (B : backend).

Lemma free_block_extends tr me fn : ∃ ev, free_block tr me fn = tr ++ ev ∧ Forall (λ c, is_malloc c = false) ev.
Proof.
  unfold free_block.
  repeat (case_match; simpl); rewrite <- ?app_assoc; simpl;
    eexists; (split; [reflexivity || (rewrite app_nil_r; reflexivity)|]);
    repeat constructor.
Qed.

Lemma evict_scan_snd tr l :
  (evict_scan tr l).2 = filter (λ b, ttl b < TTL_MAX) (age <$> l).
Proof.
  revert tr. induction l as [|it l IH]; intros tr; cbn [evict_scan fmap list_fmap]; [done|].
  rewrite filter_cons. fold (age it).
  case_bool_decide as Hd.
  - rewrite decide_False by (simpl in *; lia). apply IH.
  - rewrite decide_True by (simpl in *; lia).
    specialize (IH tr). destruct (evict_scan tr l) as [tr' r]. simpl in *. by f_equal.
Qed.

Lemma evict_scan_extends tr l :
  ∃ ev, (evict_scan tr l).1 = tr ++ ev ∧ Forall (λ c, is_malloc c = false) ev.
Proof.
  revert tr. induction l as [|it l IH]; intros tr; cbn [evict_scan].
  - exists []. by rewrite app_nil_r.
  - case_bool_decide.
    + destruct (free_block_extends tr (set_ttl it (ttl it + 1)) true) as (ev1 & -> & H1).
      destruct (IH (tr ++ ev1)) as (ev2 & -> & H2).
      exists (ev1 ++ ev2). rewrite app_assoc. split; [done|]. by apply Forall_app.
    + destruct (IH tr) as (ev & Hev & H2). destruct (evict_scan tr l). simpl in *. eauto.
Qed.

Lemma n_mallocs_app tr ev : n_mallocs (tr ++ ev) = (n_mallocs tr + n_mallocs ev)%nat.
Proof. unfold n_mallocs. by rewrite filter_app, length_app. Qed.

Lemma n_mallocs_none ev : Forall (λ c, is_malloc c = false) ev → n_mallocs ev = 0%nat.
Proof.
  unfold n_mallocs. induction 1 as [|c ev Hc _ IH]; [done|].
  rewrite filter_cons. rewrite decide_False; [done|]. rewrite Hc. simpl. tauto.
Qed.

Lemma evict_scan_n_mallocs tr l : n_mallocs (evict_scan tr l).1 = n_mallocs tr.
Proof.
  destruct (evict_scan_extends tr l) as (ev & -> & Hev).
  rewrite n_mallocs_app, (n_mallocs_none _ Hev). lia.
Qed.

(** [first_fit] splits the list at its first entry of the wanted size. *)
Lemma first_fit_Some adj l me r :
  first_fit adj l = Some (me, r) →
  ∃ l1 l2, l = l1 ++ me :: l2 ∧ r = l1 ++ l2 ∧ size me = adj
           ∧ Forall (λ b, size b ≠ adj) l1.
Proof.
  revert me r. induction l as [|it l IH]; intros me r; simpl; [done|].
  case_bool_decide as Hs.
  - intros [= <- <-]. exists [], l. by repeat split.
  - destruct (first_fit adj l) as [[me' r']|] eqn:E; [|done].
    intros [= <- <-]. destruct (IH _ _ eq_refl) as (l1 & l2 & -> & -> & ? & ?).
    exists (it :: l1), l2. repeat split; auto.
Qed.

Lemma first_fit_None adj l :
  first_fit adj l = None ↔ Forall (λ b, size b ≠ adj) l.
Proof.
  induction l as [|it l IH]; simpl; [by split; [constructor|]|].
  case_bool_decide as Hs.
  - split; [done|]. intros H. inversion H; subst. done.
  - destruct (first_fit adj l) as [[me' r']|] eqn:E.
    + split; [done|]. intros H. inversion H; subst.
      destruct IH as [_ IH]. by specialize (IH ltac:(assumption)).
    + split; [|done]. intros _. constructor; [done|]. by apply IH.
Qed.

Lemma first_fit_app adj l1 me l2 :
  Forall (λ b, size b ≠ adj) l1 → size me = adj →
  first_fit adj (l1 ++ me :: l2) = Some (me, l1 ++ l2).
Proof.
  intros H Hs. induction H as [|it l1 Hit _ IH]; simpl.
  - by rewrite bool_decide_eq_true_2.
  - rewrite bool_decide_eq_false_2 by done. by rewrite IH.
Qed.

End PoolFacts.

(** ** Shape of the free lists in every reachable state *)

Section PoolInvariant.

Context (B : backend).

(** Every retired block sits in the list of its own mode, and its
    time-to-live lies in [0, TTL_MAX). *)
Definition pool_wf (st : MemoryPool) : Prop :=
  ∀ m b, b ∈ free_list st m → mode b = m ∧ 0 ≤ ttl b < TTL_MAX.

Lemma free_list_insert a f c m l m' :
  free_list (mk_pool a (<[m := l]> f) c) m'
  = if decide (m = m') then l else default [] (f !! m').
Proof.
  unfold free_list; simpl. case_decide as H.
  - subst. by rewrite lookup_insert_eq.
  - by rewrite lookup_insert_ne.
Qed.

(** [allocate], with the scan written as a filter. *)
Lemma allocate_unfold st sz m fn :
  allocate B st sz m fn =
  let tr1 := (evict_scan (calls st) (free_list st m)).1 in
  let fl1 := filter (λ b, ttl b < TTL_MAX) (age <$> free_list st m) in
  match first_fit (adjusted_size sz) fl1 with
  | Some (me, fl2) =>
      (mk_pool (<[host_ptr me := me]> (allocated_blocks_ st))
               (<[m := fl2]> (free_blocks_ st)) tr1, me)
  | None =>
      (mk_pool (<[host_ptr (allocate_new_block B tr1 (adjusted_size sz) m fn).2
                  := (allocate_new_block B tr1 (adjusted_size sz) m fn).2]>
                  (allocated_blocks_ st))
               (<[m := fl1]> (free_blocks_ st))
               (allocate_new_block B tr1 (adjusted_size sz) m fn).1,
       (allocate_new_block B tr1 (adjusted_size sz) m fn).2)
  end.
Proof.
  unfold allocate. rewrite <- (evict_scan_snd (calls st)).
  destruct (evict_scan (calls st) (free_list st m)) as [tr1 fl1]. simpl.
  destruct (first_fit (adjusted_size sz) fl1) as [[me fl2]|]; [done|].
  by destruct (allocate_new_block B tr1 (adjusted_size sz) m fn).
Qed.

Lemma scanned_wf (l : list cs_mem_block_t) m :
  (∀ b, b ∈ l → mode b = m ∧ 0 ≤ ttl b < TTL_MAX) →
  ∀ b, b ∈ filter (λ b, ttl b < TTL_MAX) (age <$> l) →
       mode b = m ∧ 1 ≤ ttl b < TTL_MAX.
Proof.
  intros H b [Hlt Hin]%list_elem_of_filter.
  apply list_elem_of_fmap in Hin as (b0 & -> & Hb0).
  destruct (H _ Hb0) as [Hm Ht]. simpl in *. split; [done|lia].
Qed.

Lemma allocate_wf st sz m fn : pool_wf st → pool_wf (allocate B st sz m fn).1.
Proof.
  intros Hwf m' b. rewrite allocate_unfold. cbv zeta.
  pose proof (scanned_wf _ _ (Hwf m)) as Hsc.
  destruct (first_fit _ _) as [[me fl2]|] eqn:E; cbn [fst]; rewrite free_list_insert;
    case_decide as Hm; subst; try apply Hwf.
  - apply first_fit_Some in E as (l1 & l2 & E & -> & _ & _).
    intros Hb. destruct (Hsc b) as [? ?]; [|split; [done|lia]].
    rewrite E. rewrite elem_of_app in Hb |- *. rewrite elem_of_cons. tauto.
  - intros Hb. destruct (Hsc b Hb). split; [done|lia].
Qed.

Lemma deallocate_wf st p : pool_wf st → pool_wf (deallocate B st p).
Proof.
  intros Hwf m' b. unfold deallocate.
  case_bool_decide; [apply Hwf|].
  destruct (allocated_blocks_ st !! p) as [it|]; rewrite free_list_insert;
    (case_decide as Hm; [|apply Hwf]);
    (intros [Hb| ->%list_elem_of_singleton]%elem_of_app;
      [subst m'; by apply Hwf | split; [done | simpl; unfold TTL_MAX; lia]]).
Qed.

Lemma get_block_info_free_blocks st p :
  free_blocks_ (get_block_info B st p).1 = free_blocks_ st.
Proof.
  unfold get_block_info. destruct (allocated_blocks_ st !! p); [done|].
  by case_match.
Qed.

Lemma run_op_wf st o : pool_wf st → pool_wf (run_op B st o).
Proof.
  destruct o; simpl; auto using allocate_wf, deallocate_wf.
  intros Hwf m b. unfold free_list. rewrite get_block_info_free_blocks. apply Hwf.
Qed.

Lemma reachable_wf st : reachable B st → pool_wf st.
Proof.
  induction 1 as [|st o _ IH]; [|by apply run_op_wf].
  intros m b. unfold free_list, empty_pool; simpl. rewrite lookup_empty. simpl.
  by intros ?%elem_of_nil.
Qed.

End PoolInvariant.

(** ** Properties of the pool *)

Section PoolProperties.

Context (B : backend).

(** Allocation failure is fatal in the backend: a call that returns, returns
    a non-null pointer. *)
Definition returns_nonnull : Prop :=
  ∀ tr c, is_malloc c = true → returned B tr c ≠ nullptr.

(** [allocate] takes its last branch: after the scan no retired block of
    mode [m] has the adjusted size. *)
Definition fresh_allocation (st : MemoryPool) (sz : Z) (m : cs_alloc_mode_t) : Prop :=
  first_fit (adjusted_size sz) (evict_scan (calls st) (free_list st m)).2 = None.

Lemma allocate_new_block_calls tr sz m fn :
  ∃ ev, (allocate_new_block B tr sz m fn).1 = tr ++ ev ∧
        filter is_malloc ev =
          match m with
          | CS_ALLOC_HOST | CS_ALLOC_HOST_DEVICE => [bft_mem_malloc sz]
          | CS_ALLOC_HOST_DEVICE_PINNED => [cs_cuda_mem_malloc_host sz]
          | CS_ALLOC_HOST_DEVICE_SHARED => [cs_cuda_mem_malloc_managed sz]
          | CS_ALLOC_DEVICE => [cs_cuda_mem_malloc_device sz]
          end.
Proof.
  destruct m, fn; unfold allocate_new_block, host_only; simpl;
    rewrite <- ?app_assoc; eexists; (split; [reflexivity|]); done.
Qed.

(** C7. A block obtained by a fresh allocation in [allocate] (accelerator
    build, backend calls returning non-null): in mode HOST_DEVICE_SHARED
    both pointers are non-null and equal; in mode DEVICE the host pointer is
    null and the device pointer is not; in a mode below HOST_DEVICE_PINNED
    the host pointer is non-null and the acquire performs exactly one
    physical allocation, a host allocation of the adjusted size. *)
Theorem C7_fresh_block_pointers st sz m fn st' me :
  returns_nonnull →
  fresh_allocation st sz m →
  allocate B st sz m fn = (st', me) →
  (m = CS_ALLOC_HOST_DEVICE_SHARED →
     host_ptr me ≠ nullptr ∧ device_ptr me ≠ nullptr ∧ host_ptr me = device_ptr me) ∧
  (m = CS_ALLOC_DEVICE → host_ptr me = nullptr ∧ device_ptr me ≠ nullptr) ∧
  (mode_rank m < mode_rank CS_ALLOC_HOST_DEVICE_PINNED →
     host_ptr me ≠ nullptr ∧
     ∃ ev, calls st' = calls st ++ ev ∧
           filter is_malloc ev = [bft_mem_malloc (adjusted_size sz)] ∧
           filter is_host_malloc ev = [bft_mem_malloc (adjusted_size sz)]).
Proof.
  intros Hnn Hfresh. unfold fresh_allocation in Hfresh.
  rewrite allocate_unfold. cbv zeta. rewrite evict_scan_snd in Hfresh. rewrite Hfresh.
  intros [= <- <-].
  destruct (evict_scan_extends (calls st) (free_list st m)) as (ev1 & Hev1 & Hno).
  set (tr1 := (evict_scan (calls st) (free_list st m)).1) in *.
  split; [|split].
  - intros ->. destruct fn; unfold allocate_new_block, host_only; simpl;
      (split; [|split; [|done]]); by apply Hnn.
  - intros ->. destruct fn; unfold allocate_new_block, host_only; simpl;
      (split; [done|]); by apply Hnn.
  - intros Hm. split.
    + destruct m, fn; simpl in Hm; try lia;
        unfold allocate_new_block, host_only; simpl; by apply Hnn.
    + cbn [calls].
      assert (Hh : filter is_host_malloc ev1 = []).
      { clear -Hno. induction Hno as [|c ev Hc _ IH]; [done|].
        rewrite filter_cons, decide_False; [done|]. destruct c; simpl in *; auto; congruence. }
      assert (Hm0 : filter is_malloc ev1 = []).
      { clear -Hno. induction Hno as [|c ev Hc _ IH]; [done|].
        rewrite filter_cons, decide_False; [done|]. rewrite Hc. simpl. tauto. }
      destruct m, fn; simpl in Hm; try lia;
        unfold allocate_new_block, host_only; simpl; rewrite Hev1, <- ?app_assoc;
        eexists; (split; [reflexivity|]); rewrite !filter_app, ?Hh, ?Hm0; done.
Qed.

(** What [get_block_info] does on a miss, whatever the bookkeeping answers:
    the recovered block is stored under its own host pointer. *)
Lemma get_block_info_miss st p :
  allocated_blocks_ st !! p = None →
  let me := bft_mem_get_block_info_try B (calls st) p in
  (get_block_info B st p).2 = me ∧
  ((host_ptr me ≠ nullptr ∨ device_ptr me ≠ nullptr) →
     allocated_blocks_ (get_block_info B st p).1
       = <[host_ptr me := me]> (allocated_blocks_ st)).
Proof.
  intros Hp. unfold get_block_info. rewrite Hp. cbv zeta.
  destruct (bool_decide (host_ptr _ ≠ nullptr)) eqn:E1;
    destruct (bool_decide (device_ptr _ ≠ nullptr)) eqn:E2; simpl; split; try done.
  apply bool_decide_eq_false in E1, E2. tauto.
Qed.

(** When the bookkeeping returns a block whose host pointer is the pointer
    asked for, the second lookup is served by [allocated_blocks_]. *)
Lemma get_block_info_cached st p :
  allocated_blocks_ st !! p = None →
  host_ptr (bft_mem_get_block_info_try B (calls st) p) = p →
  p ≠ nullptr →
  allocated_blocks_ (get_block_info B st p).1 !! p
    = Some (bft_mem_get_block_info_try B (calls st) p).
Proof.
  intros Hp Hh Hnn. destruct (get_block_info_miss st p Hp) as [_ ->].
  - rewrite Hh. apply lookup_insert_eq.
  - left. by rewrite Hh.
Qed.

(** C9 (as amended). The time-to-live is reset when a block is retired, not
    when it is handed out again: a block released through a recognised
    pointer enters its free list with counter 0, every acquire on that mode
    adds one to it, and the block an acquire returns -- the one then
    recorded in [allocated_blocks_] and reported by lookup -- has counter 0
    when it is freshly allocated and a counter between 1 and TTL_MAX - 1
    (one more than it had in the free list) when it is reused. *)
Theorem C9_ttl_reset_on_retire st sz m fn st' me :
  reachable B st →
  allocate B st sz m fn = (st', me) →
  get_block_info B st' (host_ptr me) = (st', me) ∧
  (fresh_allocation st sz m → ttl me = 0) ∧
  (¬ fresh_allocation st sz m →
     1 ≤ ttl me < TTL_MAX ∧ ∃ b, b ∈ free_list st m ∧ me = age b) ∧
  (∀ p it, p ≠ nullptr → allocated_blocks_ st !! p = Some it →
     last (free_list (deallocate B st p) (mode it)) = Some (set_ttl it 0)).
Proof.
  intros Hr%reachable_wf Ha. split; [|split; [|split]].
  - unfold get_block_info.
    assert (allocated_blocks_ st' !! host_ptr me = Some me) as ->; [|done].
    revert Ha. rewrite allocate_unfold. cbv zeta.
    destruct (first_fit _ _) as [[me' fl2]|]; intros [= <- <-]; cbn;
      apply lookup_insert_eq.
  - unfold fresh_allocation. rewrite evict_scan_snd. intros Hf.
    revert Ha. rewrite allocate_unfold. cbv zeta. rewrite Hf. intros [= <- <-].
    destruct m, fn; unfold allocate_new_block, host_only; reflexivity.
  - unfold fresh_allocation. rewrite evict_scan_snd. intros Hf.
    revert Ha. rewrite allocate_unfold. cbv zeta.
    destruct (first_fit _ _) as [[me' fl2]|] eqn:E; [|done]. intros [= <- <-].
    apply first_fit_Some in E as (l1 & l2 & E & _ & _ & _).
    assert (Hin : me' ∈ filter (λ b, ttl b < TTL_MAX) (age <$> free_list st m)).
    { rewrite E. rewrite elem_of_app, elem_of_cons. tauto. }
    split; [by apply (scanned_wf _ _ (Hr m))|].
    apply list_elem_of_filter in Hin as [_ Hin].
    apply list_elem_of_fmap in Hin as (b & -> & Hb). eauto.
  - intros p it Hp Hit. unfold deallocate.
    rewrite bool_decide_eq_false_2 by done. rewrite Hit.
    rewrite free_list_insert. simpl. rewrite decide_True by done.
    by rewrite last_snoc.
Qed.

(** C10. Releasing a non-null pointer that [allocated_blocks_] does not
    know is neither an error nor a no-op: whatever the bookkeeping answers
    (null pointers included), the answer, with its counter set to 0, is
    appended to the free list of the mode it reports, nothing else changes,
    and the entry is then aged by the scan of the next acquire on that mode
    and returned by it when it is the first entry of the requested size. *)
Theorem C10_release_unrecognised st p :
  p ≠ nullptr →
  allocated_blocks_ st !! p = None →
  let me := set_ttl (bft_mem_get_block_info_try B (calls st) p) 0 in
  let st' := deallocate B st p in
  allocated_blocks_ st' = allocated_blocks_ st ∧
  calls st' = calls st ∧
  free_list st' (mode me) = free_list st (mode me) ++ [me] ∧
  (∀ m', m' ≠ mode me → free_list st' m' = free_list st m') ∧
  (∀ sz fn,
     (evict_scan (calls st') (free_list st' (mode me))).2
       = (evict_scan (calls st) (free_list st (mode me))).2 ++ [set_ttl me 1] ∧
     (adjusted_size sz = size me →
      Forall (λ b, size b ≠ size me) (free_list st (mode me)) →
      (allocate B st' sz (mode me) fn).2 = set_ttl me 1)).
Proof.
  intros Hp Hnone me st'.
  assert (Hst' : st' = mk_pool (allocated_blocks_ st)
            (<[mode me := free_list st (mode me) ++ [me]]> (free_blocks_ st)) (calls st)).
  { unfold st', deallocate. rewrite bool_decide_eq_false_2 by done. by rewrite Hnone. }
  assert (Hfl : free_list st' (mode me) = free_list st (mode me) ++ [me]).
  { rewrite Hst', free_list_insert. by rewrite decide_True. }
  assert (Hscan : filter (λ b, ttl b < TTL_MAX) (age <$> free_list st' (mode me))
          = filter (λ b, ttl b < TTL_MAX) (age <$> free_list st (mode me)) ++ [set_ttl me 1]).
  { rewrite Hfl, fmap_app, filter_app. f_equal. }
  split; [by rewrite Hst'|]. split; [by rewrite Hst'|]. split; [done|]. split.
  - intros m' Hm'. rewrite Hst', free_list_insert. by rewrite decide_False.
  - intros sz fn. split.
    + by rewrite !evict_scan_snd.
    + intros Hsz Hall. rewrite allocate_unfold. cbv zeta. rewrite Hscan, Hsz.
      rewrite first_fit_app; [done| |done].
      apply Forall_forall. intros b [_ Hb]%list_elem_of_filter.
      apply list_elem_of_fmap in Hb as (b0 & -> & Hb0).
      rewrite Forall_forall in Hall. exact (Hall _ Hb0).
Qed.

End PoolProperties.

(** ** Reuse of a retired block (C1) *)

(** [o] is an acquire on mode [m]. *)
Definition acquires_mode (m : cs_alloc_mode_t) (o : op) : bool :=
  match o with
  | Acquire _ m' _ => bool_decide (m' = m)
  | _ => false
  end.

(** [o] is an acquire on mode [m] whose adjusted size is [adj]. *)
Definition requests (adj : Z) (m : cs_alloc_mode_t) (o : op) : bool :=
  match o with
  | Acquire sz m' _ => bool_decide (m' = m) && bool_decide (adjusted_size sz = adj)
  | _ => false
  end.

Definition n_acquires (m : cs_alloc_mode_t) (os : list op) : nat :=
  length (filter (acquires_mode m) os).

Section Reuse.

Context (B : backend).

(** Block [set_ttl Bk t] waits in the free list of [m], behind entries of
    other sizes only. *)
Definition waiting (st : MemoryPool) (m : cs_alloc_mode_t) (Bk : cs_mem_block_t)
    (t : Z) : Prop :=
  ∃ l1 l2, free_list st m = l1 ++ set_ttl Bk t :: l2 ∧
           Forall (λ b, size b ≠ size Bk) l1.

Lemma first_fit_keeps adj (l1 : list cs_mem_block_t) b l2 me r :
  size b ≠ adj →
  first_fit adj (l1 ++ b :: l2) = Some (me, r) →
  ∃ l1' l2', r = l1' ++ b :: l2' ∧ (∀ x, x ∈ l1' → x ∈ l1).
Proof.
  intros Hb. revert me r. induction l1 as [|it l1 IH]; intros me r; simpl.
  - rewrite bool_decide_eq_false_2 by done.
    destruct (first_fit adj l2) as [[me' r']|]; [|done]. intros [= <- <-].
    by exists [], r'.
  - case_bool_decide.
    + intros [= <- <-]. exists l1, l2. split; [done|]. intros x Hx. by right.
    + destruct (first_fit adj (l1 ++ b :: l2)) as [[me' r']|]; [|done].
      intros [= <- <-]. destruct (IH _ _ eq_refl) as (l1' & l2' & -> & Hsub).
      exists (it :: l1'), l2'. split; [done|].
      intros x [->|Hx]%elem_of_cons; [by left|right; auto].
Qed.

Lemma scan_split (l1 : list cs_mem_block_t) b l2 :
  ttl b + 1 < TTL_MAX →
  filter (λ b, ttl b < TTL_MAX) (age <$> (l1 ++ b :: l2))
  = filter (λ b, ttl b < TTL_MAX) (age <$> l1)
    ++ age b :: filter (λ b, ttl b < TTL_MAX) (age <$> l2).
Proof.
  intros Ht. rewrite fmap_app, filter_app, fmap_cons, filter_cons.
  by rewrite decide_True.
Qed.

Lemma scan_sizes (l : list cs_mem_block_t) adj :
  Forall (λ b, size b ≠ adj) l →
  Forall (λ b, size b ≠ adj) (filter (λ b, ttl b < TTL_MAX) (age <$> l)).
Proof.
  rewrite !Forall_forall. intros H b [_ Hb]%list_elem_of_filter.
  apply list_elem_of_fmap in Hb as (b0 & -> & Hb0). exact (H _ Hb0).
Qed.

Lemma allocate_free_list_other st sz m fn m' :
  m ≠ m' → free_list (allocate B st sz m fn).1 m' = free_list st m'.
Proof.
  intros Hm. rewrite allocate_unfold. cbv zeta.
  destruct (first_fit _ _) as [[me fl2]|]; cbn [fst]; rewrite free_list_insert;
    by rewrite decide_False.
Qed.

Lemma deallocate_free_list st p m :
  ∃ ext, free_list (deallocate B st p) m = free_list st m ++ ext.
Proof.
  unfold deallocate. case_bool_decide; [exists []; by rewrite app_nil_r|].
  destruct (allocated_blocks_ st !! p) as [it|]; rewrite free_list_insert;
    (case_decide as Hm; [subst; eauto | exists []; by rewrite app_nil_r]).
Qed.

Lemma waiting_step st m Bk t o :
  waiting st m Bk t →
  requests (size Bk) m o = false →
  t + (if acquires_mode m o then 1 else 0) < TTL_MAX →
  waiting (run_op B st o) m Bk (t + (if acquires_mode m o then 1 else 0)).
Proof.
  intros (l1 & l2 & Hfl & Hl1) Hreq Ht.
  destruct o as [sz m' fn|p|p|p me|me]; simpl in *.
  - case_bool_decide as Hm; simpl in *.
    + subst m'. apply bool_decide_eq_false in Hreq.
      rewrite allocate_unfold. cbv zeta. rewrite Hfl.
      rewrite scan_split by (simpl; lia).
      replace (age (set_ttl Bk t)) with (set_ttl Bk (t + 1)) by done.
      pose proof (scan_sizes _ _ Hl1) as Hl1'.
      destruct (first_fit _ _) as [[me fl2]|] eqn:E; cbn [fst]; unfold waiting;
        rewrite free_list_insert, decide_True by done.
      * apply first_fit_keeps in E as (l1' & l2' & -> & Hsub); [|simpl; congruence].
        exists l1', l2'. split; [done|].
        rewrite Forall_forall in Hl1' |- *. auto.
      * eauto.
    + rewrite Z.add_0_r. unfold waiting.
      rewrite allocate_free_list_other by done. eauto.
  - rewrite Z.add_0_r. destruct (deallocate_free_list st p m) as (ext & Hext).
    exists l1, (l2 ++ ext). rewrite Hext, Hfl. by rewrite <- app_assoc.
  - rewrite Z.add_0_r. exists l1, l2. unfold free_list.
    rewrite get_block_info_free_blocks. auto.
  - rewrite Z.add_0_r. by exists l1, l2.
  - rewrite Z.add_0_r. by exists l1, l2.
Qed.

Lemma waiting_run os : ∀ st m Bk t,
  waiting st m Bk t →
  Forall (λ o, requests (size Bk) m o = false) os →
  t + Z.of_nat (n_acquires m os) < TTL_MAX →
  waiting (run_ops B st os) m Bk (t + Z.of_nat (n_acquires m os)).
Proof.
  induction os as [|o os IH]; intros st m Bk t Hw Hall Ht; simpl.
  - unfold n_acquires. simpl. by rewrite Z.add_0_r.
  - inversion Hall as [|? ? Ho Hos]; subst.
    assert (Hn : Z.of_nat (n_acquires m (o :: os))
                 = (if acquires_mode m o then 1 else 0) + Z.of_nat (n_acquires m os)).
    { unfold n_acquires. rewrite filter_cons.
      destruct (acquires_mode m o); simpl; lia. }
    rewrite Hn in Ht |- *. rewrite Z.add_assoc.
    apply IH; [|done|lia].
    apply waiting_step; [done|done|].
    destruct (acquires_mode m o); lia.
Qed.

(** The acquire that finds the waiting block. *)
Lemma waiting_reused st m Bk t sz fn :
  waiting st m Bk t →
  adjusted_size sz = size Bk →
  t + 1 < TTL_MAX →
  (allocate B st sz m fn).2 = set_ttl Bk (t + 1) ∧
  n_mallocs (calls (allocate B st sz m fn).1) = n_mallocs (calls st).
Proof.
  intros (l1 & l2 & Hfl & Hl1) Hsz Ht.
  rewrite allocate_unfold. cbv zeta. rewrite Hfl, scan_split by (simpl; lia).
  rewrite Hsz, first_fit_app; [| by apply scan_sizes | done]. cbn [fst snd calls].
  split; [done|]. rewrite <- Hfl. apply evict_scan_n_mallocs.
Qed.

Lemma allocate_result st sz m fn :
  pool_wf st →
  let me := (allocate B st sz m fn).2 in
  size me = adjusted_size sz ∧ mode me = m ∧
  allocated_blocks_ (allocate B st sz m fn).1 !! host_ptr me = Some me.
Proof.
  intros Hwf. rewrite allocate_unfold. cbv zeta.
  destruct (first_fit _ _) as [[me fl2]|] eqn:E; cbn [fst snd allocated_blocks_].
  - apply first_fit_Some in E as (l1 & l2 & E & _ & Hs & _).
    split; [done|]. split; [|apply lookup_insert_eq].
    apply (scanned_wf _ _ (Hwf m)). rewrite E, elem_of_app, elem_of_cons. tauto.
  - split; [|split; [|apply lookup_insert_eq]];
      destruct m, fn; unfold allocate_new_block, host_only; reflexivity.
Qed.

(** C1 (as amended). Let an acquire of size [sz] and mode [m] return a block
    with a non-null host pointer, at a moment when no other retired block
    of mode [m] has the same adjusted size.  Release it through its host
    pointer, then let the client make any calls among which there are fewer
    than 499 acquires on mode [m] and no acquire of that adjusted size on
    mode [m].  The next acquire of size [sz] and mode [m] then returns a
    block with the same host and device pointers, and makes no physical
    allocation. *)
Theorem C1_reuse_before_ttl st sz m fn Bk os fn' :
  reachable B st →
  (allocate B st sz m fn).2 = Bk →
  host_ptr Bk ≠ nullptr →
  Forall (λ b, size b ≠ adjusted_size sz) (free_list (allocate B st sz m fn).1 m) →
  Forall (λ o, requests (adjusted_size sz) m o = false) os →
  (n_acquires m os < 499)%nat →
  let st2 := run_ops B (deallocate B (allocate B st sz m fn).1 (host_ptr Bk)) os in
  host_ptr (allocate B st2 sz m fn').2 = host_ptr Bk ∧
  device_ptr (allocate B st2 sz m fn').2 = device_ptr Bk ∧
  n_mallocs (calls (allocate B st2 sz m fn').1) = n_mallocs (calls st2).
Proof.
  intros Hr%reachable_wf HB Hnn Hothers Hos Hn st2.
  destruct (allocate_result st sz m fn Hr) as (Hsz & Hmode & Hrec).
  rewrite HB in Hsz, Hmode, Hrec.
  set (st1 := (allocate B st sz m fn).1) in *.
  assert (Hw0 : waiting (deallocate B st1 (host_ptr Bk)) m Bk 0).
  { unfold deallocate. rewrite bool_decide_eq_false_2 by done. rewrite Hrec.
    exists (free_list st1 m), []. rewrite free_list_insert. simpl.
    rewrite decide_True by done. rewrite Hmode. split; [done|]. by rewrite Hsz. }
  rewrite <- Hsz in Hos.
  pose proof (waiting_run os _ m Bk 0 Hw0 Hos) as Hw. simpl in Hw.
  fold st2 in Hw. unfold TTL_MAX in Hw. specialize (Hw ltac:(lia)).
  destruct (waiting_reused st2 m Bk _ sz fn' Hw) as [-> ->]; [done|unfold TTL_MAX; lia|].
  done.
Qed.

End Reuse.

(** ** Eviction of a block left unmatched (C2) *)

(** Host pointers of a list of blocks. *)
Definition ptrs (l : list cs_mem_block_t) : list ptr := host_ptr <$> l.

(** [p] is the key of a checked-out block. *)
Definition checked_out (st : MemoryPool) (p : ptr) : Prop :=
  is_Some (allocated_blocks_ st !! p).



Section Eviction.

Context (B : backend).

(** The history records [free_block] having run on [b] from the eviction
    scan (that is, with a file name). *)
Definition physically_released (st : MemoryPool) (b : cs_mem_block_t) : Prop :=
  ∃ tr0 lg, calls st = free_block tr0 b true ++ lg.

(** Call [o], made in state [st], leaves the address [p] alone: it does not
    retire a block at [p], and files nothing under [p] in
    [allocated_blocks_]. *)
Definition leaves_alone (p : ptr) (st : MemoryPool) (o : op) : Prop :=
  match o with
  | Acquire sz m fn => host_ptr (allocate B st sz m fn).2 ≠ p
  | Release q => q = nullptr ∨ host_ptr (released_block B st q) ≠ p
  | Lookup q =>
      checked_out st q ∨ host_ptr (bft_mem_get_block_info_try B (calls st) q) ≠ p
  | Update q _ => q ≠ p
  | InsertExternal me => host_ptr me ≠ p
  end.

Lemma evict_scan_frees tr (l : list cs_mem_block_t) b :
  b ∈ l → TTL_MAX ≤ ttl b + 1 →
  ∃ tr0 lg, (evict_scan tr l).1 = free_block tr0 (age b) true ++ lg.
Proof.
  revert tr. induction l as [|it l IH]; intros tr Hin Ht; [by apply elem_of_nil in Hin|].
  cbn [evict_scan]. apply elem_of_cons in Hin as [<-|Hin].
  - rewrite bool_decide_eq_true_2 by (simpl; lia).
    destruct (evict_scan_extends (free_block tr (set_ttl b (ttl b + 1)) true) l)
      as (ev & -> & _). by exists tr, ev.
  - case_bool_decide.
    + by apply IH.
    + destruct (IH tr Hin Ht) as (tr0 & lg & H0).
      destruct (evict_scan tr l). simpl in *. eauto.
Qed.

Lemma allocate_calls_extends st sz m fn :
  ∃ ev, calls (allocate B st sz m fn).1
        = (evict_scan (calls st) (free_list st m)).1 ++ ev.
Proof.
  rewrite allocate_unfold. cbv zeta.
  destruct (first_fit _ _) as [[me fl2]|]; cbn [fst calls].
  - exists []. by rewrite app_nil_r.
  - destruct (allocate_new_block_calls B (evict_scan (calls st) (free_list st m)).1
                (adjusted_size sz) m fn) as (ev & -> & _). eauto.
Qed.

Lemma allocate_released st sz m fn b :
  physically_released st b → physically_released (allocate B st sz m fn).1 b.
Proof.
  intros (tr0 & lg & H). unfold physically_released.
  destruct (allocate_calls_extends st sz m fn) as (ev & ->).
  destruct (evict_scan_extends (calls st) (free_list st m)) as (ev1 & -> & _).
  rewrite H. exists tr0, ((lg ++ ev1) ++ ev). by rewrite <- !app_assoc.
Qed.

Lemma first_fit_subset adj (l : list cs_mem_block_t) me r :
  first_fit adj l = Some (me, r) → ∀ x, x ∈ r → x ∈ l.
Proof.
  intros (l1 & l2 & -> & -> & _)%first_fit_Some x.
  rewrite !elem_of_app, elem_of_cons. tauto.
Qed.

Lemma first_fit_other adj (l : list cs_mem_block_t) me r b :
  first_fit adj l = Some (me, r) → b ∈ l → size b ≠ adj → b ∈ r.
Proof.
  intros (l1 & l2 & -> & -> & Hs & _)%first_fit_Some.
  rewrite !elem_of_app, elem_of_cons. intros [?|[->|?]] ?; tauto.
Qed.

(** One acquire on mode [m]: every entry at address [p] that stays is one
    cycle older. *)
Lemma allocate_ages st sz m fn p t :
  (∀ b, b ∈ free_list st m → host_ptr b = p → t ≤ ttl b) →
  ∀ b, b ∈ free_list (allocate B st sz m fn).1 m → host_ptr b = p → t + 1 ≤ ttl b.
Proof.
  intros H b. rewrite allocate_unfold. cbv zeta.
  assert (Hsc : ∀ b, b ∈ filter (λ b, ttl b < TTL_MAX) (age <$> free_list st m)
                → host_ptr b = p → t + 1 ≤ ttl b).
  { intros b' [_ Hb]%list_elem_of_filter Hp.
    apply list_elem_of_fmap in Hb as (b0 & -> & Hb0).
    specialize (H _ Hb0 Hp). simpl. lia. }
  destruct (first_fit _ _) as [[me fl2]|] eqn:E; cbn [fst];
    rewrite free_list_insert, decide_True by done; [|by apply Hsc].
  intros Hb. apply Hsc. by eapply first_fit_subset.
Qed.

(** One acquire on mode [m] of another size: the block ages, or is released. *)
Lemma allocate_keeps_or_frees st sz m fn Bk t :
  set_ttl Bk t ∈ free_list st m →
  adjusted_size sz ≠ size Bk →
  (t + 1 < TTL_MAX ∧ set_ttl Bk (t + 1) ∈ free_list (allocate B st sz m fn).1 m)
  ∨ (TTL_MAX ≤ t + 1 ∧ physically_released (allocate B st sz m fn).1 (set_ttl Bk (t + 1))).
Proof.
  intros Hin Hsz. destruct (decide (t + 1 < TTL_MAX)) as [Ht|Ht].
  - left. split; [done|]. rewrite allocate_unfold. cbv zeta.
    assert (Hsc : set_ttl Bk (t + 1) ∈
              filter (λ b, ttl b < TTL_MAX) (age <$> free_list st m)).
    { apply list_elem_of_filter. split; [done|].
      apply list_elem_of_fmap. by exists (set_ttl Bk t). }
    destruct (first_fit _ _) as [[me fl2]|] eqn:E; cbn [fst];
      rewrite free_list_insert, decide_True by done; [|done].
    eapply first_fit_other; [done|done|]. simpl. congruence.
  - right. split; [lia|]. unfold physically_released.
    destruct (allocate_calls_extends st sz m fn) as (ev & ->).
    destruct (evict_scan_frees (calls st) _ _ Hin) as (tr0 & lg & ->); [simpl; lia|].
    exists tr0, (lg ++ ev). by rewrite <- app_assoc.
Qed.

Lemma allocate_key_absent st sz m fn p :
  allocated_blocks_ st !! p = None →
  host_ptr (allocate B st sz m fn).2 ≠ p →
  allocated_blocks_ (allocate B st sz m fn).1 !! p = None.
Proof.
  rewrite allocate_unfold. cbv zeta.
  destruct (first_fit _ _) as [[me fl2]|]; cbn [fst snd allocated_blocks_];
    intros Hp Hne; by rewrite lookup_insert_ne.
Qed.

(** What a release does to the free list of a mode: it appends the retired
    block, with counter 0, or nothing. *)
Lemma deallocate_appends st p m :
  free_list (deallocate B st p) m = free_list st m
  ∨ (p ≠ nullptr ∧
     free_list (deallocate B st p) m = free_list st m ++ [set_ttl (released_block B st p) 0]).
Proof.
  unfold deallocate, released_block. case_bool_decide as Hp; [by left|].
  destruct (allocated_blocks_ st !! p) as [it|]; rewrite free_list_insert; simpl;
    (case_decide as Hm; [subst; by right | by left]).
Qed.

Lemma n_acquires_cons m o os :
  Z.of_nat (n_acquires m (o :: os))
  = (if acquires_mode m o then 1 else 0) + Z.of_nat (n_acquires m os).
Proof.
  unfold n_acquires. rewrite filter_cons. destruct (acquires_mode m o); simpl; lia.
Qed.

Lemma run_op_released st o b :
  physically_released st b → physically_released (run_op B st o) b.
Proof.
  destruct o as [sz m fn|p|p|p me|me]; cbn [run_op]; [apply allocate_released| | |done|done].
  - unfold physically_released, deallocate. case_bool_decide; [done|].
    by destruct (allocated_blocks_ st !! p).
  - unfold physically_released, get_block_info.
    destruct (allocated_blocks_ st !! p); [done|]. by case_match.
Qed.

(** Whatever the client calls in between, the block ages by one at every
    acquire on its mode, until the scan releases it. *)
Lemma run_ops_evicts os : ∀ st m Bk t,
  Forall (λ o, requests (size Bk) m o = false) os →
  (t < TTL_MAX ∧ set_ttl Bk t ∈ free_list st m)
    ∨ physically_released st (set_ttl Bk TTL_MAX) →
  let t' := t + Z.of_nat (n_acquires m os) in
  (t' < TTL_MAX ∧ set_ttl Bk t' ∈ free_list (run_ops B st os) m)
    ∨ physically_released (run_ops B st os) (set_ttl Bk TTL_MAX).
Proof.
  induction os as [|o os IH]; intros st m Bk t Hall Hk; cbv zeta.
  - unfold n_acquires. simpl. by rewrite Z.add_0_r.
  - apply Forall_cons in Hall as [Ho Hos]. rewrite n_acquires_cons, Z.add_assoc.
    unfold run_ops. cbn [foldl]. fold (run_ops B (run_op B st o) os).
    apply (IH (run_op B st o) m Bk); [done|].
    destruct Hk as [[Ht Hin]|Hrel]; [|right; by apply run_op_released].
    destruct o as [sz m' fn|p|p|p me|me]; cbn [acquires_mode requests run_op] in *.
    + case_bool_decide as Hm; simpl in Ho.
      * subst m'. apply bool_decide_eq_false in Ho.
        destruct (allocate_keeps_or_frees st sz m fn Bk t Hin Ho) as [[? ?]|[? Hrel]].
        -- left. done.
        -- right. by replace TTL_MAX with (t + 1) by lia.
      * left. rewrite Z.add_0_r, allocate_free_list_other by done. done.
    + left. rewrite Z.add_0_r. split; [done|].
      destruct (deallocate_free_list B st p m) as (ext & ->). apply elem_of_app. by left.
    + left. rewrite Z.add_0_r. split; [done|]. unfold free_list.
      by rewrite get_block_info_free_blocks.
    + left. by rewrite Z.add_0_r.
    + left. by rewrite Z.add_0_r.
Qed.

(** While the client leaves the address [p] alone, every entry at [p] in
    the free list of [m] is as old as the number of acquires on [m]. *)
Lemma run_ops_ages os : ∀ st m p t,
  along B (leaves_alone p) st os →
  (∀ b, b ∈ free_list st m → host_ptr b = p → t ≤ ttl b) →
  ∀ b, b ∈ free_list (run_ops B st os) m → host_ptr b = p →
       t + Z.of_nat (n_acquires m os) ≤ ttl b.
Proof.
  induction os as [|o os IH]; intros st m p t Hal Hage.
  - unfold n_acquires. simpl. intros b Hb Hp. rewrite Z.add_0_r. by apply Hage.
  - destruct Hal as [Ho Hal]. rewrite n_acquires_cons, Z.add_assoc.
    unfold run_ops. cbn [foldl]. fold (run_ops B (run_op B st o) os).
    apply (IH (run_op B st o) m p); [done|].
    destruct o as [sz m' fn|q|q|q me|me]; cbn [acquires_mode run_op leaves_alone] in *.
    + case_bool_decide as Hm.
      * subst m'. by apply allocate_ages.
      * rewrite Z.add_0_r, allocate_free_list_other by done. done.
    + rewrite Z.add_0_r. intros b.
      destruct (deallocate_appends st q m) as [->|[Hq ->]]; [by apply Hage|].
      intros [Hb| ->%list_elem_of_singleton]%elem_of_app Hp; [by apply Hage|].
      simpl in Hp. destruct Ho; done.
    + rewrite Z.add_0_r. unfold free_list. by rewrite get_block_info_free_blocks.
    + by rewrite Z.add_0_r.
    + by rewrite Z.add_0_r.
Qed.

(** While the client leaves the address [p] alone, nothing is filed under
    it in [allocated_blocks_]. *)
Lemma run_ops_key_absent os : ∀ st p,
  along B (leaves_alone p) st os →
  allocated_blocks_ st !! p = None →
  allocated_blocks_ (run_ops B st os) !! p = None.
Proof.
  induction os as [|o os IH]; intros st p Hal Hp; [done|].
  destruct Hal as [Ho Hal]. unfold run_ops. cbn [foldl].
  fold (run_ops B (run_op B st o) os). apply IH; [done|].
  destruct o as [sz m' fn|q|q|q me|me]; cbn [run_op leaves_alone] in *.
  - by apply allocate_key_absent.
  - unfold deallocate. case_bool_decide; [done|].
    destruct (allocated_blocks_ st !! q); cbn [allocated_blocks_]; [|done].
    rewrite lookup_delete_None. by right.
  - unfold get_block_info. destruct (allocated_blocks_ st !! q) as [it|] eqn:E; [done|].
    destruct Ho as [[it Hit]|Ho]; [congruence|].
    case_match; [|done]. cbn [fst allocated_blocks_]. by rewrite lookup_insert_ne.
  - cbn [update_block allocated_blocks_]. by rewrite lookup_insert_ne.
  - cbn [insert_block allocated_blocks_]. by rewrite lookup_insert_ne.
Qed.

Lemma run_ops_wf os : ∀ st, pool_wf st → pool_wf (run_ops B st os).
Proof.
  induction os as [|o os IH]; intros st H; [done|].
  unfold run_ops. cbn [foldl]. apply IH. by apply run_op_wf.
Qed.

(** C2 (as amended). Let block [Bk] sit in the free list of its mode [m]
    with counter 0, as after a release.  After any sequence of calls of
    which at least 500 are acquires on mode [m] and none is an acquire on
    mode [m] of [Bk]'s size (acquires on other modes do not age [Bk]),
    [free_block] has run on [Bk], with counter 500, from the eviction scan.
    If moreover the calls of the sequence leave the host address of [Bk]
    alone -- no acquire returns a block at it, no release retires a block
    at it, no lookup caches one at it, no update or insert files anything
    under it -- then no entry at that address is left in the free list of
    [m]; and if the address was not a key of [allocated_blocks_] at the
    start, it is none at the end, so that a lookup of it is not served by
    the pool: it returns what the allocator's bookkeeping says after the
    release. *)
Theorem C2_eviction_after_500_cycles st m Bk os :
  reachable B st →
  Bk ∈ free_list st m →
  ttl Bk = 0 →
  Forall (λ o, requests (size Bk) m o = false) os →
  (500 ≤ n_acquires m os)%nat →
  let st' := run_ops B st os in
  physically_released st' (set_ttl Bk TTL_MAX) ∧
  (along B (leaves_alone (host_ptr Bk)) st os →
   (host_ptr Bk ∉ ptrs (free_list st' m)) ∧
   (allocated_blocks_ st !! host_ptr Bk = None →
    allocated_blocks_ st' !! host_ptr Bk = None ∧
    (get_block_info B st' (host_ptr Bk)).2
      = bft_mem_get_block_info_try B (calls st') (host_ptr Bk))).
Proof.
  intros Hwf%reachable_wf Hin Httl Hall Hn st'. split.
  - destruct (run_ops_evicts os st m Bk 0 Hall) as [[Ht _]|Hrel]; [|unfold TTL_MAX in *; lia|done].
    left. split; [done|]. replace (set_ttl Bk 0) with Bk; [done|].
    destruct Bk; simpl in *; by subst.
  - intros Hal. split.
    + intros (b & Hp & Hb)%list_elem_of_fmap.
      pose proof (run_ops_ages os st m (host_ptr Bk) 0 Hal) as Hage.
      specialize (Hage ltac:(intros b' Hb' _; by apply Hwf in Hb' as [_ [? _]]) b Hb
                       ltac:(done)).
      apply (run_ops_wf os st Hwf) in Hb as [_ [_ Hlt]]. unfold TTL_MAX in *. lia.
    + intros Hp.
      assert (Hp' : allocated_blocks_ st' !! host_ptr Bk = None)
        by by apply run_ops_key_absent.
      split; [done|]. by apply get_block_info_miss.
Qed.

End Eviction.

(** ** Ownership exclusivity (C3) *)

Section Ownership.

Context (B : backend).















End Ownership.

(** ** The properties on the reference backend *)

Lemma reachable_run_ops (B : backend) os : ∀ st,
  reachable B st → reachable B (run_ops B st os).
Proof.
  induction os as [|o os IH]; intros st H; [done|].
  simpl. apply IH. by constructor.
Qed.

Lemma ref_backend_nonnull : returns_nonnull ref_backend.
Proof. intros tr c _. unfold ref_backend, ref_returned, nullptr. simpl. lia. Qed.

(** A device-only answer of the bookkeeping is stored under the null key,
    so the pointer asked for stays unknown to [allocated_blocks_]. *)
Lemma get_block_info_device_only (B : backend) st p :
  allocated_blocks_ st !! p = None →
  p ≠ nullptr →
  host_ptr (bft_mem_get_block_info_try B (calls st) p) = nullptr →
  device_ptr (bft_mem_get_block_info_try B (calls st) p) = p →
  allocated_blocks_ (get_block_info B st p).1 !! p = None ∧
  allocated_blocks_ (get_block_info B st p).1 !! nullptr
    = Some (bft_mem_get_block_info_try B (calls st) p).
Proof.
  intros Hp Hnn Hh Hd. destruct (get_block_info_miss B st p Hp) as [_ ->].
  - rewrite Hh. split; [by rewrite lookup_insert_ne|apply lookup_insert_eq].
  - right. by rewrite Hd.
Qed.

(** Witness of C1: acquire 100 bytes in HOST mode on the empty pool,
    release, acquire 10 bytes and look the pointer up, acquire 100 bytes. *)
Lemma C1_reuse_before_ttl_witness :
  let Bk := mk_block 4096 0 128 CS_ALLOC_HOST 0 in
  let os := [Acquire 10 CS_ALLOC_HOST false; Lookup 4096] in
  let st2 := run_ops ref_backend
    (deallocate ref_backend
       (allocate ref_backend empty_pool 100 CS_ALLOC_HOST false).1 (host_ptr Bk)) os in
  host_ptr (allocate ref_backend st2 100 CS_ALLOC_HOST true).2 = host_ptr Bk ∧
  device_ptr (allocate ref_backend st2 100 CS_ALLOC_HOST true).2 = device_ptr Bk ∧
  n_mallocs (calls (allocate ref_backend st2 100 CS_ALLOC_HOST true).1)
    = n_mallocs (calls st2).
Proof.
  apply (C1_reuse_before_ttl ref_backend empty_pool 100 CS_ALLOC_HOST false
           (mk_block 4096 0 128 CS_ALLOC_HOST 0)
           [Acquire 10 CS_ALLOC_HOST false; Lookup 4096] true).
  - apply reachable_init.
  - reflexivity.
  - vm_compute. discriminate.
  - vm_compute. constructor.
  - repeat constructor.
  - vm_compute. lia.
Defined.

(** Counterexample to C1 as stated.  (a) In mode DEVICE the block has a null
    host pointer, releasing it is a no-op and the second acquire allocates
    anew.  (b) In mode HOST, with another retired block of the same size
    ahead in the free list, the second acquire returns that other block. *)
Lemma C1_counterexample :
  (let '(st1, Bk) := allocate ref_backend empty_pool 100 CS_ALLOC_DEVICE false in
   let st2 := deallocate ref_backend st1 (host_ptr Bk) in
   let '(st3, Bk') := allocate ref_backend st2 100 CS_ALLOC_DEVICE false in
   device_ptr Bk = 4096 ∧ device_ptr Bk' = 8192 ∧
   n_mallocs (calls st3) = S (n_mallocs (calls st2))) ∧
  (let st := run_ops ref_backend empty_pool
       [Acquire 64 CS_ALLOC_HOST false; Acquire 64 CS_ALLOC_HOST false;
        Release 4096; Release 8192] in
   let '(st1, Bk) := allocate ref_backend st 64 CS_ALLOC_HOST false in
   let st2 := deallocate ref_backend st1 (host_ptr Bk) in
   let '(st3, Bk') := allocate ref_backend st2 64 CS_ALLOC_HOST false in
   host_ptr Bk = 4096 ∧ host_ptr Bk' = 8192).
Proof. vm_compute. repeat split. Qed.

(** The calls of the witness of C2: 500 acquires of 64 bytes in HOST
    mode, with other calls in between. *)
Definition eviction_run : list op :=
  replicate 250 (Acquire 64 CS_ALLOC_HOST false)
  ++ [Lookup 8192; Lookup 5; Release nullptr; Release 8192;
      Acquire 32 CS_ALLOC_DEVICE false;
      InsertExternal (mk_block 64 0 16 CS_ALLOC_HOST 0);
      Update 64 (mk_block 64 0 32 CS_ALLOC_HOST 0)]
  ++ replicate 250 (Acquire 64 CS_ALLOC_HOST false).

(** Witness of C2: a 128-byte HOST block is released, then the calls of
    [eviction_run] follow; they leave its address alone. *)
Lemma C2_eviction_after_500_cycles_witness :
  let st := run_ops ref_backend empty_pool
              [Acquire 100 CS_ALLOC_HOST false; Release 4096] in
  let Bk := mk_block 4096 0 128 CS_ALLOC_HOST 0 in
  let st' := run_ops ref_backend st eviction_run in
  physically_released st' (set_ttl Bk TTL_MAX) ∧
  (host_ptr Bk ∉ ptrs (free_list st' CS_ALLOC_HOST)) ∧
  allocated_blocks_ st' !! host_ptr Bk = None ∧
  (get_block_info ref_backend st' (host_ptr Bk)).2
    = bft_mem_get_block_info_try ref_backend (calls st') (host_ptr Bk).
Proof.
  destruct (C2_eviction_after_500_cycles ref_backend
              (run_ops ref_backend empty_pool
                 [Acquire 100 CS_ALLOC_HOST false; Release 4096])
              CS_ALLOC_HOST (mk_block 4096 0 128 CS_ALLOC_HOST 0) eviction_run)
    as [H1 H2].
  - apply reachable_run_ops, reachable_init.
  - vm_compute. left.
  - reflexivity.
  - unfold eviction_run. repeat apply Forall_app_2; try apply Forall_replicate;
      repeat constructor.
  - vm_compute. lia.
  - destruct H2 as [H2 H3].
    + vm_compute. repeat split; try discriminate; try (right; discriminate); auto.
    + destruct H3 as [H3 H4]; [reflexivity|].
      split; [exact H1|]. split; [exact H2|]. split; [exact H3|exact H4].
Defined.

(** On the reference backend, whose bookkeeping forgets a host block at
    [bft_mem_free], the lookup of the evicted pointer then finds nothing. *)
Example eviction_lookup_not_found :
  let st := run_ops ref_backend empty_pool
              [Acquire 100 CS_ALLOC_HOST false; Release 4096] in
  let st' := run_ops ref_backend st eviction_run in
  (get_block_info ref_backend st' 4096).2 = not_found.
Proof. vm_compute. reflexivity. Qed.

(** Counterexample to C2 as stated.  (a) 500 acquires on another mode leave
    the retired block where it is, with its counter at 0, and nothing is
    released.  (b) A lookup of the retired pointer, which the bookkeeping
    still knows, files the block in [allocated_blocks_] again; the scan of
    the 500th acquire on the mode releases the block and erases it from the
    free list, and the lookup of its pointer goes on reporting it.  (c) A
    second release of the pointer, after 250 of the acquires, retires the
    block once more: when the first entry is released and erased, the
    second is still in the free list. *)
Lemma C2_counterexample :
  (let st := run_ops ref_backend empty_pool
               [Acquire 100 CS_ALLOC_HOST false; Release 4096] in
   let os := replicate 500 (Acquire 64 CS_ALLOC_HOST_DEVICE false) in
   let st' := run_ops ref_backend st os in
   n_acquires CS_ALLOC_HOST_DEVICE os = 500%nat ∧
   Forall (λ o, requests 128 CS_ALLOC_HOST o = false) os ∧
   free_list st' CS_ALLOC_HOST = [mk_block 4096 0 128 CS_ALLOC_HOST 0] ∧
   forallb is_malloc (calls st') = true) ∧
  (let st := run_ops ref_backend empty_pool
               [Acquire 100 CS_ALLOC_HOST false; Release 4096; Lookup 4096] in
   let os := replicate 500 (Acquire 64 CS_ALLOC_HOST false) in
   let st' := run_ops ref_backend st os in
   Forall (λ o, requests 128 CS_ALLOC_HOST o = false) os ∧
   free_list st' CS_ALLOC_HOST = [] ∧
   bft_mem_free 4096 ∈ calls st' ∧
   (get_block_info ref_backend st' 4096).2 = mk_block 4096 0 128 CS_ALLOC_HOST 0) ∧
  (let st := run_ops ref_backend empty_pool
               [Acquire 100 CS_ALLOC_HOST false; Release 4096] in
   let os := replicate 250 (Acquire 64 CS_ALLOC_HOST false) ++ [Release 4096]
             ++ replicate 250 (Acquire 64 CS_ALLOC_HOST false) in
   let st' := run_ops ref_backend st os in
   n_acquires CS_ALLOC_HOST os = 500%nat ∧
   Forall (λ o, requests 128 CS_ALLOC_HOST o = false) os ∧
   bft_mem_free 4096 ∈ calls st' ∧
   free_list st' CS_ALLOC_HOST = [mk_block 4096 0 128 CS_ALLOC_HOST 250]).
Proof.
  cbv zeta. split; [|split].
  - split; [reflexivity|]. split; [|split; vm_compute; reflexivity].
    apply Forall_replicate. reflexivity.
  - split; [apply Forall_replicate; reflexivity|].
    split; [vm_compute; reflexivity|]. split; [|vm_compute; reflexivity].
    apply (bool_decide_unpack _). vm_compute. exact I.
  - split; [reflexivity|]. split.
    { repeat apply Forall_app_2; try apply Forall_replicate; repeat constructor. }
    split; [|vm_compute; reflexivity].
    apply (bool_decide_unpack _). vm_compute. exact I.
Qed.



(** Witness of C7: the first acquire on the empty pool, in HOST mode. *)
Lemma C7_fresh_block_pointers_witness :
  let m := CS_ALLOC_HOST in
  let st' := (allocate ref_backend empty_pool 100 m true).1 in
  let me := (allocate ref_backend empty_pool 100 m true).2 in
  (m = CS_ALLOC_HOST_DEVICE_SHARED →
     host_ptr me ≠ nullptr ∧ device_ptr me ≠ nullptr ∧ host_ptr me = device_ptr me) ∧
  (m = CS_ALLOC_DEVICE → host_ptr me = nullptr ∧ device_ptr me ≠ nullptr) ∧
  (mode_rank m < mode_rank CS_ALLOC_HOST_DEVICE_PINNED →
     host_ptr me ≠ nullptr ∧
     ∃ ev, calls st' = calls empty_pool ++ ev ∧
           filter is_malloc ev = [bft_mem_malloc (adjusted_size 100)] ∧
           filter is_host_malloc ev = [bft_mem_malloc (adjusted_size 100)]).
Proof.
  apply (C7_fresh_block_pointers ref_backend empty_pool 100 CS_ALLOC_HOST true).
  - apply ref_backend_nonnull.
  - reflexivity.
  - reflexivity.
Defined.

(** C8, on the code.  A DEVICE block is acquired through the pool (and
    registered with the allocator's bookkeeping); its device pointer is
    4096, its host pointer is null.  The lookup of 4096 misses
    [allocated_blocks_], finds the block in the bookkeeping and stores it
    under its host pointer, the null key: [allocated_blocks_] still has
    nothing under 4096, and the repeated lookup goes to the bookkeeping
    again. *)
Theorem C8_device_only_lookup_not_cached :
  let st := run_ops ref_backend empty_pool [Acquire 100 CS_ALLOC_DEVICE true] in
  let '(st1, me) := get_block_info ref_backend st 4096 in
  allocated_blocks_ st !! 4096 = None ∧
  me = mk_block nullptr 4096 128 CS_ALLOC_DEVICE 0 ∧
  allocated_blocks_ st1 !! 4096 = None ∧
  allocated_blocks_ st1 !! nullptr = Some me.
Proof. vm_compute. repeat split. Qed.

(** Witness of C9: acquire, release, acquire again on the empty pool. *)
Lemma C9_ttl_reset_on_retire_witness :
  let st := run_ops ref_backend empty_pool
              [Acquire 100 CS_ALLOC_HOST false; Release 4096] in
  let st' := (allocate ref_backend st 100 CS_ALLOC_HOST false).1 in
  let me := mk_block 4096 0 128 CS_ALLOC_HOST 1 in
  get_block_info ref_backend st' (host_ptr me) = (st', me) ∧
  (fresh_allocation st 100 CS_ALLOC_HOST → ttl me = 0) ∧
  (¬ fresh_allocation st 100 CS_ALLOC_HOST →
     1 ≤ ttl me < TTL_MAX ∧ ∃ b, b ∈ free_list st CS_ALLOC_HOST ∧ me = age b) ∧
  (∀ p it, p ≠ nullptr → allocated_blocks_ st !! p = Some it →
     last (free_list (deallocate ref_backend st p) (mode it)) = Some (set_ttl it 0)).
Proof.
  apply (C9_ttl_reset_on_retire ref_backend
           (run_ops ref_backend empty_pool
              [Acquire 100 CS_ALLOC_HOST false; Release 4096])
           100 CS_ALLOC_HOST false).
  - apply reachable_run_ops, reachable_init.
  - reflexivity.
Defined.

(** Counterexample to C9 as stated: the block handed out again after one
    acquire, release, acquire cycle is recorded in [allocated_blocks_], and
    reported by lookup, with counter 1. *)
Lemma C9_counterexample :
  let st := run_ops ref_backend empty_pool
              [Acquire 100 CS_ALLOC_HOST false; Release 4096;
               Acquire 100 CS_ALLOC_HOST false] in
  reachable ref_backend st ∧
  allocated_blocks_ st !! 4096 = Some (mk_block 4096 0 128 CS_ALLOC_HOST 1) ∧
  ttl (get_block_info ref_backend st 4096).2 = 1.
Proof.
  split; [apply reachable_run_ops, reachable_init|]. vm_compute. by split.
Qed.

(** Witness of C10: release of an address the pool has never seen. *)
Lemma C10_release_unrecognised_witness :
  let st := empty_pool in
  let p := 4096 in
  let me := set_ttl (bft_mem_get_block_info_try ref_backend (calls st) p) 0 in
  let st' := deallocate ref_backend st p in
  allocated_blocks_ st' = allocated_blocks_ st ∧
  calls st' = calls st ∧
  free_list st' (mode me) = free_list st (mode me) ++ [me] ∧
  (∀ m', m' ≠ mode me → free_list st' m' = free_list st m') ∧
  (∀ sz fn,
     (evict_scan (calls st') (free_list st' (mode me))).2
       = (evict_scan (calls st) (free_list st (mode me))).2 ++ [set_ttl me 1] ∧
     (adjusted_size sz = size me →
      Forall (λ b, size b ≠ size me) (free_list st (mode me)) →
      (allocate ref_backend st' sz (mode me) fn).2 = set_ttl me 1)).
Proof.
  apply (C10_release_unrecognised ref_backend empty_pool 4096).
  - discriminate.
  - reflexivity.
Defined.

(** ** Further properties of the pool *)

(** The pointer a deallocation call releases. *)
Definition freed (c : call) : option ptr :=
  match c with
  | bft_mem_free p | cs_cuda_mem_free p | cs_cuda_mem_free_host p => Some p
  | _ => None
  end.

Definition is_free (c : call) : bool := bool_decide (is_Some (freed c)).

(** Number of acquires in a sequence of operations. *)
Definition is_acquire (o : op) : bool :=
  match o with Acquire _ _ _ => true | _ => false end.

Definition n_acquire_ops (os : list op) : nat := length (filter is_acquire os).

Definition all_modes : list cs_alloc_mode_t :=
  [CS_ALLOC_HOST; CS_ALLOC_HOST_DEVICE; CS_ALLOC_HOST_DEVICE_PINNED;
   CS_ALLOC_HOST_DEVICE_SHARED; CS_ALLOC_DEVICE].

(** The retired blocks of a pool, mode by mode. *)
Definition retired_blocks (st : MemoryPool) : list cs_mem_block_t :=
  all_modes ≫= free_list st.

Section PoolExtras.

Context (B : backend).

Lemma host_only_cases m :
  host_only m = match m with
                | CS_ALLOC_HOST | CS_ALLOC_HOST_DEVICE => true
                | _ => false
                end.
Proof. by destruct m. Qed.

Lemma free_block_app tr me fn : free_block tr me fn = tr ++ free_block [] me fn.
Proof.
  unfold free_block. repeat (case_match; simpl); rewrite <- ?app_assoc; simpl;
    rewrite ?app_nil_r; reflexivity.
Qed.

(** The blocks the scan of [allocate] evicts from a free list. *)
Definition expired (l : list cs_mem_block_t) : list cs_mem_block_t :=
  filter (λ b, TTL_MAX ≤ ttl b) (age <$> l).

Lemma evict_scan_fst tr l :
  (evict_scan tr l).1 = tr ++ (expired l ≫= λ b, free_block [] b true).
Proof.
  revert tr. induction l as [|it l IH]; intros tr; cbn [evict_scan].
  - by rewrite app_nil_r.
  - unfold expired. rewrite fmap_cons, filter_cons. fold (age it). fold (expired l).
    case_bool_decide as Hd.
    + rewrite decide_True by done. rewrite IH, bind_cons, app_assoc.
      by rewrite <- free_block_app.
    + rewrite decide_False by done. specialize (IH tr).
      destruct (evict_scan tr l). simpl in *. done.
Qed.

(** Every block an acquire returns has the requested mode and the rounded
    size; for requests up to [SIZE_MAX - 63] the rounded size is the least
    multiple of 64 that holds the request. *)
Theorem acquire_block_shape st sz m fn :
  reachable B st →
  0 ≤ sz ≤ size_max - 64 →
  let me := (allocate B st sz m fn).2 in
  mode me = m ∧ size me = adjusted_size sz ∧
  size me mod 64 = 0 ∧ sz ≤ size me < sz + 64.
Proof.
  intros Hr%reachable_wf Hsz me.
  destruct (allocate_result B st sz m fn Hr) as (Hs & Hm & _). fold me in Hs, Hm.
  split; [done|]. split; [done|]. rewrite Hs. clear -Hsz.
  unfold adjusted_size, size_max in *.
  change (2 ^ 64) with 18446744073709551616 in *.
  rewrite (Z.mod_small (sz + 63)) by lia.
  split; [apply Z.mod_mul; lia|].
  pose proof (Z.div_mod (sz + 63) 64 ltac:(lia)).
  pose proof (Z.mod_pos_bound (sz + 63) 64 ltac:(lia)). lia.
Qed.

(** The rounding is done in [size_t]: a request within 63 bytes of
    [SIZE_MAX] wraps around, and the acquire returns, and records, a block
    of size 0. *)
Theorem acquire_size_wraps st sz m fn :
  size_max - 63 ≤ sz < size_max →
  size (allocate B st sz m fn).2 = 0.
Proof.
  intros Hsz. rewrite allocate_unfold. cbv zeta.
  assert (Hadj : adjusted_size sz = 0).
  { unfold adjusted_size, size_max in *.
    change (2 ^ 64) with 18446744073709551616 in *.
    replace (sz + 63) with ((sz + 63 - 18446744073709551616) + 1 * 18446744073709551616) by lia.
    rewrite Z.mod_add by lia. rewrite Z.mod_small by lia.
    rewrite Z.div_small by lia. done. }
  rewrite Hadj.
  destruct (first_fit _ _) as [[me fl2]|] eqn:E; cbn [snd].
  - by apply first_fit_Some in E as (_ & _ & _ & _ & Hs & _).
  - destruct m, fn; unfold allocate_new_block, host_only; reflexivity.
Qed.

(** What an acquire tells the Block Allocator: it releases the retired
    blocks of the requested mode whose counter reaches [TTL_MAX] in this
    cycle, in list order; every call after these is not a release, and
    there is none when a retired block is reused. *)
Theorem acquire_eviction_trace st sz m fn :
  ∃ ev, calls (allocate B st sz m fn).1
        = calls st ++ (expired (free_list st m) ≫= λ b, free_block [] b true) ++ ev ∧
        Forall (λ c, is_free c = false) ev ∧
        (fresh_allocation st sz m → n_mallocs ev = 1%nat) ∧
        (¬ fresh_allocation st sz m → ev = []).
Proof.
  unfold fresh_allocation. rewrite allocate_unfold. cbv zeta.
  rewrite evict_scan_snd, evict_scan_fst.
  destruct (first_fit _ _) as [[me fl2]|] eqn:E; cbn [fst calls].
  - exists []. rewrite app_nil_r. split; [done|]. split; [constructor|].
    split; [done|done].
  - set (tr1 := calls st ++ _).
    exists (drop (length tr1) (allocate_new_block B tr1 (adjusted_size sz) m fn).1).
    assert (Hd : ∀ ev, drop (length tr1) (tr1 ++ ev) = ev).
    { intros ev. by rewrite drop_app_length. }
    destruct m, fn; unfold allocate_new_block, host_only; simpl;
      rewrite <- ?app_assoc, Hd; unfold tr1; rewrite <- ?app_assoc;
      (split; [reflexivity|]); (split; [repeat constructor|]); (split; [done|done]).
Qed.

(** Release appends, and acquire takes the first match: of two checked-out
    blocks of the same mode and size released one after the other, the next
    acquire of that size returns the one released first; the other stays
    retired, last in the list. *)
Theorem reuse_is_first_released_first st p1 p2 b1 b2 sz m fn :
  p1 ≠ nullptr → p2 ≠ nullptr → p1 ≠ p2 →
  allocated_blocks_ st !! p1 = Some b1 →
  allocated_blocks_ st !! p2 = Some b2 →
  mode b1 = m → mode b2 = m →
  size b1 = adjusted_size sz → size b2 = adjusted_size sz →
  Forall (λ b, size b ≠ adjusted_size sz) (free_list st m) →
  let st' := deallocate B (deallocate B st p1) p2 in
  (allocate B st' sz m fn).2 = set_ttl b1 1 ∧
  last (free_list (allocate B st' sz m fn).1 m) = Some (set_ttl b2 1) ∧
  n_mallocs (calls (allocate B st' sz m fn).1) = n_mallocs (calls st).
Proof.
  intros Hp1 Hp2 Hne H1 H2 Hm1 Hm2 Hs1 Hs2 Hall st'.
  assert (Hfl : free_list st' m = free_list st m ++ [set_ttl b1 0; set_ttl b2 0]
                ∧ calls st' = calls st).
  { unfold st', deallocate. rewrite !bool_decide_eq_false_2 by done. rewrite H1.
    cbn [allocated_blocks_]. rewrite lookup_delete_ne by done. rewrite H2.
    cbn [mode set_ttl calls]. rewrite !free_list_insert. rewrite Hm1, Hm2.
    rewrite !decide_True by done. by rewrite <- app_assoc. }
  destruct Hfl as [Hfl Hcalls].
  rewrite allocate_unfold. cbv zeta. rewrite Hfl, Hcalls.
  rewrite fmap_app, filter_app.
  assert (Hscan : filter (λ b, ttl b < TTL_MAX) (age <$> [set_ttl b1 0; set_ttl b2 0])
                  = [set_ttl b1 1; set_ttl b2 1]) by done.
  rewrite Hscan. rewrite first_fit_app; [| |done].
  - cbn [fst snd calls]. split; [done|]. rewrite free_list_insert.
    rewrite decide_True by done. split; [by rewrite last_snoc|].
    apply evict_scan_n_mallocs.
  - apply Forall_forall. intros b [_ Hb]%list_elem_of_filter.
    apply list_elem_of_fmap in Hb as (b0 & -> & Hb0).
    rewrite Forall_forall in Hall. exact (Hall _ Hb0).
Qed.

(** [free_block] releases every pointer of the block once: the host
    pointer (always in the host-only modes, otherwise when it is not null),
    the device pointer when it is not null -- only once when the two are
    the same address -- and it never hands a null pointer to the accelerator
    runtime. *)
Theorem free_block_releases_once me fn :
  let ps := omap freed (free_block [] me fn) in
  NoDup ps ∧
  (∀ p, p ∈ ps ↔ (p = host_ptr me ∧ (host_only (mode me) = true ∨ p ≠ nullptr))
                 ∨ (p = device_ptr me ∧ p ≠ nullptr)) ∧
  (∀ p, cs_cuda_mem_free p ∈ free_block [] me fn
        ∨ cs_cuda_mem_free_host p ∈ free_block [] me fn → p ≠ nullptr).
Proof.
  destruct me as [h d s m t]. unfold free_block. cbn [host_ptr device_ptr mode].
  rewrite host_only_cases.
  destruct (decide (h = nullptr)) as [Hh|Hh], (decide (d = nullptr)) as [Hd|Hd],
    (decide (d = h)) as [Hdh|Hdh]; try congruence; subst;
    destruct m, fn; cbn;
    rewrite ?(bool_decide_eq_true_2 _ Hh), ?(bool_decide_eq_true_2 _ Hd),
            ?(bool_decide_eq_true_2 _ Hdh);
    rewrite ?(bool_decide_eq_false_2 (_ ≠ _)) by tauto;
    rewrite ?(bool_decide_eq_false_2 (_ = _)) by discriminate;
    rewrite ?(bool_decide_eq_true_2 (_ = _)) by reflexivity; cbn;
    rewrite ?NoDup_cons, ?elem_of_cons, ?elem_of_nil;
    (split; [repeat split; try apply NoDup_nil_2; intuition congruence|]);
    (split; [intros p; rewrite ?elem_of_cons, ?elem_of_nil; intuition congruence|]);
    intros p; rewrite ?elem_of_cons, ?elem_of_nil; intuition congruence.
Qed.

(** Allocation and release go through matching entry points: a freshly
    allocated block of any mode is released by exactly one call, on the
    pointer its allocation returned -- [bft_mem_free] for a block from
    [bft_mem_malloc], [cs_cuda_mem_free_host] for one from
    [cs_cuda_mem_malloc_host], [cs_cuda_mem_free] for one from
    [cs_cuda_mem_malloc_managed] or [cs_cuda_mem_malloc_device]. *)
Theorem fresh_block_release_matches tr sz m fn :
  returns_nonnull B →
  let me := (allocate_new_block B tr sz m fn).2 in
  free_block [] me false =
    match m with
    | CS_ALLOC_HOST | CS_ALLOC_HOST_DEVICE =>
        [bft_mem_free (returned B tr (bft_mem_malloc sz))]
    | CS_ALLOC_HOST_DEVICE_PINNED =>
        [cs_cuda_mem_free_host (returned B tr (cs_cuda_mem_malloc_host sz))]
    | CS_ALLOC_HOST_DEVICE_SHARED =>
        [cs_cuda_mem_free (returned B tr (cs_cuda_mem_malloc_managed sz))]
    | CS_ALLOC_DEVICE =>
        [cs_cuda_mem_free (returned B tr (cs_cuda_mem_malloc_device sz))]
    end.
Proof.
  intros Hnn me. subst me. unfold free_block. rewrite host_only_cases.
  destruct m, fn; unfold allocate_new_block; rewrite host_only_cases; cbn;
    rewrite ?(bool_decide_eq_false_2 (_ = _)) by discriminate;
    rewrite ?(bool_decide_eq_true_2 (_ = _)) by reflexivity; cbn;
    rewrite ?(bool_decide_eq_true_2 (returned _ _ _ ≠ _)) by (by apply Hnn);
    rewrite ?(bool_decide_eq_false_2 (nullptr ≠ _)) by tauto;
    rewrite ?(bool_decide_eq_false_2 (_ ≠ _)) by tauto; cbn; try reflexivity.
Qed.

(** Only acquires reach the allocation and release entry points of the
    Block Allocator, and each makes at most one allocation; release,
    lookup, update and insert_external leave the history of allocation,
    release and registration calls as it is.  (On a miss of
    [allocated_blocks_], release and lookup do question the allocator,
    through [bft_mem_get_block_info_try]: a query, whose answer is a
    parameter of the model and which is no event of the history.) *)
Theorem allocations_bounded_by_acquires os : ∀ st,
  (n_mallocs (calls (run_ops B st os)) ≤ n_mallocs (calls st) + n_acquire_ops os)%nat ∧
  (n_acquire_ops os = 0%nat → calls (run_ops B st os) = calls st).
Proof.
  induction os as [|o os IH]; intros st; [split; [simpl; lia|done]|].
  unfold run_ops. cbn [foldl]. fold (run_ops B (run_op B st o) os).
  destruct (IH (run_op B st o)) as [IH1 IH2].
  unfold n_acquire_ops in *. rewrite filter_cons.
  destruct o as [sz m fn|p|p|p me|me]; cbn [is_acquire run_op].
  - rewrite decide_True by done. cbn [length]. split; [|done].
    destruct (acquire_eviction_trace st sz m fn) as (ev & Hev & _ & Hf & Hr).
    assert (n_mallocs (calls (allocate B st sz m fn).1) ≤ n_mallocs (calls st) + 1)%nat.
    { rewrite Hev, app_assoc, <- evict_scan_fst, n_mallocs_app, evict_scan_n_mallocs.
      destruct (first_fit (adjusted_size sz)
                  (evict_scan (calls st) (free_list st m)).2) eqn:E.
      - rewrite Hr; [change (n_mallocs []) with 0%nat; lia|]. unfold fresh_allocation. by rewrite E.
      - rewrite Hf; [lia|]. done. }
    cbn [run_op] in IH1. lia.
  - rewrite decide_False by (simpl; tauto).
    assert (Hc : calls (deallocate B st p) = calls st).
    { unfold deallocate. case_bool_decide; [done|]. by destruct (_ !! _). }
    cbn [run_op] in IH1, IH2. rewrite Hc in IH1, IH2. done.
  - rewrite decide_False by (simpl; tauto).
    assert (Hc : calls (get_block_info B st p).1 = calls st).
    { unfold get_block_info. destruct (_ !! _); [done|]. by case_match. }
    cbn [run_op] in IH1, IH2. rewrite Hc in IH1, IH2. done.
  - rewrite decide_False by (simpl; tauto). done.
  - rewrite decide_False by (simpl; tauto). done.
Qed.

(** In every state the pool can be brought into, whatever the client calls,
    each retired block sits in the free list of its own mode and its
    counter lies in [0, TTL_MAX). *)
Theorem retired_blocks_bounded st m b :
  reachable B st → b ∈ free_list st m → mode b = m ∧ 0 ≤ ttl b < TTL_MAX.
Proof. intros Hr%reachable_wf. apply Hr. Qed.

Lemma foldl_free_block (l : list cs_mem_block_t) fn : ∀ tr,
  foldl (λ tr me, free_block tr me fn) tr l = tr ++ (l ≫= λ b, free_block [] b fn).
Proof.
  induction l as [|b l IH]; intros tr; cbn [foldl]; [by rewrite app_nil_r|].
  rewrite IH, bind_cons, app_assoc. by rewrite <- free_block_app.
Qed.

Lemma map_to_list_blocks (fb : gmap cs_alloc_mode_t (list cs_mem_block_t)) :
  map_to_list fb ≫= snd ≡ₚ all_modes ≫= (λ m, default [] (fb !! m)).
Proof.
  induction fb as [|i x fb Hi IH] using map_ind.
  - by rewrite map_to_list_empty.
  - rewrite map_to_list_insert by done. rewrite bind_cons. cbn [snd]. rewrite IH.
    unfold all_modes. cbn [mbind list_bind app].
    destruct i; rewrite lookup_insert_eq, !lookup_insert_ne by done;
      rewrite Hi; cbn [default]; rewrite ?app_nil_r; cbn [app]; solve_Permutation.
Qed.

(** The destructor releases the retired blocks, each exactly once and with
    no bookkeeping update, in some order of the modes; blocks still checked
    out are not released. *)
Theorem destructor_releases_retired st :
  ∃ bs, bs ≡ₚ retired_blocks st ∧
        destructor st = calls st ++ (bs ≫= λ b, free_block [] b false).
Proof.
  exists (map_to_list (free_blocks_ st) ≫= snd). split.
  - apply map_to_list_blocks.
  - unfold destructor. generalize (map_to_list (free_blocks_ st)) (calls st).
    intros l. induction l as [|[m bl] l IH]; intros tr; cbn [foldl snd].
    + by rewrite app_nil_r.
    + rewrite IH, foldl_free_block, bind_cons, bind_app, <- app_assoc. done.
Qed.

(** [update_block] replaces the description kept under a pointer: the next
    lookup of the pointer returns the new description, and a release of the
    pointer retires the new description, into the free list of its mode. *)
Theorem update_block_round_trip st p me_new :
  p ≠ nullptr →
  let st1 := update_block st p me_new in
  get_block_info B st1 p = (st1, me_new) ∧
  allocated_blocks_ (deallocate B st1 p) !! p = None ∧
  free_list (deallocate B st1 p) (mode me_new)
    = free_list st (mode me_new) ++ [set_ttl me_new 0].
Proof.
  intros Hp st1. unfold st1, get_block_info, deallocate, update_block.
  cbn [allocated_blocks_ free_blocks_ calls].
  rewrite lookup_insert_eq. rewrite bool_decide_eq_false_2 by done.
  split; [done|]. cbn [allocated_blocks_]. split; [apply lookup_delete_eq|].
  rewrite free_list_insert. by rewrite decide_True.
Qed.

(** A block registered with [insert_block] is found by lookup under its
    host pointer without the bookkeeping being asked; once released it is
    an ordinary retired block, which the next acquire of its mode and of a
    size rounding to its size hands out without allocating. *)
Theorem insert_block_round_trip st me sz fn :
  host_ptr me ≠ nullptr →
  adjusted_size sz = size me →
  Forall (λ b, size b ≠ size me) (free_list st (mode me)) →
  let st1 := insert_block st me in
  let st2 := deallocate B st1 (host_ptr me) in
  get_block_info B st1 (host_ptr me) = (st1, me) ∧
  free_list st2 (mode me) = free_list st (mode me) ++ [set_ttl me 0] ∧
  (allocate B st2 sz (mode me) fn).2 = set_ttl me 1 ∧
  n_mallocs (calls (allocate B st2 sz (mode me) fn).1) = n_mallocs (calls st).
Proof.
  intros Hp Hsz Hall st1 st2.
  assert (Hfl : free_list st2 (mode me) = free_list st (mode me) ++ [set_ttl me 0]).
  { unfold st2, st1, deallocate, insert_block. cbn [allocated_blocks_ free_blocks_ calls].
    rewrite bool_decide_eq_false_2 by done. rewrite lookup_insert_eq.
    rewrite free_list_insert. by rewrite decide_True. }
  assert (Hc : calls st2 = calls st).
  { unfold st2, st1, deallocate, insert_block. cbn [allocated_blocks_ free_blocks_ calls].
    rewrite bool_decide_eq_false_2 by done. by rewrite lookup_insert_eq. }
  split; [|split; [done|]].
  - unfold st1, get_block_info, insert_block. cbn [allocated_blocks_].
    by rewrite lookup_insert_eq.
  - rewrite <- Hc. apply (waiting_reused B st2 (mode me) me 0 sz fn); [|done|done].
    exists (free_list st (mode me)), []. by split.
Qed.

(** [allocate_device] gives a HOST_DEVICE or HOST_DEVICE_PINNED block a
    device pointer and leaves any other block, and the call history, as
    they are.  It records nothing: lookup keeps returning the description
    without the device pointer until the new one is stored with
    [update_block]. *)
Theorem allocate_device_needs_update st me :
  allocated_blocks_ st !! host_ptr me = Some me →
  let r := allocate_device B st me in
  let c := cs_cuda_mem_malloc_device (size me) in
  (mode me = CS_ALLOC_HOST_DEVICE ∨ mode me = CS_ALLOC_HOST_DEVICE_PINNED →
     r.2 = set_device_ptr me (returned B (calls st) c) ∧
     calls r.1 = calls st ++ [c]) ∧
  (mode me ≠ CS_ALLOC_HOST_DEVICE → mode me ≠ CS_ALLOC_HOST_DEVICE_PINNED → r = (st, me)) ∧
  get_block_info B r.1 (host_ptr me) = (r.1, me) ∧
  get_block_info B (update_block r.1 (host_ptr me) r.2) (host_ptr me)
    = (update_block r.1 (host_ptr me) r.2, r.2).
Proof.
  intros Hme r c. subst r. unfold allocate_device.
  destruct (bool_decide (mode me = CS_ALLOC_HOST_DEVICE)) eqn:E1;
    destruct (bool_decide (mode me = CS_ALLOC_HOST_DEVICE_PINNED)) eqn:E2;
    cbn [orb fst snd];
    try apply bool_decide_eq_true in E1; try apply bool_decide_eq_true in E2;
    try apply bool_decide_eq_false in E1; try apply bool_decide_eq_false in E2;
    (split; [intros; try tauto; by split|]); (split; [intros; try tauto; done|]);
    unfold get_block_info, update_block; cbn [allocated_blocks_];
    rewrite Hme, lookup_insert_eq; done.
Qed.

End PoolExtras.

Section ExtraInstances.

(** Witness: a request of 100 bytes on a pool that holds a retired block. *)
Lemma acquire_block_shape_witness :
  let st := run_ops ref_backend empty_pool
              [Acquire 100 CS_ALLOC_HOST false; Release 4096] in
  let me := (allocate ref_backend st 100 CS_ALLOC_HOST true).2 in
  mode me = CS_ALLOC_HOST ∧ size me = adjusted_size 100 ∧
  size me mod 64 = 0 ∧ 100 ≤ size me < 100 + 64.
Proof.
  apply (acquire_block_shape ref_backend
           (run_ops ref_backend empty_pool
              [Acquire 100 CS_ALLOC_HOST false; Release 4096])
           100 CS_ALLOC_HOST true).
  - apply reachable_run_ops, reachable_init.
  - vm_compute. split; discriminate.
Defined.

(** Witness: a request of [SIZE_MAX] bytes. *)
Lemma acquire_size_wraps_witness :
  size (allocate ref_backend empty_pool (size_max - 1) CS_ALLOC_HOST false).2 = 0.
Proof.
  apply (acquire_size_wraps ref_backend empty_pool (size_max - 1) CS_ALLOC_HOST false).
  vm_compute. split; [discriminate|reflexivity].
Defined.

(** Witness: two blocks of 128 bytes, at 4096 and 8192, released in that
    order. *)
Lemma reuse_is_first_released_first_witness :
  let st := run_ops ref_backend empty_pool
              [Acquire 100 CS_ALLOC_HOST false; Acquire 100 CS_ALLOC_HOST false] in
  let b1 := mk_block 4096 0 128 CS_ALLOC_HOST 0 in
  let b2 := mk_block 8192 0 128 CS_ALLOC_HOST 0 in
  let st' := deallocate ref_backend (deallocate ref_backend st 4096) 8192 in
  (allocate ref_backend st' 100 CS_ALLOC_HOST false).2 = set_ttl b1 1 ∧
  last (free_list (allocate ref_backend st' 100 CS_ALLOC_HOST false).1 CS_ALLOC_HOST)
    = Some (set_ttl b2 1) ∧
  n_mallocs (calls (allocate ref_backend st' 100 CS_ALLOC_HOST false).1)
    = n_mallocs (calls st).
Proof.
  apply (reuse_is_first_released_first ref_backend
           (run_ops ref_backend empty_pool
              [Acquire 100 CS_ALLOC_HOST false; Acquire 100 CS_ALLOC_HOST false])
           4096 8192 (mk_block 4096 0 128 CS_ALLOC_HOST 0)
           (mk_block 8192 0 128 CS_ALLOC_HOST 0) 100 CS_ALLOC_HOST false);
    try discriminate; try reflexivity.
  vm_compute. constructor.
Defined.

(** Witness: a fresh HOST_DEVICE_SHARED block on the reference backend. *)
Lemma fresh_block_release_matches_witness :
  let me := (allocate_new_block ref_backend [] 128 CS_ALLOC_HOST_DEVICE_SHARED true).2 in
  free_block [] me false
  = [cs_cuda_mem_free (returned ref_backend [] (cs_cuda_mem_malloc_managed 128))].
Proof.
  apply (fresh_block_release_matches ref_backend [] 128 CS_ALLOC_HOST_DEVICE_SHARED true).
  apply ref_backend_nonnull.
Defined.

(** Witness: the block retired by an acquire followed by a release. *)
Lemma retired_blocks_bounded_witness :
  let b := mk_block 4096 0 128 CS_ALLOC_HOST 0 in
  mode b = CS_ALLOC_HOST ∧ 0 ≤ ttl b < TTL_MAX.
Proof.
  apply (retired_blocks_bounded ref_backend
           (run_ops ref_backend empty_pool
              [Acquire 100 CS_ALLOC_HOST false; Release 4096])
           CS_ALLOC_HOST (mk_block 4096 0 128 CS_ALLOC_HOST 0)).
  - apply reachable_run_ops, reachable_init.
  - vm_compute. by left.
Defined.

(** Witness: the description of the block at 4096 is replaced by one of
    mode HOST_DEVICE carrying a device pointer. *)
Lemma update_block_round_trip_witness :
  let st := (allocate ref_backend empty_pool 100 CS_ALLOC_HOST_DEVICE false).1 in
  let me_new := mk_block 4096 12288 128 CS_ALLOC_HOST_DEVICE 0 in
  let st1 := update_block st 4096 me_new in
  get_block_info ref_backend st1 4096 = (st1, me_new) ∧
  allocated_blocks_ (deallocate ref_backend st1 4096) !! 4096 = None ∧
  free_list (deallocate ref_backend st1 4096) (mode me_new)
    = free_list st (mode me_new) ++ [set_ttl me_new 0].
Proof.
  apply (update_block_round_trip ref_backend
           (allocate ref_backend empty_pool 100 CS_ALLOC_HOST_DEVICE false).1
           4096 (mk_block 4096 12288 128 CS_ALLOC_HOST_DEVICE 0)).
  discriminate.
Defined.

(** Witness: an external block of 256 bytes at address 77. *)
Lemma insert_block_round_trip_witness :
  let me := mk_block 77 0 256 CS_ALLOC_HOST 0 in
  let st1 := insert_block empty_pool me in
  let st2 := deallocate ref_backend st1 (host_ptr me) in
  get_block_info ref_backend st1 (host_ptr me) = (st1, me) ∧
  free_list st2 (mode me) = free_list empty_pool (mode me) ++ [set_ttl me 0] ∧
  (allocate ref_backend st2 200 (mode me) true).2 = set_ttl me 1 ∧
  n_mallocs (calls (allocate ref_backend st2 200 (mode me) true).1)
    = n_mallocs (calls empty_pool).
Proof.
  apply (insert_block_round_trip ref_backend empty_pool
           (mk_block 77 0 256 CS_ALLOC_HOST 0) 200 true).
  - discriminate.
  - reflexivity.
  - vm_compute. constructor.
Defined.

(** Witness: a HOST_DEVICE block acquired on the empty pool. *)
Lemma allocate_device_needs_update_witness :
  let st := (allocate ref_backend empty_pool 100 CS_ALLOC_HOST_DEVICE false).1 in
  let me := mk_block 4096 0 128 CS_ALLOC_HOST_DEVICE 0 in
  let r := allocate_device ref_backend st me in
  let c := cs_cuda_mem_malloc_device (size me) in
  (mode me = CS_ALLOC_HOST_DEVICE ∨ mode me = CS_ALLOC_HOST_DEVICE_PINNED →
     r.2 = set_device_ptr me (returned ref_backend (calls st) c) ∧
     calls r.1 = calls st ++ [c]) ∧
  (mode me ≠ CS_ALLOC_HOST_DEVICE → mode me ≠ CS_ALLOC_HOST_DEVICE_PINNED → r = (st, me)) ∧
  get_block_info ref_backend r.1 (host_ptr me) = (r.1, me) ∧
  get_block_info ref_backend (update_block r.1 (host_ptr me) r.2) (host_ptr me)
    = (update_block r.1 (host_ptr me) r.2, r.2).
Proof.
  apply (allocate_device_needs_update ref_backend
           (allocate ref_backend empty_pool 100 CS_ALLOC_HOST_DEVICE false).1
           (mk_block 4096 0 128 CS_ALLOC_HOST_DEVICE 0)).
  reflexivity.
Defined.

End ExtraInstances.

End MemPool.

(* ===================================================================== *)
(** * Part II: extended neighbourhood ([cs_ext_neighborhood.c])           *)
(* ===================================================================== *)

Module ExtNeighborhood.

(** ** Arrays of [cs_int_t]

    An array is a list of integers, indexed from 0 by an integer.  The
    source never indexes outside an array when the mesh is consistent; the
    model reads 0 and writes nothing there.  [cs_int_t] is a machine
    [int]; the counters and offsets below are bounded by the size of the
    mesh arrays, and are modelled in [Z]. *)
Definition rd (a : list Z) (i : Z) : Z :=
  if decide (0 ≤ i) then default 0 (a !! Z.to_nat i) else 0.

Definition wr (a : list Z) (i : Z) (v : Z) : list Z :=
  if decide (0 ≤ i) then <[Z.to_nat i := v]> a else a.

(** [BFT_MALLOC(_, n, cs_int_t)]: [n] entries of indeterminate content,
    each written before it is read. *)
Definition bft_malloc (n : Z) : list Z := replicate (Z.to_nat n) 0.

(** [for (i = a; i < b; i++)] runs over [range a b]. *)
Definition range (a b : Z) : list Z := seqZ a (b - a).

(** Row [c] of an (index, list) adjacency whose index starts at [first]
    (1 for the Fortran-style numbering, 0 otherwise). *)
Definition csr_row (first : Z) (idx lst : list Z) (c : Z) : list Z :=
  take (Z.to_nat (rd idx (c + 1) - rd idx c)) (drop (Z.to_nat (rd idx c - first)) lst).

(** Modelled from the spec: [cs_mesh_t] and [cs_halo_t] are declared in
    headers that are not among the files embedded here; the records below
    hold the members that [cs_ext_neighborhood.c] reads and writes. *)
Inductive cs_halo_type_t := CS_HALO_STANDARD | CS_HALO_EXTENDED.

#[global] Instance cs_halo_type_eq_dec : EqDecision cs_halo_type_t.
Proof. solve_decision. Defined.

Record cs_halo_t := mk_halo {
  n_elts : cs_halo_type_t → Z;
  index : list Z
}.

Record cs_mesh_t := mk_mesh {
  dim : Z;
  n_cells : Z;
  n_i_faces : Z;
  n_vertices : Z;
  i_face_cells : list Z;
  i_face_vtx_idx : list Z;
  i_face_vtx_lst : list Z;
  halo_type : cs_halo_type_t;
  cell_cells_idx : option (list Z);
  cell_cells_lst : option (list Z)
}.

(** Modelled from the spec: [cs_mesh_quantities_t] is declared in a header
    that is not among the files embedded here; the record holds the two
    members that [redvse] reads, the cell centres and the normals of the
    internal faces, three coordinates each.  [cs_real_t] is [double], an
    IEEE 754 binary64 number. *)
Record cs_mesh_quantities_t := mk_mesh_quantities {
  cell_cen : list float;
  i_face_normal : list float
}.

(** Reading an array of [cs_real_t]. *)
Definition rd_real (a : list float) (i : Z) : float :=
  if decide (0 ≤ i) then default 0%float (a !! Z.to_nat i) else 0%float.

(** ** [_get_cell_i_faces_connectivity] *)

Section CellFaces.

Context (mesh : cs_mesh_t).

(** The counting loop over the internal faces. *)
Definition count_cell_faces (cell_faces_idx : list Z) : list Z :=
  foldl (λ cell_faces_idx i,
    let j1 := rd (i_face_cells mesh) (i * 2) - 1 in
    let j2 := rd (i_face_cells mesh) (i * 2 + 1) - 1 in
    let cell_faces_idx :=
      if decide (j1 < n_cells mesh)
      then wr cell_faces_idx (j1 + 1) (rd cell_faces_idx (j1 + 1) + 1)
      else cell_faces_idx in
    if decide (j2 < n_cells mesh)
    then wr cell_faces_idx (j2 + 1) (rd cell_faces_idx (j2 + 1) + 1)
    else cell_faces_idx)
  cell_faces_idx (range 0 (n_i_faces mesh)).

(** "Build position index". *)
Definition build_position_index (cell_faces_idx : list Z) : list Z :=
  foldl (λ cell_faces_idx j,
    wr cell_faces_idx (j + 1) (rd cell_faces_idx j + rd cell_faces_idx (j + 1)))
  (wr cell_faces_idx 0 1) (range 0 (n_cells mesh)).

(** "Build array of values"; the state is
    [(cell_faces_count, cell_faces_lst)]. *)
Definition fill_cell_faces (cell_faces_idx : list Z) (st : list Z * list Z)
  : list Z * list Z :=
  foldl (λ '(cell_faces_count, cell_faces_lst) i,
    let j1 := rd (i_face_cells mesh) (i * 2) - 1 in
    let j2 := rd (i_face_cells mesh) (i * 2 + 1) - 1 in
    let '(cell_faces_count, cell_faces_lst) :=
      if decide (j1 < n_cells mesh) then
        (wr cell_faces_count j1 (rd cell_faces_count j1 + 1),
         wr cell_faces_lst (rd cell_faces_idx j1 + rd cell_faces_count j1 - 1) (i + 1))
      else (cell_faces_count, cell_faces_lst) in
    if decide (j2 < n_cells mesh) then
      (wr cell_faces_count j2 (rd cell_faces_count j2 + 1),
       wr cell_faces_lst (rd cell_faces_idx j2 + rd cell_faces_count j2 - 1) (- (i + 1)))
    else (cell_faces_count, cell_faces_lst))
  st (range 0 (n_i_faces mesh)).

(** The function returns [(cell_faces_idx, cell_faces_lst)]. *)
Definition _get_cell_i_faces_connectivity : list Z * list Z :=
  let cell_faces_idx := replicate (Z.to_nat (n_cells mesh + 1)) 0 in
  let cell_faces_idx := count_cell_faces cell_faces_idx in
  let cell_faces_idx := build_position_index cell_faces_idx in
  let cell_faces_lst := bft_malloc (rd cell_faces_idx (n_cells mesh) - 1) in
  let cell_faces_count := replicate (Z.to_nat (n_cells mesh)) 0 in
  let '(_, cell_faces_lst) :=
    fill_cell_faces cell_faces_idx (cell_faces_count, cell_faces_lst) in
  (cell_faces_idx, cell_faces_lst).

End CellFaces.

(** ** [_reverse_connectivity_idx], [_reverse_connectivity_lst] and their
       caller [_create_vtx_gcells_connect] *)

Section Reverse.

Context (halo : cs_halo_t) (n_vertices : Z).

(** The bounds [start_idx], [end_idx] of the loop on ghost cells. *)
Definition ghost_bounds (rank_id : Z) : Z * Z :=
  if decide (rank_id = -1) then (0, n_elts halo CS_HALO_EXTENDED)
  else (rd (index halo) (2 * rank_id), rd (index halo) (2 * rank_id + 1)).

(** Returns [(checker, vtx_gcells_idx)]. *)
Definition _reverse_connectivity_idx (rank_id : Z) (checker : list Z)
    (gcell_vtx_idx gcell_vtx_lst : list Z) (vtx_gcells_idx : list Z)
  : list Z * list Z :=
  let vtx_gcells_idx := wr vtx_gcells_idx 0 0 in
  let '(vtx_gcells_idx, checker) :=
    foldl (λ '(vtx_gcells_idx, checker) i,
             (wr vtx_gcells_idx (i + 1) 0, wr checker i (-1)))
          (vtx_gcells_idx, checker) (range 0 n_vertices) in
  let '(start_idx, end_idx) := ghost_bounds rank_id in
  let '(checker, vtx_gcells_idx) :=
    foldl (λ st id,
      foldl (λ '(checker, vtx_gcells_idx) j,
        let vtx_id := rd gcell_vtx_lst j - 1 in
        if decide (rd checker vtx_id ≠ id) then
          (wr checker vtx_id id,
           wr vtx_gcells_idx (vtx_id + 1) (rd vtx_gcells_idx (vtx_id + 1) + 1))
        else (checker, vtx_gcells_idx))
      st (range (rd gcell_vtx_idx id) (rd gcell_vtx_idx (id + 1))))
    (checker, vtx_gcells_idx) (range start_idx end_idx) in
  let vtx_gcells_idx :=
    foldl (λ vtx_gcells_idx i,
             wr vtx_gcells_idx (i + 1) (rd vtx_gcells_idx (i + 1) + rd vtx_gcells_idx i))
          vtx_gcells_idx (range 0 n_vertices) in
  (checker, vtx_gcells_idx).

(** Returns [(counter, checker, vtx_gcells_lst)]. *)
Definition _reverse_connectivity_lst (rank_id : Z) (counter checker : list Z)
    (gcell_vtx_idx gcell_vtx_lst : list Z) (vtx_gcells_idx vtx_gcells_lst : list Z)
  : list Z * list Z * list Z :=
  let '(counter, checker) :=
    foldl (λ '(counter, checker) i, (wr counter i 0, wr checker i (-1)))
          (counter, checker) (range 0 n_vertices) in
  let '(start_idx, end_idx) := ghost_bounds rank_id in
  foldl (λ st id,
    foldl (λ '(counter, checker, vtx_gcells_lst) j,
      let vtx_id := rd gcell_vtx_lst j - 1 in
      if decide (rd checker vtx_id ≠ id) then
        let checker := wr checker vtx_id id in
        let shift := rd vtx_gcells_idx vtx_id + rd counter vtx_id in
        let vtx_gcells_lst := wr vtx_gcells_lst shift id in
        (wr counter vtx_id (rd counter vtx_id + 1), checker, vtx_gcells_lst)
      else (counter, checker, vtx_gcells_lst))
    st (range (rd gcell_vtx_idx id) (rd gcell_vtx_idx (id + 1))))
  (counter, checker, vtx_gcells_lst) (range start_idx end_idx).

(** Returns [(vtx_gcells_idx, vtx_gcells_lst)]. *)
Definition _create_vtx_gcells_connect (gcells_vtx_idx gcells_vtx_lst : list Z)
  : list Z * list Z :=
  let vtx_buffer := bft_malloc (2 * n_vertices) in
  let vtx_counter := take (Z.to_nat n_vertices) vtx_buffer in
  let vtx_checker := drop (Z.to_nat n_vertices) vtx_buffer in
  let vtx_gcells_idx := bft_malloc (n_vertices + 1) in
  let '(vtx_checker, vtx_gcells_idx) :=
    _reverse_connectivity_idx (-1) vtx_checker gcells_vtx_idx gcells_vtx_lst
      vtx_gcells_idx in
  let vtx_gcells_lst := bft_malloc (rd vtx_gcells_idx n_vertices) in
  let '(_, _, vtx_gcells_lst) :=
    _reverse_connectivity_lst (-1) vtx_counter vtx_checker gcells_vtx_idx
      gcells_vtx_lst vtx_gcells_idx vtx_gcells_lst in
  (vtx_gcells_idx, vtx_gcells_lst).

End Reverse.

(** ** [_create_vtx_cells_connect], [_tag_cells] and [redvse] *)

(** [BFT_REALLOC(_, n, cs_int_t)]: the first entries are kept. *)
Definition bft_realloc (a : list Z) (n : Z) : list Z :=
  take (Z.to_nat n) a ++ replicate (Z.to_nat n - length a) 0.

Section Filter.

Context (mesh : cs_mesh_t).

(** Returns [(vtx_cells_idx, vtx_cells_lst)]; the list holds cell numbers
    (from 1), as [i_face_cells] does. *)
Definition _create_vtx_cells_connect : list Z * list Z :=
  let n_vertices := n_vertices mesh in
  let n_faces := n_i_faces mesh in
  let face_vtx_idx := i_face_vtx_idx mesh in
  let face_vtx_lst := i_face_vtx_lst mesh in
  let face_cells := i_face_cells mesh in
  let vtx_cells_estimated_connect_size := 3 * n_vertices in
  let vtx_cells_idx := replicate (Z.to_nat (n_vertices + 1)) 0 in
  let vtx_faces_idx := replicate (Z.to_nat (n_vertices + 1)) 0 in
  (* vtx -> faces connectivity index *)
  let vtx_faces_idx :=
    foldl (λ vtx_faces_idx face_id,
      foldl (λ vtx_faces_idx i,
        let vtx_id := rd face_vtx_lst i - 1 in
        wr vtx_faces_idx (vtx_id + 1) (rd vtx_faces_idx (vtx_id + 1) + 1))
      vtx_faces_idx
      (range (rd face_vtx_idx face_id - 1) (rd face_vtx_idx (face_id + 1) - 1)))
    vtx_faces_idx (range 0 n_faces) in
  let vtx_faces_idx := wr vtx_faces_idx 0 1 in
  let vtx_faces_idx :=
    foldl (λ vtx_faces_idx vtx_id,
      wr vtx_faces_idx (vtx_id + 1)
         (rd vtx_faces_idx (vtx_id + 1) + rd vtx_faces_idx vtx_id))
    vtx_faces_idx (range 0 n_vertices) in
  (* vtx -> faces connectivity list *)
  let vtx_faces_lst := bft_malloc (rd vtx_faces_idx n_vertices - 1) in
  let '(vtx_faces_idx, vtx_faces_lst) :=
    foldl (λ st face_id,
      foldl (λ '(vtx_faces_idx, vtx_faces_lst) i,
        let vtx_id := rd face_vtx_lst i - 1 in
        (wr vtx_faces_idx vtx_id (rd vtx_faces_idx vtx_id + 1),
         wr vtx_faces_lst (rd vtx_faces_idx vtx_id - 1) (face_id + 1)))
      st (range (rd face_vtx_idx face_id - 1) (rd face_vtx_idx (face_id + 1) - 1)))
    (vtx_faces_idx, vtx_faces_lst) (range 0 n_faces) in
  let vtx_faces_idx :=
    foldl (λ vtx_faces_idx vtx_id,
      wr vtx_faces_idx vtx_id (rd vtx_faces_idx (vtx_id - 1)))
    vtx_faces_idx (reverse (range 1 (n_vertices + 1))) in
  let vtx_faces_idx := wr vtx_faces_idx 0 1 in
  (* vertex -> cells connectivity *)
  let vtx_cells_lst := bft_malloc vtx_cells_estimated_connect_size in
  let vtx_cells_idx := wr vtx_cells_idx 0 1 in
  let '(vtx_cells_idx, vtx_cells_lst, vtx_cells_connect_size, _) :=
    foldl (λ '(vtx_cells_idx, vtx_cells_lst, vtx_cells_connect_size, estimated) vtx_id,
      let '(vtx_cells_lst, vtx_cells_connect_size, estimated) :=
        foldl (λ st i,
          let face_id := rd vtx_faces_lst i - 1 in
          foldl (λ '(vtx_cells_lst, vtx_cells_connect_size, estimated) j,
            let cell_num := rd face_cells (2 * face_id + j) in
            let already_seen :=
              existsb (λ idx, bool_decide (cell_num = rd vtx_cells_lst idx))
                      (range (rd vtx_cells_idx vtx_id - 1) vtx_cells_connect_size) in
            if already_seen then (vtx_cells_lst, vtx_cells_connect_size, estimated)
            else
              let '(estimated, vtx_cells_lst) :=
                if decide (vtx_cells_connect_size + 1 > estimated)
                then (estimated * 2, bft_realloc vtx_cells_lst (estimated * 2))
                else (estimated, vtx_cells_lst) in
              (wr vtx_cells_lst vtx_cells_connect_size cell_num,
               vtx_cells_connect_size + 1, estimated))
          st (range 0 2))
        (vtx_cells_lst, vtx_cells_connect_size, estimated)
        (range (rd vtx_faces_idx vtx_id - 1) (rd vtx_faces_idx (vtx_id + 1) - 1)) in
      (wr vtx_cells_idx (vtx_id + 1) (vtx_cells_connect_size + 1),
       vtx_cells_lst, vtx_cells_connect_size, estimated))
    (vtx_cells_idx, vtx_cells_lst, 0, vtx_cells_estimated_connect_size)
    (range 0 n_vertices) in
  let vtx_cells_lst := bft_realloc vtx_cells_lst vtx_cells_connect_size in
  (vtx_cells_idx, vtx_cells_lst).

(** [_tag_cells]: works on [mesh->cell_cells_lst] in place; the model takes
    the two arrays of the cell -> cells connectivity and returns the list. *)
Definition _tag_cells (face_id cell_id : Z) (vtx_cells_idx vtx_cells_lst : list Z)
    (cell_cells_idx cell_cells_lst : list Z) : list Z :=
  let face_vtx_idx := i_face_vtx_idx mesh in
  let face_vtx_lst := i_face_vtx_lst mesh in
  if decide (cell_id < n_cells mesh) then
    foldl (λ cell_cells_lst i,
      let ext_cell_num := rd cell_cells_lst i in
      if decide (ext_cell_num > 0) then
        foldl (λ cell_cells_lst j,
          let vtx_id := rd face_vtx_lst j - 1 in
          foldl (λ cell_cells_lst k,
            let cell_num := rd vtx_cells_lst k in
            if decide (cell_num = ext_cell_num ∧ rd cell_cells_lst i > 0)
            then wr cell_cells_lst i (- rd cell_cells_lst i)
            else cell_cells_lst)
          cell_cells_lst
          (range (rd vtx_cells_idx vtx_id - 1) (rd vtx_cells_idx (vtx_id + 1) - 1)))
        cell_cells_lst
        (range (rd face_vtx_idx face_id - 1) (rd face_vtx_idx (face_id + 1) - 1))
      else cell_cells_lst)
    cell_cells_lst
    (range (rd cell_cells_idx cell_id - 1) (rd cell_cells_idx (cell_id + 1) - 1))
  else cell_cells_lst.

(** The loop "Tag cells to eliminate"; [below_limit face_id] is the
    outcome of the test [cos_ij_fn <= cos_ij_fn_min] on that face (see
    [cos_ij_fn_below]), which reads nothing that the loop writes. *)
Definition tag_faces (below_limit : Z → bool) (vtx_cells_idx vtx_cells_lst : list Z)
    (cell_cells_idx cell_cells_lst : list Z) : list Z :=
  foldl (λ cell_cells_lst face_id,
    let cell_i := rd (i_face_cells mesh) (2 * face_id) - 1 in
    let cell_j := rd (i_face_cells mesh) (2 * face_id + 1) - 1 in
    if below_limit face_id then
      let cell_cells_lst :=
        _tag_cells face_id cell_i vtx_cells_idx vtx_cells_lst cell_cells_idx cell_cells_lst in
      _tag_cells face_id cell_j vtx_cells_idx vtx_cells_lst cell_cells_idx cell_cells_lst
    else cell_cells_lst)
  cell_cells_lst (range 0 (n_i_faces mesh)).

(** "Change all signs". *)
Definition change_signs (cell_cells_idx cell_cells_lst : list Z) : list Z :=
  foldl (λ cell_cells_lst i, wr cell_cells_lst i (- rd cell_cells_lst i))
    cell_cells_lst (range 0 (rd cell_cells_idx (n_cells mesh) - 1)).

(** "Delete negative cells"; the state is
    [(cell_cells_idx, cell_cells_lst, previous_idx, new_idx, n_deleted_cells)]. *)
Definition delete_negative (cell_cells_idx cell_cells_lst : list Z)
  : list Z * list Z * Z * Z * Z :=
  foldl (λ '(cell_cells_idx, cell_cells_lst, previous_idx, new_idx, n_deleted_cells) cell_id,
    let '(cell_cells_lst, new_idx, n_deleted_cells) :=
      foldl (λ '(cell_cells_lst, new_idx, n_deleted_cells) i,
        if decide (rd cell_cells_lst i > 0) then
          let new_idx := new_idx + 1 in
          (wr cell_cells_lst new_idx (rd cell_cells_lst i), new_idx, n_deleted_cells)
        else (cell_cells_lst, new_idx, n_deleted_cells + 1))
      (cell_cells_lst, new_idx, n_deleted_cells)
      (range previous_idx (rd cell_cells_idx (cell_id + 1) - 1)) in
    let previous_idx := rd cell_cells_idx (cell_id + 1) - 1 in
    (wr cell_cells_idx (cell_id + 1) (rd cell_cells_idx (cell_id + 1) - n_deleted_cells),
     cell_cells_lst, previous_idx, new_idx, n_deleted_cells))
  (cell_cells_idx, cell_cells_lst, 0, -1, 0) (range 0 (n_cells mesh)).

(** [CS_LOC_MODULE(vect)] of [redvse]. *)
Definition CS_LOC_MODULE (vect : Z → float) : float :=
  PrimFloat.sqrt (vect 0%Z * vect 0%Z + vect 1%Z * vect 1%Z + vect 2%Z * vect 2%Z)%float.

(** The test [cos_ij_fn <= cos_ij_fn_min] that [redvse] makes on face
    [face_id]; [cos_ij_fn_min] is the value the library function [cos]
    returns for the angle [anomax]. *)
Definition cos_ij_fn_below (mesh_quantities : cs_mesh_quantities_t)
    (cos_ij_fn_min : float) (face_id : Z) : bool :=
  let face_cells := i_face_cells mesh in
  let cell_cen := cell_cen mesh_quantities in
  let cell_i := rd face_cells (2 * face_id) - 1 in
  let cell_j := rd face_cells (2 * face_id + 1) - 1 in
  let v_ij i := (rd_real cell_cen (3 * cell_j + i) - rd_real cell_cen (3 * cell_i + i))%float in
  let face_normal i := rd_real (i_face_normal mesh_quantities) (3 * face_id + i) in
  let dprod :=
    foldl (λ dprod i, (dprod + v_ij i * face_normal i)%float) 0%float (range 0 3) in
  let norm_ij := CS_LOC_MODULE v_ij in
  let face_norm := CS_LOC_MODULE face_normal in
  let cos_ij_fn := (dprod / (norm_ij * face_norm))%float in
  (cos_ij_fn <=? cos_ij_fn_min)%float.

Definition set_cell_cells (idx lst : list Z) : cs_mesh_t :=
  mk_mesh (dim mesh) (n_cells mesh) (n_i_faces mesh) (n_vertices mesh)
    (i_face_cells mesh) (i_face_vtx_idx mesh) (i_face_vtx_lst mesh) (halo_type mesh)
    (Some idx) (Some lst).

(** [redvse]: takes the static [_first_call] and returns it with the mesh. *)
Definition redvse (below_limit : Z → bool) (_first_call : Z) : Z * cs_mesh_t :=
  if decide (_first_call = 0) then
    match cell_cells_lst mesh, cell_cells_idx mesh with
    | Some cell_cells_lst, Some cell_cells_idx =>
        if decide (halo_type mesh = CS_HALO_STANDARD) then (1, mesh)
        else
          let '(vtx_cells_idx, vtx_cells_lst) := _create_vtx_cells_connect in
          let cell_cells_lst :=
            tag_faces below_limit vtx_cells_idx vtx_cells_lst cell_cells_idx cell_cells_lst in
          let cell_cells_lst := change_signs cell_cells_idx cell_cells_lst in
          let '(cell_cells_idx, cell_cells_lst, _, _, _) :=
            delete_negative cell_cells_idx cell_cells_lst in
          let cell_cells_lst :=
            bft_realloc cell_cells_lst (rd cell_cells_idx (n_cells mesh) - 1) in
          (1, set_cell_cells cell_cells_idx cell_cells_lst)
    | _, _ => (1, mesh)
    end
  else (_first_call, mesh).

End Filter.

(** ** [_create_vtx_cells_connect2], [_create_cell_cells_connect] and
       [cs_ext_neighborhood_define] *)

Section Neighborhood.

Context (mesh : cs_mesh_t).

(** [_create_vtx_cells_connect2]: the vertex -> cells connectivity of the
    local cells, from the cell -> internal faces connectivity.  Returns
    [(vtx_cells_idx, vtx_cells_lst)]; the index starts at 0 and the list
    holds cell ids (from 0). *)
Definition _create_vtx_cells_connect2 (cell_i_faces_idx cell_i_faces_lst : list Z)
  : list Z * list Z :=
  let n_cells := n_cells mesh in
  let n_vertices := n_vertices mesh in
  let fac_vtx_idx := i_face_vtx_idx mesh in
  let fac_vtx_lst := i_face_vtx_lst mesh in
  let vtx_buffer := bft_malloc (2 * n_vertices) in
  let vtx_cells_idx := bft_malloc (n_vertices + 1) in
  let vtx_count := take (Z.to_nat n_vertices) vtx_buffer in
  let vtx_tag := drop (Z.to_nat n_vertices) vtx_buffer in
  let vtx_cells_idx := wr vtx_cells_idx 0 0 in
  let '(vtx_cells_idx, vtx_tag, vtx_count) :=
    foldl (λ '(vtx_cells_idx, vtx_tag, vtx_count) i,
             (wr vtx_cells_idx (i + 1) 0, wr vtx_tag i (-1), wr vtx_count i 0))
          (vtx_cells_idx, vtx_tag, vtx_count) (range 0 n_vertices) in
  (* Define index *)
  let '(vtx_tag, vtx_cells_idx) :=
    foldl (λ st cell_id,
      foldl (λ st i,
        let fac_id := Z.abs (rd cell_i_faces_lst (i - 1)) - 1 in
        foldl (λ '(vtx_tag, vtx_cells_idx) i_vtx,
          let vtx_id := rd fac_vtx_lst (i_vtx - 1) - 1 in
          if decide (rd vtx_tag vtx_id ≠ cell_id) then
            (wr vtx_tag vtx_id cell_id,
             wr vtx_cells_idx (vtx_id + 1) (rd vtx_cells_idx (vtx_id + 1) + 1))
          else (vtx_tag, vtx_cells_idx))
        st (range (rd fac_vtx_idx fac_id) (rd fac_vtx_idx (fac_id + 1))))
      st (range (rd cell_i_faces_idx cell_id) (rd cell_i_faces_idx (cell_id + 1))))
    (vtx_tag, vtx_cells_idx) (range 0 n_cells) in
  let '(vtx_cells_idx, vtx_tag) :=
    foldl (λ '(vtx_cells_idx, vtx_tag) i,
             (wr vtx_cells_idx (i + 1) (rd vtx_cells_idx (i + 1) + rd vtx_cells_idx i),
              wr vtx_tag i (-1)))
          (vtx_cells_idx, vtx_tag) (range 0 n_vertices) in
  let vtx_cells_lst := bft_malloc (rd vtx_cells_idx n_vertices) in
  (* Fill list *)
  let '(_, _, vtx_cells_lst) :=
    foldl (λ st cell_id,
      foldl (λ st i,
        let fac_id := Z.abs (rd cell_i_faces_lst (i - 1)) - 1 in
        foldl (λ '(vtx_count, vtx_tag, vtx_cells_lst) i_vtx,
          let vtx_id := rd fac_vtx_lst (i_vtx - 1) - 1 in
          if decide (rd vtx_tag vtx_id ≠ cell_id) then
            let shift := rd vtx_cells_idx vtx_id + rd vtx_count vtx_id in
            let vtx_tag := wr vtx_tag vtx_id cell_id in
            let vtx_cells_lst := wr vtx_cells_lst shift cell_id in
            (wr vtx_count vtx_id (rd vtx_count vtx_id + 1), vtx_tag, vtx_cells_lst)
          else (vtx_count, vtx_tag, vtx_cells_lst))
        st (range (rd fac_vtx_idx fac_id) (rd fac_vtx_idx (fac_id + 1))))
      st (range (rd cell_i_faces_idx cell_id) (rd cell_i_faces_idx (cell_id + 1))))
    (vtx_count, vtx_tag, vtx_cells_lst) (range 0 n_cells) in
  (vtx_cells_idx, vtx_cells_lst).

(** [_create_cell_cells_connect]: the cell -> cells connectivity of the
    extended neighbourhood.  [n_cells_wghosts] is the member
    [n_cells_with_ghosts] of the mesh; the two vertex -> cells
    connectivities are arguments, as in the source.  Returns
    [(cell_cells_idx, cell_cells_lst)]; the index starts at 1 and the list
    holds cell numbers (from 1). *)
Definition _create_cell_cells_connect (n_cells_wghosts : Z)
    (cell_i_faces_idx cell_i_faces_lst : list Z)
    (vtx_gcells_idx vtx_gcells_lst : list Z)
    (vtx_cells_idx vtx_cells_lst : list Z) : list Z * list Z :=
  let n_cells := n_cells mesh in
  let face_cells := i_face_cells mesh in
  let fac_vtx_idx := i_face_vtx_idx mesh in
  let fac_vtx_lst := i_face_vtx_lst mesh in
  let cell_cells_idx := bft_malloc (n_cells + 1) in
  let cell_buffer := bft_malloc (n_cells_wghosts + n_cells) in
  let cell_tag := take (Z.to_nat n_cells_wghosts) cell_buffer in
  let cell_count := drop (Z.to_nat n_cells_wghosts) cell_buffer in
  let cell_cells_idx := wr cell_cells_idx 0 1 in
  let '(cell_cells_idx, cell_count) :=
    foldl (λ '(cell_cells_idx, cell_count) i,
             (wr cell_cells_idx (i + 1) 0, wr cell_count i 0))
          (cell_cells_idx, cell_count) (range 0 n_cells) in
  let cell_tag :=
    foldl (λ cell_tag i, wr cell_tag i (-1)) cell_tag (range 0 n_cells_wghosts) in
  (* Define index *)
  let '(cell_tag, cell_cells_idx) :=
    foldl (λ st i_cel,
      (* First loop on faces to tag cells sharing a face *)
      let st :=
        foldl (λ '(cell_tag, cell_cells_idx) i,
          let fac_id := Z.abs (rd cell_i_faces_lst (i - 1)) - 1 in
          let cell_tag := wr cell_tag (rd face_cells (2 * fac_id) - 1) i_cel in
          let cell_tag := wr cell_tag (rd face_cells (2 * fac_id + 1) - 1) i_cel in
          (cell_tag, cell_cells_idx))
        st (range (rd cell_i_faces_idx i_cel) (rd cell_i_faces_idx (i_cel + 1))) in
      (* Second loop on faces to update index *)
      foldl (λ st i,
        let fac_id := Z.abs (rd cell_i_faces_lst (i - 1)) - 1 in
        foldl (λ st i_vtx,
          let vtx_id := rd fac_vtx_lst (i_vtx - 1) - 1 in
          let st :=
            foldl (λ '(cell_tag, cell_cells_idx) j,
              let cell_id := rd vtx_cells_lst j in
              if decide (rd cell_tag cell_id ≠ i_cel) then
                (wr cell_tag cell_id i_cel,
                 wr cell_cells_idx (i_cel + 1) (rd cell_cells_idx (i_cel + 1) + 1))
              else (cell_tag, cell_cells_idx))
            st (range (rd vtx_cells_idx vtx_id) (rd vtx_cells_idx (vtx_id + 1))) in
          if decide (n_cells_wghosts - n_cells > 0) then
            foldl (λ '(cell_tag, cell_cells_idx) j,
              let cell_id := rd vtx_gcells_lst j + n_cells in
              if decide (rd cell_tag cell_id ≠ i_cel) then
                (wr cell_tag cell_id i_cel,
                 wr cell_cells_idx (i_cel + 1) (rd cell_cells_idx (i_cel + 1) + 1))
              else (cell_tag, cell_cells_idx))
            st (range (rd vtx_gcells_idx vtx_id) (rd vtx_gcells_idx (vtx_id + 1)))
          else st)
        st (range (rd fac_vtx_idx fac_id) (rd fac_vtx_idx (fac_id + 1))))
      st (range (rd cell_i_faces_idx i_cel) (rd cell_i_faces_idx (i_cel + 1))))
    (cell_tag, cell_cells_idx) (range 0 n_cells) in
  (* Create index *)
  let cell_cells_idx :=
    foldl (λ cell_cells_idx i,
             wr cell_cells_idx (i + 1) (rd cell_cells_idx (i + 1) + rd cell_cells_idx i))
          cell_cells_idx (range 0 n_cells) in
  let cell_tag :=
    foldl (λ cell_tag i, wr cell_tag i (-1)) cell_tag (range 0 n_cells_wghosts) in
  let cell_cells_lst := bft_malloc (rd cell_cells_idx n_cells - 1) in
  (* Fill list *)
  let '(_, _, cell_cells_lst) :=
    foldl (λ st i_cel,
      let st :=
        foldl (λ '(cell_count, cell_tag, cell_cells_lst) i,
          let fac_id := Z.abs (rd cell_i_faces_lst (i - 1)) - 1 in
          let cell_tag := wr cell_tag (rd face_cells (2 * fac_id) - 1) i_cel in
          let cell_tag := wr cell_tag (rd face_cells (2 * fac_id + 1) - 1) i_cel in
          (cell_count, cell_tag, cell_cells_lst))
        st (range (rd cell_i_faces_idx i_cel) (rd cell_i_faces_idx (i_cel + 1))) in
      foldl (λ st i,
        let fac_id := Z.abs (rd cell_i_faces_lst (i - 1)) - 1 in
        foldl (λ st i_vtx,
          let vtx_id := rd fac_vtx_lst (i_vtx - 1) - 1 in
          let st :=
            foldl (λ '(cell_count, cell_tag, cell_cells_lst) j,
              let cell_id := rd vtx_cells_lst j in
              if decide (rd cell_tag cell_id ≠ i_cel) then
                let shift := rd cell_cells_idx i_cel - 1 + rd cell_count i_cel in
                let cell_cells_lst := wr cell_cells_lst shift (cell_id + 1) in
                let cell_tag := wr cell_tag cell_id i_cel in
                (wr cell_count i_cel (rd cell_count i_cel + 1), cell_tag, cell_cells_lst)
              else (cell_count, cell_tag, cell_cells_lst))
            st (range (rd vtx_cells_idx vtx_id) (rd vtx_cells_idx (vtx_id + 1))) in
          if decide (n_cells_wghosts - n_cells > 0) then
            foldl (λ '(cell_count, cell_tag, cell_cells_lst) j,
              let cell_id := rd vtx_gcells_lst j + n_cells in
              if decide (rd cell_tag cell_id ≠ i_cel) then
                let shift := rd cell_cells_idx i_cel - 1 + rd cell_count i_cel in
                let cell_cells_lst := wr cell_cells_lst shift (cell_id + 1) in
                let cell_tag := wr cell_tag cell_id i_cel in
                (wr cell_count i_cel (rd cell_count i_cel + 1), cell_tag, cell_cells_lst)
              else (cell_count, cell_tag, cell_cells_lst))
            st (range (rd vtx_gcells_idx vtx_id) (rd vtx_gcells_idx (vtx_id + 1)))
          else st)
        st (range (rd fac_vtx_idx fac_id) (rd fac_vtx_idx (fac_id + 1))))
      st (range (rd cell_i_faces_idx i_cel) (rd cell_i_faces_idx (i_cel + 1))))
    (cell_count, cell_tag, cell_cells_lst) (range 0 n_cells) in
  (cell_cells_idx, cell_cells_lst).

End Neighborhood.

Section Define.

Context (mesh : cs_mesh_t).

(** [cs_ext_neighborhood_define].  [halo] and [n_cells_wghosts] are the
    members [halo] and [n_cells_with_ghosts] of the mesh, [n_g_ghost_cells]
    is the value of [cs_mesh_n_g_ghost_cells(mesh)].  Returns the
    vertex -> ghost cells connectivity stored in the mesh ([None] when the
    members are left as they were) and the mesh with its new cell -> cells
    connectivity. *)
Definition cs_ext_neighborhood_define (halo : cs_halo_t)
    (n_cells_wghosts n_g_ghost_cells : Z) (gcell_vtx_idx gcell_vtx_lst : list Z)
  : option (list Z * list Z) * cs_mesh_t :=
  let '(cell_i_faces_idx, cell_i_faces_lst) := _get_cell_i_faces_connectivity mesh in
  let '(vtx_cells_idx, vtx_cells_lst) :=
    _create_vtx_cells_connect2 mesh cell_i_faces_idx cell_i_faces_lst in
  let vtx_gcells :=
    if decide (n_g_ghost_cells > 0)
    then Some (_create_vtx_gcells_connect halo (n_vertices mesh)
                 gcell_vtx_idx gcell_vtx_lst)
    else None in
  (* NULL pointers when there is no ghost cell *)
  let '(vtx_gcells_idx, vtx_gcells_lst) := default ([], []) vtx_gcells in
  let '(cell_cells_idx, cell_cells_lst) :=
    _create_cell_cells_connect mesh n_cells_wghosts cell_i_faces_idx cell_i_faces_lst
      vtx_gcells_idx vtx_gcells_lst vtx_cells_idx vtx_cells_lst in
  (vtx_gcells, set_cell_cells mesh cell_cells_idx cell_cells_lst).

End Define.

(** ** Facts about arrays and loops *)

Section Arrays.

Lemma length_wr a i v : length (wr a i v) = length a.
Proof. unfold wr. case_decide; [apply length_insert|done]. Qed.

Lemma rd_wr_eq a i v : 0 ≤ i < Z.of_nat (length a) → rd (wr a i v) i = v.
Proof.
  intros H. unfold rd, wr. rewrite !decide_True by lia.
  by rewrite list_lookup_insert_eq by lia.
Qed.

Lemma rd_wr_ne a i j v : i ≠ j → rd (wr a i v) j = rd a j.
Proof.
  intros H. unfold rd, wr. destruct (decide (0 ≤ j)); [|done].
  destruct (decide (0 ≤ i)); [|done].
  by rewrite list_lookup_insert_ne by lia.
Qed.

Lemma rd_wr a i j v :
  0 ≤ i < Z.of_nat (length a) →
  rd (wr a i v) j = if decide (i = j) then v else rd a j.
Proof.
  intros. case_decide; [subst; by apply rd_wr_eq|by apply rd_wr_ne].
Qed.

Lemma rd_lookup a i v :
  0 ≤ i → a !! Z.to_nat i = Some v → rd a i = v.
Proof. intros H E. unfold rd. rewrite decide_True by done. by rewrite E. Qed.

Lemma lookup_rd a i :
  0 ≤ i < Z.of_nat (length a) → a !! Z.to_nat i = Some (rd a i).
Proof.
  intros H. unfold rd. rewrite decide_True by lia.
  destruct (lookup_lt_is_Some_2 a (Z.to_nat i)) as [x ->]; [lia|done].
Qed.

Lemma rd_replicate n x i : 0 ≤ i < Z.of_nat n → rd (replicate n x) i = x.
Proof.
  intros H. apply rd_lookup; [lia|]. apply lookup_replicate_2. lia.
Qed.

Lemma range_nil a b : b ≤ a → range a b = [].
Proof. intros. unfold range. apply seqZ_nil. lia. Qed.

Lemma range_snoc a b : a ≤ b → range a (b + 1) = range a b ++ [b].
Proof.
  intros. unfold range. replace (b + 1 - a) with ((b - a) + 1) by lia.
  rewrite seqZ_app by lia. f_equal. replace (a + (b - a)) with b by lia.
  rewrite seqZ_cons by lia. by rewrite seqZ_nil by lia.
Qed.

Lemma elem_of_range a b k : k ∈ range a b ↔ a ≤ k < b.
Proof. unfold range. rewrite elem_of_seqZ. lia. Qed.

(** Loop invariants for [for (i = a; i < b; i++)]. *)
Lemma foldl_range_ind {T : Type} (P : Z → T → Prop) (f : T → Z → T) s a b :
  a ≤ b →
  P a s →
  (∀ i s, a ≤ i < b → P i s → P (i + 1) (f s i)) →
  P b (foldl f s (range a b)).
Proof.
  intros Hab H0 Hstep.
  assert (H : ∀ n : nat, a + Z.of_nat n ≤ b →
                P (a + Z.of_nat n) (foldl f s (range a (a + Z.of_nat n)))).
  { induction n as [|n IH]; intros Hn.
    - rewrite Z.add_0_r, range_nil by lia. by rewrite Z.add_0_r in *.
    - replace (a + Z.of_nat (S n)) with (a + Z.of_nat n + 1) by lia.
      rewrite range_snoc, foldl_app by lia. simpl. apply Hstep; [lia|].
      apply IH. lia. }
  specialize (H (Z.to_nat (b - a))).
  replace (a + Z.of_nat (Z.to_nat (b - a))) with b in H by lia. apply H. lia.
Qed.

Lemma foldl_bind {T A C : Type} (f : T → C → T) (g : A → list C) (l : list A) : ∀ s,
  foldl f s (l ≫= g) = foldl (λ s x, foldl f s (g x)) s l.
Proof.
  induction l as [|x l IH]; intros s; [done|].
  rewrite bind_cons, foldl_app. apply IH.
Qed.

Lemma fmap_bind_list {A C D : Type} (f : C → D) (g : A → list C) (l : list A) :
  f <$> (l ≫= g) = l ≫= (λ x, f <$> g x).
Proof.
  induction l as [|x l IH]; [done|]. by rewrite !bind_cons, fmap_app, IH.
Qed.

Lemma foldl_ext_in {T A : Type} (f g : T → A → T) (l : list A) : ∀ s,
  (∀ s x, x ∈ l → f s x = g s x) → foldl f s l = foldl g s l.
Proof.
  induction l as [|x l IH]; intros s H; [done|]. simpl.
  rewrite H by by left. apply IH. intros s' y Hy. apply H. by right.
Qed.

End Arrays.

(** ** Filling the rows of an adjacency: counting, position index, values

    The three builders of this file share one scheme.  An event [(r, v)]
    says that value [v] goes to row [r]; the events are counted per row,
    the counts are summed into the index, and each value is stored at the
    position of its row plus the number of values the row holds so far. *)

Section Buckets.

Context (n : Z) (first : Z).

Definition count_event (idx : list Z) (r : Z) : list Z :=
  wr idx (r + 1) (rd idx (r + 1) + 1).

Definition sum_index (idx : list Z) : list Z :=
  foldl (λ idx j, wr idx (j + 1) (rd idx j + rd idx (j + 1))) idx (range 0 n).

Definition place (idx : list Z) (st : list Z * list Z) (e : Z * Z) : list Z * list Z :=
  (wr st.1 e.1 (rd st.1 e.1 + 1), wr st.2 (rd idx e.1 + rd st.1 e.1 - first) e.2).

(** Values sent to row [r], in order. *)
Definition vals (r : Z) (ev : list (Z * Z)) : list Z :=
  (filter (λ e, e.1 = r) ev).*2.

Definition occ (r : Z) (ev : list (Z * Z)) : Z := Z.of_nat (length (vals r ev)).

Lemma vals_app r ev1 ev2 : vals r (ev1 ++ ev2) = vals r ev1 ++ vals r ev2.
Proof. unfold vals. by rewrite filter_app, fmap_app. Qed.

Lemma occ_app r ev1 ev2 : occ r (ev1 ++ ev2) = occ r ev1 + occ r ev2.
Proof. unfold occ. rewrite vals_app, length_app. lia. Qed.

Lemma vals_nil r : vals r [] = [].
Proof. done. Qed.

Lemma occ_nil r : occ r [] = 0.
Proof. done. Qed.

Lemma occ_nonneg r ev : 0 ≤ occ r ev.
Proof. unfold occ. lia. Qed.

Lemma vals_cons r e ev :
  vals r (e :: ev) = if decide (e.1 = r) then e.2 :: vals r ev else vals r ev.
Proof. unfold vals. rewrite filter_cons. by case_decide. Qed.

Lemma occ_cons r e ev :
  occ r (e :: ev) = (if decide (e.1 = r) then 1 else 0) + occ r ev.
Proof. unfold occ. rewrite vals_cons. case_decide; simpl length; lia. Qed.

Definition rows_ok (ev : list (Z * Z)) : Prop := Forall (λ e, 0 ≤ e.1 < n) ev.

(** Counting. *)
Lemma count_events ev : ∀ idx,
  rows_ok ev → Z.of_nat (length idx) = n + 1 →
  let idx' := foldl count_event idx (ev.*1) in
  length idx' = length idx ∧ rd idx' 0 = rd idx 0 ∧
  ∀ r, 0 ≤ r < n → rd idx' (r + 1) = rd idx (r + 1) + occ r ev.
Proof.
  induction ev as [|e ev IH]; intros idx Hok Hlen; cbv zeta.
  - split; [done|]. split; [done|]. intros r _. unfold occ. simpl. lia.
  - inversion Hok as [|? ? He Hev]; subst. rewrite fmap_cons. cbn [foldl].
    assert (Hl0 : length (count_event idx e.1) = length idx)
      by (unfold count_event; by rewrite length_wr).
    assert (Hrd : ∀ j, rd (count_event idx e.1) j
                       = if decide (e.1 + 1 = j) then rd idx j + 1 else rd idx j).
    { intros j. unfold count_event. rewrite rd_wr by lia. by case_decide; subst. }
    destruct (IH (count_event idx e.1) Hev) as (Hl & H0 & Hr); [lia|].
    split; [by rewrite Hl|]. split.
    + rewrite H0, Hrd. rewrite decide_False by lia. done.
    + intros r Hrn. rewrite (Hr r Hrn), occ_cons, Hrd.
      repeat case_decide; lia.
Qed.

(** Summing: consecutive index entries differ by the count of the row. *)
Lemma sum_index_spec (c : list Z) :
  Z.of_nat (length c) = n + 1 → 0 ≤ n →
  let idx := sum_index c in
  length idx = length c ∧ rd idx 0 = rd c 0 ∧
  ∀ k, 0 ≤ k < n → rd idx (k + 1) = rd idx k + rd c (k + 1).
Proof.
  intros Hlen Hn. unfold sum_index. cbv zeta.
  destruct (foldl_range_ind (λ j idx,
    length idx = length c ∧ rd idx 0 = rd c 0 ∧
    (∀ k, 0 ≤ k < j → rd idx (k + 1) = rd idx k + rd c (k + 1)) ∧
    (∀ k, j < k ≤ n → rd idx k = rd c k))
    (λ idx j, wr idx (j + 1) (rd idx j + rd idx (j + 1))) c 0 n Hn)
    as (Hl & H0 & Hlow & _); [| |auto].
  - split; [done|]. split; [done|]. split; [intros; lia|done].
  - intros j idx Hj (Hl & H0 & Hlow & Hhigh). rewrite length_wr.
    split; [done|]. split; [by rewrite rd_wr_ne by lia|]. split.
    + intros k Hk. rewrite !rd_wr by lia.
      destruct (decide (j + 1 = k + 1)) as [E|E].
      * assert (k = j) as -> by lia. rewrite decide_False by lia.
        rewrite (Hhigh (j + 1)) by lia. done.
      * rewrite decide_False by lia. apply Hlow. lia.
    + intros k Hk. rewrite rd_wr_ne by lia. apply Hhigh. lia.
Qed.

Lemma index_mono (idx : list Z) ev :
  (∀ k, 0 ≤ k < n → rd idx (k + 1) = rd idx k + occ k ev) →
  ∀ (d : nat) k, 0 ≤ k → k + Z.of_nat d ≤ n → rd idx k ≤ rd idx (k + Z.of_nat d).
Proof.
  intros H d. induction d as [|d IH]; intros k Hk Hd.
  - by rewrite Z.add_0_r.
  - replace (k + Z.of_nat (S d)) with (k + Z.of_nat d + 1) by lia.
    rewrite H by lia. specialize (IH k Hk ltac:(lia)).
    pose proof (occ_nonneg (k + Z.of_nat d) ev). lia.
Qed.

Lemma index_le (idx : list Z) ev k1 k2 :
  (∀ k, 0 ≤ k < n → rd idx (k + 1) = rd idx k + occ k ev) →
  0 ≤ k1 → k1 ≤ k2 → k2 ≤ n → rd idx k1 ≤ rd idx k2.
Proof.
  intros H ? ? ?. replace k2 with (k1 + Z.of_nat (Z.to_nat (k2 - k1))) by lia.
  eapply index_mono; [done|lia|lia].
Qed.

(** State of the filling loop once the events of [done_] are placed. *)
Definition filled (idx : list Z) (len : nat) (done_ : list (Z * Z))
    (st : list Z * list Z) : Prop :=
  Z.of_nat (length st.1) = n ∧ length st.2 = len ∧
  (∀ r, 0 ≤ r < n → rd st.1 r = occ r done_) ∧
  (∀ r k v, 0 ≤ r < n → vals r done_ !! k = Some v →
     st.2 !! (Z.to_nat (rd idx r - first) + k)%nat = Some v).

Lemma place_events (idx : list Z) (len : nat) ev :
  rows_ok ev →
  rd idx 0 = first →
  (∀ k, 0 ≤ k < n → rd idx (k + 1) = rd idx k + occ k ev) →
  Z.of_nat len = rd idx n - first →
  ∀ todo done_ st,
    done_ ++ todo = ev → filled idx len done_ st →
    filled idx len ev (foldl (place idx) st todo).
Proof.
  intros Hok Hfirst Hidx Hlen todo.
  induction todo as [|e todo IH]; intros done_ st Hev Hfilled; simpl.
  - rewrite app_nil_r in Hev. by subst.
  - apply (IH (done_ ++ [e])); [by rewrite <- app_assoc|].
    destruct Hfilled as (Hc & Hl & Hcount & Hvals).
    assert (He : 0 ≤ e.1 < n).
    { unfold rows_ok in Hok. rewrite Forall_forall in Hok. apply Hok.
      rewrite <- Hev. rewrite elem_of_app, elem_of_cons. tauto. }
    assert (Hocc : ∀ r, occ r ev = occ r done_ + (if decide (e.1 = r) then 1 else 0)
                                   + occ r todo).
    { intros r. rewrite <- Hev, occ_app, occ_cons. lia. }
    assert (Hle : ∀ r, 0 ≤ r → r ≤ n → first ≤ rd idx r).
    { intros r ? ?. rewrite <- Hfirst. eapply index_le; [done|lia|lia|lia]. }
    pose proof (Hle e.1 ltac:(lia) ltac:(lia)) as Hle1.
    set (p := rd idx e.1 + rd st.1 e.1 - first).
    assert (Hp : 0 ≤ p ∧ p < rd idx (e.1 + 1) - first).
    { unfold p. rewrite (Hcount _ He), (Hidx _ He), (Hocc e.1).
      rewrite decide_True by done.
      pose proof (occ_nonneg e.1 done_). pose proof (occ_nonneg e.1 todo). lia. }
    assert (Hpl : p < Z.of_nat (length st.2)).
    { rewrite Hl, Hlen. pose proof (index_le idx ev (e.1 + 1) n Hidx). lia. }
    unfold filled, place. cbn [fst snd]. rewrite !length_wr. fold p.
    split; [done|]. split; [done|]. split.
    + intros r Hr. rewrite rd_wr by lia. rewrite occ_app, occ_cons, occ_nil.
      rewrite (Hcount _ He).
      case_decide; [subst r|]; [lia|]. rewrite (Hcount _ Hr). lia.
    + intros r k v Hr. rewrite vals_app, vals_cons, vals_nil.
      destruct (decide (e.1 = r)) as [<-|Hne].
      * intros [[_ Hin]|[-> <-]]%lookup_snoc_Some.
        -- unfold wr. rewrite decide_True by lia.
           rewrite list_lookup_insert_ne; [by apply Hvals|].
           apply lookup_lt_Some in Hin. unfold p. rewrite (Hcount _ He).
           unfold occ. lia.
        -- unfold wr. rewrite decide_True by lia.
           replace (Z.to_nat (rd idx e.1 - first) + length (vals e.1 done_))%nat
             with (Z.to_nat p).
           { apply list_lookup_insert_eq. lia. }
           unfold p. rewrite (Hcount _ He). unfold occ. lia.
      * rewrite app_nil_r. intros Hin. unfold wr. rewrite decide_True by lia.
        rewrite list_lookup_insert_ne; [by apply Hvals|].
        apply lookup_lt_Some in Hin.
        assert (Hk : Z.of_nat k < occ r done_) by (unfold occ; lia).
        pose proof (Hle r ltac:(lia) ltac:(lia)).
        pose proof (occ_nonneg r todo).
        assert (Hrow : rd idx r - first + Z.of_nat k < rd idx (r + 1) - first).
        { rewrite (Hidx _ Hr), (Hocc r). rewrite decide_False by done. lia. }
        destruct (decide (r < e.1)).
        -- pose proof (index_le idx ev (r + 1) e.1 Hidx). unfold p.
           rewrite (Hcount _ He). pose proof (occ_nonneg e.1 done_). lia.
        -- pose proof (index_le idx ev (e.1 + 1) r Hidx). lia.
Qed.

(** The rows of the adjacency built by the three passes. *)
Lemma buckets_rows (idx lst count0 lst0 : list Z) ev :
  0 ≤ n → rows_ok ev →
  rd idx 0 = first →
  (∀ k, 0 ≤ k < n → rd idx (k + 1) = rd idx k + occ k ev) →
  Z.of_nat (length lst0) = rd idx n - first →
  Z.of_nat (length count0) = n →
  (∀ r, 0 ≤ r < n → rd count0 r = 0) →
  (foldl (place idx) (count0, lst0) ev).2 = lst →
  Z.of_nat (length lst) = rd idx n - first ∧
  ∀ r, 0 ≤ r < n → csr_row first idx lst r = vals r ev.
Proof.
  intros Hn Hok Hfirst Hidx Hl0 Hc0 Hz <-.
  destruct (place_events idx (length lst0) ev Hok Hfirst Hidx
              ltac:(lia) ev [] (count0, lst0) eq_refl) as (_ & Hl & _ & Hvals).
  { split; [done|]. split; [done|].
    split; [|intros r k v _ H; rewrite vals_nil in H; by rewrite lookup_nil in H].
    intros r Hr. cbn. by rewrite Hz, occ_nil. }
  split; [lia|]. intros r Hr. unfold csr_row.
  rewrite (Hidx _ Hr). replace (rd idx r + occ r ev - rd idx r) with (occ r ev) by lia.
  apply list_eq. intros k.
  destruct (vals r ev !! k) as [v|] eqn:E.
  - rewrite lookup_take_lt by (apply lookup_lt_Some in E; unfold occ; lia).
    rewrite lookup_drop. by apply Hvals.
  - apply lookup_ge_None in E. apply lookup_ge_None.
    rewrite length_take. unfold occ. lia.
Qed.

End Buckets.

(** ** The cell -> internal faces connectivity (C6) *)

Section CellFacesProofs.

Context (mesh : cs_mesh_t).

(** What face [i] (0-based) sends to the rows: its number [i + 1] to the
    row of its first cell, [-(i + 1)] to the row of its second cell, each
    only when that cell is a local one. *)
Definition face_events (i : Z) : list (Z * Z) :=
  let j1 := rd (i_face_cells mesh) (i * 2) - 1 in
  let j2 := rd (i_face_cells mesh) (i * 2 + 1) - 1 in
  (if decide (j1 < n_cells mesh) then [(j1, i + 1)] else []) ++
  (if decide (j2 < n_cells mesh) then [(j2, - (i + 1))] else []).

Definition cell_face_events : list (Z * Z) :=
  range 0 (n_i_faces mesh) ≫= face_events.

(** The expected row of cell [c]: the faces adjoining [c], in increasing
    face order, signed by the side [c] is on. *)
Definition cell_faces_spec (c : Z) : list Z :=
  range 0 (n_i_faces mesh) ≫= λ i,
    (if decide (rd (i_face_cells mesh) (i * 2) - 1 = c) then [i + 1] else []) ++
    (if decide (rd (i_face_cells mesh) (i * 2 + 1) - 1 = c) then [- (i + 1)] else []).

(** Cell numbers of the internal faces start at 1. *)
Definition face_cells_ok : Prop :=
  ∀ i, 0 ≤ i < n_i_faces mesh →
    1 ≤ rd (i_face_cells mesh) (i * 2) ∧ 1 ≤ rd (i_face_cells mesh) (i * 2 + 1).

Lemma count_cell_faces_events idx :
  count_cell_faces mesh idx = foldl count_event idx (cell_face_events.*1).
Proof.
  unfold count_cell_faces, cell_face_events.
  rewrite fmap_bind_list, foldl_bind. apply foldl_ext_in.
  intros s i _. unfold face_events, count_event. cbv zeta.
  repeat case_decide; reflexivity.
Qed.

Lemma fill_cell_faces_events idx st :
  fill_cell_faces mesh idx st = foldl (place 1 idx) st cell_face_events.
Proof.
  unfold fill_cell_faces, cell_face_events.
  rewrite foldl_bind. apply foldl_ext_in.
  intros [count lst] i _. unfold face_events, place. cbv zeta.
  repeat case_decide; reflexivity.
Qed.

Lemma cell_face_events_ok : face_cells_ok → rows_ok (n_cells mesh) cell_face_events.
Proof.
  intros Hok. unfold rows_ok, cell_face_events. apply Forall_forall.
  intros e (i & He & Hi%elem_of_range)%list_elem_of_bind.
  destruct (Hok i Hi) as [H1 H2]. unfold face_events in He. cbv zeta in He.
  apply elem_of_app in He as [He|He]; case_decide;
    try (by apply elem_of_nil in He);
    apply list_elem_of_singleton in He; subst e; simpl; lia.
Qed.

Lemma vals_bind {A} r (g : A → list (Z * Z)) (l : list A) :
  vals r (l ≫= g) = l ≫= (λ x, vals r (g x)).
Proof.
  induction l as [|x l IH]; [done|].
  by rewrite !bind_cons, vals_app, IH.
Qed.

Lemma vals_cell_face_events c :
  c < n_cells mesh → vals c cell_face_events = cell_faces_spec c.
Proof.
  intros Hc. unfold cell_face_events, cell_faces_spec. rewrite vals_bind.
  apply list_bind_ext; [|done]. intros i. unfold face_events. cbv zeta.
  rewrite vals_app.
  repeat case_decide; rewrite ?vals_cons, ?vals_nil; simpl;
    repeat case_decide; try reflexivity; lia.
Qed.

(** C6 (as amended). In the cell -> internal faces connectivity, the row of
    a local cell [c] (0 <= c < n_cells) lists, in increasing face order,
    [+(f + 1)] for every internal face [f] whose first cell is [c] and
    [-(f + 1)] for every internal face whose second cell is [c]: a face
    enters the row of an adjoining cell when that cell's own index is below
    the local cell count, whatever the index of the opposing cell, and the
    list holds nothing but these rows, so that no ghost cell has a row. *)
Theorem C6_cell_faces_rows :
  0 ≤ n_cells mesh →
  face_cells_ok →
  let idx := (_get_cell_i_faces_connectivity mesh).1 in
  let lst := (_get_cell_i_faces_connectivity mesh).2 in
  rd idx 0 = 1 ∧
  Z.of_nat (length lst) = rd idx (n_cells mesh) - 1 ∧
  ∀ c, 0 ≤ c < n_cells mesh → csr_row 1 idx lst c = cell_faces_spec c.
Proof.
  intros Hn Hok. unfold _get_cell_i_faces_connectivity. cbv zeta.
  rewrite count_cell_faces_events.
  set (c0 := foldl count_event _ _).
  set (idx := build_position_index mesh c0).
  rewrite fill_cell_faces_events.
  destruct (foldl (place 1 idx) _ _) as [count lst] eqn:E. cbn [fst snd].
  pose proof (cell_face_events_ok Hok) as Hev.
  destruct (count_events (n_cells mesh) cell_face_events
              (replicate (Z.to_nat (n_cells mesh + 1)) 0) Hev) as (Hl0 & _ & Hc0).
  { rewrite length_replicate. lia. }
  fold c0 in Hl0, Hc0. rewrite length_replicate in Hl0.
  assert (Hidx : rd idx 0 = 1 ∧
            ∀ k, 0 ≤ k < n_cells mesh → rd idx (k + 1) = rd idx k + occ k cell_face_events).
  { destruct (sum_index_spec (n_cells mesh) (wr c0 0 1)) as (_ & H0 & Hk).
    { rewrite length_wr. lia. }
    { done. }
    unfold idx, build_position_index. fold (sum_index (n_cells mesh) (wr c0 0 1)).
    split; [rewrite H0; apply rd_wr_eq; lia|].
    intros k Hk'. rewrite (Hk k Hk'), rd_wr_ne by lia. rewrite (Hc0 k Hk').
    rewrite rd_replicate by lia. lia. }
  destruct Hidx as [Hfirst Hidx].
  assert (Hge : 1 ≤ rd idx (n_cells mesh)).
  { rewrite <- Hfirst. eapply index_le; [done|lia|lia|lia]. }
  destruct (buckets_rows (n_cells mesh) 1 idx lst
              (replicate (Z.to_nat (n_cells mesh)) 0)
              (bft_malloc (rd idx (n_cells mesh) - 1)) cell_face_events)
    as [Hlen Hrows]; try done.
  { unfold bft_malloc. rewrite length_replicate. lia. }
  { rewrite length_replicate. lia. }
  { intros r Hr. apply rd_replicate. lia. }
  { by rewrite E. }
  split; [done|]. split; [done|].
  intros c Hc. rewrite Hrows by done. apply vals_cell_face_events. lia.
Qed.

End CellFacesProofs.

(** Witness of C6: two local cells and one ghost cell, three faces
    (1,2), (2,3), (2,1). *)
Lemma C6_cell_faces_rows_witness :
  let mesh := mk_mesh 3 2 3 0 [1; 2; 2; 3; 2; 1] [] [] CS_HALO_EXTENDED None None in
  let idx := (_get_cell_i_faces_connectivity mesh).1 in
  let lst := (_get_cell_i_faces_connectivity mesh).2 in
  rd idx 0 = 1 ∧
  Z.of_nat (length lst) = rd idx (n_cells mesh) - 1 ∧
  ∀ c, 0 ≤ c < n_cells mesh → csr_row 1 idx lst c = cell_faces_spec mesh c.
Proof.
  apply (C6_cell_faces_rows
           (mk_mesh 3 2 3 0 [1; 2; 2; 3; 2; 1] [] [] CS_HALO_EXTENDED None None)).
  - simpl. lia.
  - intros i Hi. simpl in Hi.
    assert (i = 0 ∨ i = 1 ∨ i = 2) as [->|[->| ->]] by lia; vm_compute; split; discriminate.
Defined.

(** Counterexample to C6 as stated: one local cell, and one face between
    it and a ghost cell.  The opposing cell index, 1, is not below the
    local cell count, 1, yet the face is listed in the row of cell 0. *)
Lemma C6_counterexample :
  let mesh := mk_mesh 3 1 1 0 [1; 2] [] [] CS_HALO_EXTENDED None None in
  let j2 := rd (i_face_cells mesh) 1 - 1 in
  ¬ (j2 < n_cells mesh) ∧
  _get_cell_i_faces_connectivity mesh = ([1; 2], [1]) ∧
  csr_row 1 (_get_cell_i_faces_connectivity mesh).1
            (_get_cell_i_faces_connectivity mesh).2 0 = [1].
Proof. vm_compute. split; [discriminate|]. by split. Qed.


(** ** Reversal of the ghost cell -> vertex connectivity (C4) *)

Section CheckerDedup.

(** A step guarded by the [checker] array: pair [(id, v)] acts only when
    [checker[v]] is not [id], and then marks [v] with [id]. *)
Definition guarded {T : Type} (act : T → Z * Z → T) (st : list Z * T) (p : Z * Z)
  : list Z * T :=
  if decide (rd st.1 p.2 ≠ p.1) then (wr st.1 p.2 p.1, act st.2 p) else st.

(** The pairs that act, and the checker they leave. *)
Fixpoint fired (checker : list Z) (ps : list (Z * Z)) : list (Z * Z) :=
  match ps with
  | [] => []
  | p :: ps' =>
      if decide (rd checker p.2 ≠ p.1) then p :: fired (wr checker p.2 p.1) ps'
      else fired checker ps'
  end.

Fixpoint final_checker (checker : list Z) (ps : list (Z * Z)) : list Z :=
  match ps with
  | [] => checker
  | p :: ps' =>
      if decide (rd checker p.2 ≠ p.1) then final_checker (wr checker p.2 p.1) ps'
      else final_checker checker ps'
  end.

Lemma guarded_fold {T : Type} (act : T → Z * Z → T) ps : ∀ checker t,
  foldl (guarded act) (checker, t) ps
  = (final_checker checker ps, foldl act t (fired checker ps)).
Proof.
  induction ps as [|p ps IH]; intros checker t; [done|].
  cbn [foldl fired final_checker]. unfold guarded at 2. cbn [fst snd].
  case_decide; by rewrite IH.
Qed.

(** Source ids never decrease along the list. *)
Fixpoint nondecr (ps : list (Z * Z)) : Prop :=
  match ps with
  | [] => True
  | p :: ps' => Forall (λ q, p.1 ≤ q.1) ps' ∧ nondecr ps'
  end.

Lemma nondecr_app ps1 ps2 :
  nondecr ps1 → nondecr ps2 →
  (∀ p q, p ∈ ps1 → q ∈ ps2 → p.1 ≤ q.1) →
  nondecr (ps1 ++ ps2).
Proof.
  induction ps1 as [|p ps1 IH]; intros H1 H2 H12; [done|].
  destruct H1 as [Hp H1]. simpl. split.
  - apply Forall_app. split; [done|]. apply Forall_forall. intros q Hq.
    apply H12; [by left|done].
  - apply IH; [done|done|]. intros p' q Hp' Hq. apply H12; [by right|done].
Qed.

Context (n : Z).

(** [checker[v]] is -1 while no pair with target [v] has been seen, and
    otherwise the largest source seen with target [v]. *)
Definition checker_inv (checker : list Z) (seen : list (Z * Z)) : Prop :=
  ∀ v, 0 ≤ v < n →
    (rd checker v = -1 ∧ ∀ id, (id, v) ∉ seen) ∨
    ((rd checker v, v) ∈ seen ∧ ∀ id, (id, v) ∈ seen → id ≤ rd checker v).

Definition pairs_ok (ps : list (Z * Z)) : Prop :=
  Forall (λ p, 0 ≤ p.1 ∧ 0 ≤ p.2 < n) ps.

Lemma fired_spec ps : ∀ seen checker,
  Z.of_nat (length checker) = n →
  checker_inv checker seen →
  (∀ p q, p ∈ seen → q ∈ ps → p.1 ≤ q.1) →
  nondecr ps → pairs_ok ps →
  NoDup (fired checker ps) ∧
  ∀ q, q ∈ fired checker ps ↔ q ∈ ps ∧ q ∉ seen.
Proof.
  induction ps as [|[id v] ps IH]; intros seen checker Hlen Hinv Hle Hnd Hok.
  - simpl. split; [apply NoDup_nil_2|]. intros q. rewrite elem_of_nil. tauto.
  - destruct Hnd as [Hhead Hnd]. inversion Hok as [|? ? [Hid Hv] Hok']; subst.
    simpl in Hid, Hv. cbn [fired fst snd]. case_decide as Hck.
    + assert (Hnew : (id, v) ∉ seen).
      { intros Hin. destruct (Hinv v Hv) as [[_ Hnone]|[Hmax Hall]].
        - by apply (Hnone id).
        - apply Hck. pose proof (Hall _ Hin).
          pose proof (Hle _ (id, v) Hmax ltac:(by left)). simpl in *. lia. }
      destruct (IH ((id, v) :: seen) (wr checker v id)) as [Hnodup Hmem];
        [by rewrite length_wr| | |done|done|].
      * intros v' Hv'. destruct (decide (v' = v)) as [->|Hne].
        -- right. rewrite rd_wr_eq by lia. split; [by left|].
           intros id' [E|Hin]%elem_of_cons; [injection E as ->; lia|].
           apply (Hle _ (id, v) Hin). by left.
        -- rewrite rd_wr_ne by done.
           destruct (Hinv v' Hv') as [[H1 Hnone]|[Hmax Hall]].
           ++ left. split; [done|]. intros id' [E|Hin]%elem_of_cons; [congruence|].
              by apply (Hnone id').
           ++ right. split; [by right|].
              intros id' [E|Hin]%elem_of_cons; [congruence|]. by apply Hall.
      * intros p q [->|Hp]%elem_of_cons Hq.
        -- rewrite Forall_forall in Hhead. by apply Hhead.
        -- apply Hle; [done|by right].
      * split.
        -- apply NoDup_cons. split; [|done]. rewrite Hmem. intros [_ Hn].
           apply Hn. by left.
        -- intros q. rewrite !elem_of_cons, Hmem, elem_of_cons.
           destruct (decide (q = (id, v))) as [->|Hq]; tauto.
    + assert (Hold : (id, v) ∈ seen).
      { destruct (Hinv v Hv) as [[H1 _]|[Hmax _]]; [lia|].
        by rewrite Hck in Hmax. }
      destruct (IH seen checker) as [Hnodup Hmem]; [done|done| |done|done|].
      * intros p q Hp Hq. apply Hle; [done|by right].
      * split; [done|]. intros q. rewrite Hmem, elem_of_cons.
        split; [tauto|]. intros [[->|Hq] Hn]; [done|tauto].
Qed.

Lemma fired_fresh ps :
  nondecr ps → pairs_ok ps → 0 ≤ n →
  NoDup (fired (replicate (Z.to_nat n) (-1)) ps) ∧
  ∀ q, q ∈ fired (replicate (Z.to_nat n) (-1)) ps ↔ q ∈ ps.
Proof.
  intros Hnd Hok Hn.
  destruct (fired_spec ps [] (replicate (Z.to_nat n) (-1))) as [H1 H2]; try done.
  - rewrite length_replicate. lia.
  - intros v Hv. left. split; [apply rd_replicate; lia|]. intros id. apply not_elem_of_nil.
  - intros p q Hp. by apply elem_of_nil in Hp.
  - split; [done|]. intros q. rewrite H2. split; [tauto|].
    intros Hq. split; [done|apply not_elem_of_nil].
Qed.

End CheckerDedup.

Section ReverseProofs.

Lemma array_ext (a b : list Z) :
  length a = length b →
  (∀ k, 0 ≤ k < Z.of_nat (length a) → rd a k = rd b k) →
  a = b.
Proof.
  intros Hl H. apply list_eq. intros i.
  destruct (decide (i < length a)%nat) as [Hi|Hi].
  - rewrite <- (Nat2Z.id i).
    rewrite (lookup_rd a (Z.of_nat i)), (lookup_rd b (Z.of_nat i)) by lia.
    f_equal. apply H. lia.
  - rewrite !lookup_ge_None_2 by lia. done.
Qed.

Lemma foldl_pair {S1 S2 A : Type} (f : S1 → A → S1) (g : S2 → A → S2) (l : list A) :
  ∀ a b, foldl (λ '(a, b) i, (f a i, g b i)) (a, b) l = (foldl f a l, foldl g b l).
Proof. induction l as [|x l IH]; intros a b; [done|]. simpl. apply IH. Qed.

Lemma foldl_morph {S1 S2 A : Type} (h : S1 → S2) (f : S1 → A → S1) (g : S2 → A → S2)
    (l : list A) :
  (∀ s x, h (f s x) = g (h s) x) → ∀ s, h (foldl f s l) = foldl g (h s) l.
Proof.
  intros H. induction l as [|x l IH]; intros s; [done|]. simpl. by rewrite IH, H.
Qed.

(** An initialisation loop [for (i = 0; i < m; i++) a[i + off] = x]. *)
Lemma fill_const (a : list Z) off x m :
  0 ≤ off → 0 ≤ m → off + m ≤ Z.of_nat (length a) →
  let a' := foldl (λ a i, wr a (i + off) x) a (range 0 m) in
  length a' = length a ∧
  ∀ k, rd a' k = if decide (off ≤ k < off + m) then x else rd a k.
Proof.
  intros Hoff Hm Hlen. cbv zeta.
  apply (foldl_range_ind (λ j a',
    length a' = length a ∧
    ∀ k, rd a' k = if decide (off ≤ k < off + j) then x else rd a k)
    (λ a i, wr a (i + off) x) a 0 m Hm).
  - split; [done|]. intros k. by rewrite decide_False by lia.
  - intros j a' Hj [Hl Hrd]. rewrite length_wr. split; [done|].
    intros k. rewrite rd_wr by lia. rewrite Hrd. repeat case_decide; try done; lia.
Qed.

Context (halo : cs_halo_t) (n_vertices : Z).
Context (gcell_vtx_idx gcell_vtx_lst : list Z).

(** The forward adjacency as (ghost cell, vertex) pairs, in the order the
    two passes read them; vertices are numbered from 0 here. *)
Definition ghost_pairs (start_idx end_idx : Z) : list (Z * Z) :=
  range start_idx end_idx ≫= λ id,
    (λ j, (id, rd gcell_vtx_lst j - 1))
      <$> range (rd gcell_vtx_idx id) (rd gcell_vtx_idx (id + 1)).

(** A fired pair [(id, v)] sends value [id] to row [v]. *)
Definition rev_events (F : list (Z * Z)) : list (Z * Z) := (λ p, (p.2, p.1)) <$> F.

Lemma ghost_pairs_nondecr (k : nat) : ∀ a,
  nondecr (ghost_pairs a (a + Z.of_nat k)).
Proof.
  unfold ghost_pairs, range.
  induction k as [|k IH]; intros a.
  - rewrite seqZ_nil by lia. done.
  - rewrite seqZ_cons by lia. rewrite bind_cons. apply nondecr_app.
    + generalize (seqZ (rd gcell_vtx_idx a)
                    (rd gcell_vtx_idx (a + 1) - rd gcell_vtx_idx a)).
      intros l. induction l as [|j l IHl]; [done|]. rewrite fmap_cons. split; [|done].
      apply Forall_forall. intros q (j' & -> & _)%list_elem_of_fmap. done.
    + specialize (IH (a + 1)).
      replace (Z.pred (a + Z.of_nat (S k) - a)) with (a + 1 + Z.of_nat k - (a + 1)) by lia.
      apply IH.
    + intros p q (j & -> & _)%list_elem_of_fmap
        (id & (j' & -> & _)%list_elem_of_fmap & Hid%elem_of_seqZ)%list_elem_of_bind.
      simpl. lia.
Qed.

Lemma elem_of_ghost_pairs s e id v :
  (id, v) ∈ ghost_pairs s e ↔
  s ≤ id < e ∧ ∃ j, rd gcell_vtx_idx id ≤ j < rd gcell_vtx_idx (id + 1)
                    ∧ v = rd gcell_vtx_lst j - 1.
Proof.
  unfold ghost_pairs. rewrite list_elem_of_bind. split.
  - intros (id' & (j & [= -> ->] & Hj%elem_of_range)%list_elem_of_fmap & Hid%elem_of_range).
    eauto.
  - intros (Hid & j & Hj & ->). exists id. rewrite list_elem_of_fmap, !elem_of_range.
    split; [|done]. exists j. by rewrite elem_of_range.
Qed.

(** The loop on ghost cells of the index pass, as a guarded fold. *)
Lemma idx_loop_guarded s e st :
  foldl (λ st id,
    foldl (λ '(checker, vtx_gcells_idx) j,
      let vtx_id := rd gcell_vtx_lst j - 1 in
      if decide (rd checker vtx_id ≠ id) then
        (wr checker vtx_id id,
         wr vtx_gcells_idx (vtx_id + 1) (rd vtx_gcells_idx (vtx_id + 1) + 1))
      else (checker, vtx_gcells_idx))
    st (range (rd gcell_vtx_idx id) (rd gcell_vtx_idx (id + 1))))
  st (range s e)
  = foldl (guarded (λ idx p, count_event idx p.2)) st (ghost_pairs s e).
Proof.
  unfold ghost_pairs. rewrite foldl_bind. apply foldl_ext_in. intros st' id _.
  rewrite foldl_fmap. apply foldl_ext_in. intros [ck vi] j _.
  unfold guarded, count_event. cbn [fst snd]. by case_decide.
Qed.

Definition regroup (st : list Z * list Z * list Z) : list Z * (list Z * list Z) :=
  (st.1.2, (st.1.1, st.2)).

(** The loop on ghost cells of the list pass, as a guarded fold. *)
Lemma lst_loop_guarded (vtx_gcells_idx : list Z) s e st :
  regroup
    (foldl (λ st id,
      foldl (λ '(counter, checker, vtx_gcells_lst) j,
        let vtx_id := rd gcell_vtx_lst j - 1 in
        if decide (rd checker vtx_id ≠ id) then
          let checker := wr checker vtx_id id in
          let shift := rd vtx_gcells_idx vtx_id + rd counter vtx_id in
          let vtx_gcells_lst := wr vtx_gcells_lst shift id in
          (wr counter vtx_id (rd counter vtx_id + 1), checker, vtx_gcells_lst)
        else (counter, checker, vtx_gcells_lst))
      st (range (rd gcell_vtx_idx id) (rd gcell_vtx_idx (id + 1))))
    st (range s e))
  = foldl (guarded (λ st p, place 0 vtx_gcells_idx st (p.2, p.1)))
      (regroup st) (ghost_pairs s e).
Proof.
  unfold ghost_pairs. rewrite foldl_bind. apply foldl_morph.
  intros st' id. rewrite foldl_fmap. apply foldl_morph.
  intros [[cnt ck] l] j. unfold guarded, place, regroup. cbn [fst snd].
  case_decide; [|done]. by rewrite Z.sub_0_r.
Qed.

Lemma vals_rev_events v F id :
  id ∈ vals v (rev_events F) ↔ (id, v) ∈ F.
Proof.
  unfold vals, rev_events. rewrite list_elem_of_fmap. split.
  - intros ([v' id'] & -> & [Hv ([id2 v2] & [= -> ->] & Hin)%list_elem_of_fmap]%list_elem_of_filter).
    simpl in Hv. by subst.
  - intros Hin. exists (v, id). split; [done|]. apply list_elem_of_filter.
    split; [done|]. apply list_elem_of_fmap. by exists (id, v).
Qed.

Lemma vals_rev_events_NoDup v F : NoDup F → NoDup (vals v (rev_events F)).
Proof.
  intros HF. unfold vals. apply NoDup_fmap_2_strong.
  - intros [v1 i1] [v2 i2] [H1 _]%list_elem_of_filter [H2 _]%list_elem_of_filter.
    simpl in *. congruence.
  - apply NoDup_filter. unfold rev_events. apply NoDup_fmap_2_strong; [|done].
    intros [a1 b1] [a2 b2] _ _. simpl. congruence.
Qed.

(** The rows built by the two passes. *)
Lemma reverse_passes_rows rank_id (checker counter vtx_gcells_idx0 : list Z) :
  0 ≤ n_vertices →
  Z.of_nat (length checker) = n_vertices →
  Z.of_nat (length counter) = n_vertices →
  Z.of_nat (length vtx_gcells_idx0) = n_vertices + 1 →
  let start_idx := (ghost_bounds halo rank_id).1 in
  let end_idx := (ghost_bounds halo rank_id).2 in
  0 ≤ start_idx →
  (∀ id j, start_idx ≤ id < end_idx →
     rd gcell_vtx_idx id ≤ j < rd gcell_vtx_idx (id + 1) →
     1 ≤ rd gcell_vtx_lst j ≤ n_vertices) →
  let pass1 := _reverse_connectivity_idx halo n_vertices rank_id checker
                 gcell_vtx_idx gcell_vtx_lst vtx_gcells_idx0 in
  let vtx_gcells_idx := pass1.2 in
  let vtx_gcells_lst :=
    (_reverse_connectivity_lst halo n_vertices rank_id counter pass1.1
       gcell_vtx_idx gcell_vtx_lst vtx_gcells_idx
       (bft_malloc (rd vtx_gcells_idx n_vertices))).2 in
  rd vtx_gcells_idx 0 = 0 ∧
  Z.of_nat (length vtx_gcells_lst) = rd vtx_gcells_idx n_vertices ∧
  ∀ v, 0 ≤ v < n_vertices →
    NoDup (csr_row 0 vtx_gcells_idx vtx_gcells_lst v) ∧
    ∀ id, id ∈ csr_row 0 vtx_gcells_idx vtx_gcells_lst v
          ↔ (id, v) ∈ ghost_pairs start_idx end_idx.
Proof.
  intros Hn Hck Hcnt Hvi start_idx end_idx Hstart Hvalid.
  destruct (ghost_bounds halo rank_id) as [s e] eqn:Eb.
  subst start_idx end_idx. cbn [fst snd] in *.
  set (n := n_vertices) in *.
  set (pairs := ghost_pairs s e).
  set (ck0 := replicate (Z.to_nat n) (-1)).
  set (F := fired ck0 pairs).
  set (ev := rev_events F).
  (* the forward pairs *)
  assert (Hpairs : pairs_ok n pairs).
  { apply Forall_forall. intros [id v] (Hid & j & Hj & ->)%elem_of_ghost_pairs.
    specialize (Hvalid id j Hid Hj). simpl. lia. }
  assert (Hnd : nondecr pairs).
  { unfold pairs. destruct (decide (s ≤ e)).
    - replace e with (s + Z.of_nat (Z.to_nat (e - s))) by lia.
      apply ghost_pairs_nondecr.
    - unfold ghost_pairs. by rewrite range_nil by lia. }
  destruct (fired_fresh n pairs Hnd Hpairs Hn) as [HFnd HFmem]. fold ck0 F in HFnd, HFmem.
  assert (Hev : rows_ok n ev).
  { apply Forall_forall. intros ev0 ([id v] & -> & Hin%HFmem)%list_elem_of_fmap.
    unfold pairs_ok in Hpairs. rewrite Forall_forall in Hpairs. apply (Hpairs _ Hin). }
  (* the index pass *)
  assert (Hpass1 : _reverse_connectivity_idx halo n rank_id checker
                     gcell_vtx_idx gcell_vtx_lst vtx_gcells_idx0
                   = (final_checker ck0 pairs,
                      sum_index n (foldl count_event (replicate (Z.to_nat (n + 1)) 0) ev.*1))).
  { unfold _reverse_connectivity_idx.
    rewrite (foldl_pair (λ a i, wr a (i + 1) 0) (λ b i, wr b i (-1))).
    destruct (fill_const (wr vtx_gcells_idx0 0 0) 1 0 n) as [Hl1 Hr1];
      [lia|lia|rewrite length_wr; lia|].
    destruct (fill_const checker 0 (-1) n) as [Hl2 Hr2]; [lia|lia|lia|].
    rewrite length_wr in Hl1.
    assert (E1 : foldl (λ a i, wr a (i + 1) 0) (wr vtx_gcells_idx0 0 0) (range 0 n)
                 = replicate (Z.to_nat (n + 1)) 0).
    { apply array_ext; [rewrite Hl1, length_replicate; lia|].
      intros k Hk. rewrite Hl1 in Hk. rewrite Hr1, rd_replicate by lia.
      case_decide; [done|]. assert (k = 0) as -> by lia. apply rd_wr_eq. lia. }
    assert (E2 : foldl (λ b i, wr b i (-1)) checker (range 0 n) = ck0).
    { rewrite (foldl_ext_in _ (λ a i, wr a (i + 0) (-1)))
        by (intros; by rewrite Z.add_0_r).
      apply array_ext; [unfold ck0; rewrite Hl2, length_replicate; lia|].
      intros k Hk. rewrite Hl2 in Hk. unfold ck0. rewrite Hr2, rd_replicate by lia.
      by rewrite decide_True by lia. }
    rewrite E1, E2, Eb.
    rewrite idx_loop_guarded, guarded_fold. f_equal.
    unfold sum_index, ev, rev_events.
    rewrite <- list_fmap_compose, foldl_fmap. simpl.
    apply foldl_ext_in. intros a i _. f_equal. lia. }
  (* the index *)
  destruct (count_events n ev (replicate (Z.to_nat (n + 1)) 0) Hev) as (Hl0 & Hz0 & Hc0);
    [rewrite length_replicate; lia|].
  set (c0 := foldl count_event (replicate (Z.to_nat (n + 1)) 0) ev.*1) in *.
  rewrite length_replicate in Hl0.
  destruct (sum_index_spec n c0) as (Hlidx & H0 & Hk); [lia|done|].
  set (idx := sum_index n c0) in *.
  assert (Hidx0 : rd idx 0 = 0).
  { rewrite H0, Hz0. apply rd_replicate. lia. }
  assert (Hidx : ∀ k, 0 ≤ k < n → rd idx (k + 1) = rd idx k + occ k ev).
  { intros k Hk'. rewrite (Hk k Hk'), (Hc0 k Hk'), rd_replicate by lia. lia. }
  assert (Hge : 0 ≤ rd idx n).
  { rewrite <- Hidx0. eapply index_le; [done|lia|lia|lia]. }
  (* the list pass *)
  cbv zeta. rewrite Hpass1. cbn [fst snd]. fold idx.
  assert (Hpass2 : (_reverse_connectivity_lst halo n rank_id counter
                      (final_checker ck0 pairs) gcell_vtx_idx gcell_vtx_lst idx
                      (bft_malloc (rd idx n))).2
                   = (foldl (place 0 idx) (replicate (Z.to_nat n) 0, bft_malloc (rd idx n)) ev).2).
  { unfold _reverse_connectivity_lst.
    rewrite (foldl_pair (λ a i, wr a i 0) (λ b i, wr b i (-1))).
    assert (Hlf : Z.of_nat (length (final_checker ck0 pairs)) = n).
    { assert (∀ ps c, length (final_checker c ps) = length c) as H.
      { induction ps as [|p ps IH]; intros c; [done|]. simpl.
        case_decide; rewrite IH, ?length_wr; done. }
      rewrite H. unfold ck0. rewrite length_replicate. lia. }
    destruct (fill_const counter 0 0 n) as [Hl1 Hr1]; [lia|lia|lia|].
    destruct (fill_const (final_checker ck0 pairs) 0 (-1) n) as [Hl2 Hr2]; [lia|lia|lia|].
    assert (E1 : foldl (λ a i, wr a i 0) counter (range 0 n) = replicate (Z.to_nat n) 0).
    { rewrite (foldl_ext_in _ (λ a i, wr a (i + 0) 0))
        by (intros; by rewrite Z.add_0_r).
      apply array_ext; [rewrite Hl1, length_replicate; lia|].
      intros k Hk'. rewrite Hl1 in Hk'. rewrite Hr1, rd_replicate by lia.
      by rewrite decide_True by lia. }
    assert (E2 : foldl (λ b i, wr b i (-1)) (final_checker ck0 pairs) (range 0 n) = ck0).
    { rewrite (foldl_ext_in _ (λ a i, wr a (i + 0) (-1)))
        by (intros; by rewrite Z.add_0_r).
      apply array_ext; [unfold ck0 at 2; rewrite Hl2, length_replicate; lia|].
      intros k Hk'. rewrite Hl2 in Hk'. unfold ck0 at 2. rewrite Hr2, rd_replicate by lia.
      by rewrite decide_True by lia. }
    rewrite E1, E2, Eb.
    match goal with |- (?x).2 = _ => change (x.2) with ((regroup x).2.2) end.
    rewrite lst_loop_guarded. unfold regroup. cbn [fst snd].
    rewrite guarded_fold. cbn [fst snd]. fold F.
    unfold ev, rev_events. by rewrite foldl_fmap. }
  rewrite Hpass2.
  destruct (buckets_rows n 0 idx
              (foldl (place 0 idx) (replicate (Z.to_nat n) 0, bft_malloc (rd idx n)) ev).2
              (replicate (Z.to_nat n) 0) (bft_malloc (rd idx n)) ev Hn Hev Hidx0 Hidx)
    as [Hlen Hrows]; [| | |done|].
  { unfold bft_malloc. rewrite length_replicate. lia. }
  { rewrite length_replicate. lia. }
  { intros r Hr. apply rd_replicate. lia. }
  split; [done|]. split; [lia|]. intros v Hv. rewrite (Hrows v Hv). split.
  - by apply vals_rev_events_NoDup.
  - intros id. unfold ev. rewrite vals_rev_events. apply HFmem.
Qed.

(** C4. The index pass, the prefix sum and the list pass together reverse
    the ghost cell -> vertex adjacency.  The ghost cells read are those
    from [start_idx] to [end_idx - 1]: all the cells of the extended halo
    for [rank_id = -1], and the cells from [halo->index[2*rank_id]] to
    [halo->index[2*rank_id+1] - 1] otherwise.  In the vertex -> ghost cells
    adjacency built, the row of every vertex [v] has no repeated entry, and
    holds ghost cell [id] exactly when [id] is one of these cells and the
    forward adjacency lists [v] in the row of [id] (once or several
    times) -- every forward pair is there exactly once, and nothing else
    is. *)
Theorem C4_reverse_connectivity rank_id (checker counter vtx_gcells_idx0 : list Z) :
  0 ≤ n_vertices →
  Z.of_nat (length checker) = n_vertices →
  Z.of_nat (length counter) = n_vertices →
  Z.of_nat (length vtx_gcells_idx0) = n_vertices + 1 →
  let start_idx := if decide (rank_id = -1) then 0 else rd (index halo) (2 * rank_id) in
  let end_idx := if decide (rank_id = -1) then n_elts halo CS_HALO_EXTENDED
                 else rd (index halo) (2 * rank_id + 1) in
  0 ≤ start_idx →
  (∀ id j, start_idx ≤ id < end_idx →
     rd gcell_vtx_idx id ≤ j < rd gcell_vtx_idx (id + 1) →
     1 ≤ rd gcell_vtx_lst j ≤ n_vertices) →
  let pass1 := _reverse_connectivity_idx halo n_vertices rank_id checker
                 gcell_vtx_idx gcell_vtx_lst vtx_gcells_idx0 in
  let vtx_gcells_idx := pass1.2 in
  let vtx_gcells_lst :=
    (_reverse_connectivity_lst halo n_vertices rank_id counter pass1.1
       gcell_vtx_idx gcell_vtx_lst vtx_gcells_idx
       (bft_malloc (rd vtx_gcells_idx n_vertices))).2 in
  rd vtx_gcells_idx 0 = 0 ∧
  Z.of_nat (length vtx_gcells_lst) = rd vtx_gcells_idx n_vertices ∧
  ∀ v, 0 ≤ v < n_vertices →
    NoDup (csr_row 0 vtx_gcells_idx vtx_gcells_lst v) ∧
    ∀ id, id ∈ csr_row 0 vtx_gcells_idx vtx_gcells_lst v
          ↔ start_idx ≤ id < end_idx ∧
            ∃ j, rd gcell_vtx_idx id ≤ j < rd gcell_vtx_idx (id + 1) ∧
                 v = rd gcell_vtx_lst j - 1.
Proof.
  intros Hn Hck Hcnt Hvi start_idx end_idx Hstart Hvalid.
  assert (Eb : ghost_bounds halo rank_id = (start_idx, end_idx)).
  { unfold ghost_bounds, start_idx, end_idx. by case_decide. }
  pose proof (reverse_passes_rows rank_id checker counter vtx_gcells_idx0
                Hn Hck Hcnt Hvi) as H.
  cbv zeta in H. rewrite Eb in H. cbn [fst snd] in H.
  destruct (H Hstart Hvalid) as (H0 & Hl & Hrows).
  cbv zeta. split; [done|]. split; [done|].
  intros v Hv. destruct (Hrows v Hv) as [Hnd Hmem]. split; [done|].
  intros id. rewrite Hmem. apply elem_of_ghost_pairs.
Qed.

End ReverseProofs.

(** The same, for the caller that allocates the buffers. *)
Corollary create_vtx_gcells_connect_rows halo n_vertices gcells_vtx_idx gcells_vtx_lst :
  0 ≤ n_vertices →
  (∀ id j, 0 ≤ id < n_elts halo CS_HALO_EXTENDED →
     rd gcells_vtx_idx id ≤ j < rd gcells_vtx_idx (id + 1) →
     1 ≤ rd gcells_vtx_lst j ≤ n_vertices) →
  let r := _create_vtx_gcells_connect halo n_vertices gcells_vtx_idx gcells_vtx_lst in
  ∀ v, 0 ≤ v < n_vertices →
    NoDup (csr_row 0 r.1 r.2 v) ∧
    ∀ id, id ∈ csr_row 0 r.1 r.2 v
          ↔ (id, v) ∈ ghost_pairs gcells_vtx_idx gcells_vtx_lst 0
                        (n_elts halo CS_HALO_EXTENDED).
Proof.
  intros Hn Hvalid r v Hv.
  pose proof (reverse_passes_rows halo n_vertices gcells_vtx_idx gcells_vtx_lst (-1)
                (drop (Z.to_nat n_vertices) (bft_malloc (2 * n_vertices)))
                (take (Z.to_nat n_vertices) (bft_malloc (2 * n_vertices)))
                (bft_malloc (n_vertices + 1)) Hn) as H.
  unfold bft_malloc at 1 2 3 in H.
  rewrite length_drop, length_take, !length_replicate in H.
  specialize (H ltac:(lia) ltac:(lia) ltac:(lia)).
  cbv zeta in H. change (ghost_bounds halo (-1)) with (0, n_elts halo CS_HALO_EXTENDED) in H.
  cbn [fst snd] in H. specialize (H ltac:(lia) Hvalid) as (_ & _ & H).
  specialize (H v Hv). subst r. unfold _create_vtx_gcells_connect.
  destruct (_reverse_connectivity_idx _ _ _ _ _ _ _) as [ck vidx]. cbn [fst snd] in H.
  destruct (_reverse_connectivity_lst _ _ _ _ _ _ _ _ _) as [[cnt ck'] vlst].
  exact H.
Qed.

(** Witness of C4: three ghost cells with vertices {1,2,1}, {4,4}, {2,3,2}
    over four vertices, all of them in the extended halo. *)
Lemma C4_reverse_connectivity_witness :
  let halo := mk_halo (λ _, 3) [] in
  let gidx := [0; 3; 5; 8] in
  let glst := [1; 2; 1; 4; 4; 2; 3; 2] in
  let pass1 := _reverse_connectivity_idx halo 4 (-1) [7; 7; 7; 7] gidx glst [9; 9; 9; 9; 9] in
  let vtx_gcells_idx := pass1.2 in
  let vtx_gcells_lst :=
    (_reverse_connectivity_lst halo 4 (-1) [5; 5; 5; 5] pass1.1 gidx glst vtx_gcells_idx
       (bft_malloc (rd vtx_gcells_idx 4))).2 in
  rd vtx_gcells_idx 0 = 0 ∧
  Z.of_nat (length vtx_gcells_lst) = rd vtx_gcells_idx 4 ∧
  ∀ v, 0 ≤ v < 4 →
    NoDup (csr_row 0 vtx_gcells_idx vtx_gcells_lst v) ∧
    ∀ id, id ∈ csr_row 0 vtx_gcells_idx vtx_gcells_lst v
          ↔ 0 ≤ id < 3 ∧ ∃ j, rd gidx id ≤ j < rd gidx (id + 1) ∧ v = rd glst j - 1.
Proof.
  apply (C4_reverse_connectivity (mk_halo (λ _, 3) []) 4 [0; 3; 5; 8]
           [1; 2; 1; 4; 4; 2; 3; 2] (-1) [7; 7; 7; 7] [5; 5; 5; 5] [9; 9; 9; 9; 9]).
  - lia.
  - reflexivity.
  - reflexivity.
  - reflexivity.
  - vm_compute. discriminate.
  - intros id j Hid Hj. change (0 ≤ id < 3) in Hid.
    assert (0 ≤ j < 8) as Hj8.
    { assert (id = 0 ∨ id = 1 ∨ id = 2) as [->|[->| ->]] by lia;
        unfold rd in Hj; simpl in Hj; lia. }
    assert (j = 0 ∨ j = 1 ∨ j = 2 ∨ j = 3 ∨ j = 4 ∨ j = 5 ∨ j = 6 ∨ j = 7)
      as [->|[->|[->|[->|[->|[->|[->| ->]]]]]]] by lia; vm_compute; split; discriminate.
Defined.

(** The passes on the ghost cells of one rank: with [halo->index] holding
    the bounds 1 and 3 for rank 0, the cells 1 and 2 are reversed and
    cell 0 is left out. *)
Example reverse_connectivity_rank :
  let halo := mk_halo (λ _, 3) [1; 3] in
  let gidx := [0; 3; 5; 8] in
  let glst := [1; 2; 1; 4; 4; 2; 3; 2] in
  let pass1 := _reverse_connectivity_idx halo 4 0 [7; 7; 7; 7] gidx glst [9; 9; 9; 9; 9] in
  let vtx_gcells_lst :=
    (_reverse_connectivity_lst halo 4 0 [5; 5; 5; 5] pass1.1 gidx glst pass1.2
       (bft_malloc (rd pass1.2 4))).2 in
  pass1.2 = [0; 0; 1; 2; 3] ∧ vtx_gcells_lst = [2; 2; 1].
Proof. vm_compute. split; reflexivity. Qed.

(** ** The non-orthogonality filter (C5) *)

Section FilterProofs.

Context (mesh : cs_mesh_t) (below_limit : Z → bool).
Context (vtx_cells_idx vtx_cells_lst : list Z).

(** Cell [x] is listed for vertex [vtx_id] in the vertex -> cells
    adjacency. *)
Definition vtx_touches (vtx_id x : Z) : bool :=
  existsb (λ k, bool_decide (rd vtx_cells_lst k = x))
          (range (rd vtx_cells_idx vtx_id - 1) (rd vtx_cells_idx (vtx_id + 1) - 1)).

(** Cell [x] is listed for some vertex of face [face_id]. *)
Definition face_touches (face_id x : Z) : bool :=
  existsb (λ j, vtx_touches (rd (i_face_vtx_lst mesh) j - 1) x)
          (range (rd (i_face_vtx_idx mesh) face_id - 1)
                 (rd (i_face_vtx_idx mesh) (face_id + 1) - 1)).

(** Face [face_id] confirms neighbour [x] of cell [c]. *)
Definition confirms (c x face_id : Z) : bool :=
  below_limit face_id
  && (bool_decide (rd (i_face_cells mesh) (2 * face_id) - 1 = c)
      || bool_decide (rd (i_face_cells mesh) (2 * face_id + 1) - 1 = c))
  && face_touches face_id x.

(** Neighbour [x] of cell [c] is confirmed by one of the faces below
    [n_faces]. *)
Definition kept_upto (n_faces c x : Z) : bool := existsb (confirms c x) (range 0 n_faces).

Definition kept (c x : Z) : bool := kept_upto (n_i_faces mesh) c x.

(** What one call of [_tag_cells] does to an entry of the row. *)
Definition tag_val (face_id v : Z) : Z :=
  if decide (v > 0) then if face_touches face_id v then - v else v else v.

Lemma wr_rd_id a i : wr a i (rd a i) = a.
Proof.
  unfold wr, rd. case_decide; [|done].
  destruct (a !! Z.to_nat i) as [x|] eqn:E; simpl.
  - by apply list_insert_id.
  - apply list_insert_ge. by apply lookup_ge_None.
Qed.

Lemma wr_wr a i x y : wr (wr a i x) i y = wr a i y.
Proof. unfold wr. case_decide; [apply list_insert_insert_eq|done]. Qed.

Lemma tag_inner_k ext i (lst : list Z) ks : ∀ v,
  0 ≤ i < Z.of_nat (length lst) → ext > 0 → v = ext ∨ v = - ext →
  foldl (λ l k, if decide (rd vtx_cells_lst k = ext ∧ rd l i > 0)
                then wr l i (- rd l i) else l) (wr lst i v) ks
  = wr lst i (if decide (v > 0)
              then if existsb (λ k, bool_decide (rd vtx_cells_lst k = ext)) ks
                   then - ext else ext
              else v).
Proof.
  induction ks as [|k ks IH]; intros v Hi Hext Hv.
  - simpl. case_decide; [|done]. destruct Hv; [by subst|lia].
  - cbn [foldl existsb]. rewrite rd_wr_eq by done.
    case_decide as Hc.
    + destruct Hc as [Hk Hpos]. assert (v = ext) as -> by lia.
      rewrite wr_wr, IH by auto.
      rewrite decide_False by lia. rewrite decide_True by lia.
      by rewrite bool_decide_eq_true_2.
    + rewrite IH by auto. case_decide; [|done].
      rewrite bool_decide_eq_false_2 by tauto. done.
Qed.

Lemma tag_inner_j ext i (lst : list Z) js : ∀ v,
  0 ≤ i < Z.of_nat (length lst) → ext > 0 → v = ext ∨ v = - ext →
  foldl (λ l j,
    foldl (λ l k, if decide (rd vtx_cells_lst k = ext ∧ rd l i > 0)
                  then wr l i (- rd l i) else l) l
      (range (rd vtx_cells_idx (rd (i_face_vtx_lst mesh) j - 1) - 1)
             (rd vtx_cells_idx (rd (i_face_vtx_lst mesh) j - 1 + 1) - 1)))
    (wr lst i v) js
  = wr lst i (if decide (v > 0)
              then if existsb (λ j, vtx_touches (rd (i_face_vtx_lst mesh) j - 1) ext) js
                   then - ext else ext
              else v).
Proof.
  induction js as [|j js IH]; intros v Hi Hext Hv.
  - simpl. case_decide; [|done]. destruct Hv; [by subst|lia].
  - cbn [foldl existsb]. rewrite tag_inner_k by done.
    fold (vtx_touches (rd (i_face_vtx_lst mesh) j - 1) ext).
    destruct (decide (v > 0)) as [Hpos|Hneg].
    + destruct (vtx_touches _ ext).
      * rewrite IH by auto. rewrite decide_False by lia. done.
      * rewrite IH by auto. assert (v = ext) as -> by lia.
        by rewrite decide_True by lia.
    + rewrite IH by auto. by rewrite decide_False by done.
Qed.

(** One iteration of the loop of [_tag_cells] on the entries of a row. *)
Lemma tag_entry face_id i (lst : list Z) :
  0 ≤ i < Z.of_nat (length lst) →
  (let ext_cell_num := rd lst i in
   if decide (ext_cell_num > 0) then
     foldl (λ l j,
       let vtx_id := rd (i_face_vtx_lst mesh) j - 1 in
       foldl (λ l k,
         let cell_num := rd vtx_cells_lst k in
         if decide (cell_num = ext_cell_num ∧ rd l i > 0) then wr l i (- rd l i) else l)
       l (range (rd vtx_cells_idx vtx_id - 1) (rd vtx_cells_idx (vtx_id + 1) - 1)))
     lst (range (rd (i_face_vtx_idx mesh) face_id - 1)
                (rd (i_face_vtx_idx mesh) (face_id + 1) - 1))
   else lst)
  = wr lst i (tag_val face_id (rd lst i)).
Proof.
  intros Hi. cbv zeta. unfold tag_val. case_decide as Hpos; [|by rewrite wr_rd_id].
  rewrite <- (wr_rd_id lst i) at 1.
  rewrite (tag_inner_j (rd lst i) i lst _ (rd lst i)) by auto.
  rewrite decide_True by done. done.
Qed.

Lemma tag_cells_spec face_id cell_id (cell_cells_idx lst : list Z) :
  (cell_id < n_cells mesh →
   0 ≤ rd cell_cells_idx cell_id - 1 ∧
   rd cell_cells_idx (cell_id + 1) - 1 ≤ Z.of_nat (length lst)) →
  let res := _tag_cells mesh face_id cell_id vtx_cells_idx vtx_cells_lst cell_cells_idx lst in
  length res = length lst ∧
  ∀ p, rd res p =
       if decide (cell_id < n_cells mesh
                  ∧ rd cell_cells_idx cell_id - 1 ≤ p < rd cell_cells_idx (cell_id + 1) - 1)
       then tag_val face_id (rd lst p) else rd lst p.
Proof.
  intros Hab'. cbv zeta. unfold _tag_cells. cbv zeta.
  set (a := rd cell_cells_idx cell_id - 1) in *.
  set (b := rd cell_cells_idx (cell_id + 1) - 1) in *.
  case_decide as Hc; [|split; [done|intros p; by rewrite decide_False by tauto]].
  destruct (Hab' Hc) as [Ha Hb].
  destruct (decide (a ≤ b)) as [Hab|Hab].
  2: { rewrite (range_nil a b) by lia.
       split; [done|intros p; by rewrite decide_False by lia]. }
  match goal with |- context [foldl ?f lst (range a b)] =>
    destruct (foldl_range_ind (λ i l,
      length l = length lst ∧
      ∀ p, rd l p = if decide (a ≤ p < i) then tag_val face_id (rd lst p) else rd lst p)
      f lst a b Hab) as [Hl Hrd]
  end.
  - split; [done|]. intros p. by rewrite decide_False by lia.
  - intros i l Hi [Hl Hrd]. rewrite tag_entry by lia. rewrite length_wr.
    split; [done|]. intros p. rewrite rd_wr by lia. rewrite !Hrd.
    repeat case_decide; try done; try lia. by subst.
  - split; [done|]. intros p. rewrite Hrd. repeat case_decide; try done; tauto.
Qed.

(** The cell -> cells connectivity the filter starts from: an index from 1,
    non-decreasing, that covers the list, whose entries are cell numbers
    (from 1). *)
Record csr_ok (idx lst : list Z) : Prop := mk_csr_ok {
  csr_n : 0 ≤ n_cells mesh;
  csr_len : Z.of_nat (length idx) = n_cells mesh + 1;
  csr_first : rd idx 0 = 1;
  csr_mono : ∀ c, 0 ≤ c < n_cells mesh → rd idx c ≤ rd idx (c + 1);
  csr_last : rd idx (n_cells mesh) - 1 = Z.of_nat (length lst);
  csr_pos : ∀ p, 0 ≤ p < Z.of_nat (length lst) → 0 < rd lst p
}.

Lemma csr_mono_le idx lst c1 c2 :
  csr_ok idx lst → 0 ≤ c1 → c1 ≤ c2 → c2 ≤ n_cells mesh → rd idx c1 ≤ rd idx c2.
Proof.
  intros Hok H1 H12 H2.
  assert (H : ∀ d : nat, c1 + Z.of_nat d ≤ n_cells mesh → rd idx c1 ≤ rd idx (c1 + Z.of_nat d)).
  { induction d as [|d IH]; intros Hd; [by rewrite Z.add_0_r|].
    etrans; [apply IH; lia|].
    replace (c1 + Z.of_nat (S d)) with (c1 + Z.of_nat d + 1) by lia.
    apply (csr_mono _ _ Hok). lia. }
  specialize (H (Z.to_nat (c2 - c1))).
  replace (c1 + Z.of_nat (Z.to_nat (c2 - c1))) with c2 in H by lia. apply H. lia.
Qed.

Lemma csr_row_bounds idx lst c :
  csr_ok idx lst → 0 ≤ c < n_cells mesh →
  0 ≤ rd idx c - 1 ∧ rd idx (c + 1) - 1 ≤ Z.of_nat (length lst).
Proof.
  intros Hok Hc.
  pose proof (csr_mono_le idx lst 0 c Hok). pose proof (csr_mono_le idx lst (c + 1) (n_cells mesh) Hok).
  pose proof (csr_first _ _ Hok). pose proof (csr_last _ _ Hok). lia.
Qed.

Lemma csr_rows_disjoint idx lst c1 c2 p :
  csr_ok idx lst → 0 ≤ c1 < n_cells mesh → 0 ≤ c2 < n_cells mesh →
  rd idx c1 - 1 ≤ p < rd idx (c1 + 1) - 1 →
  rd idx c2 - 1 ≤ p < rd idx (c2 + 1) - 1 →
  c1 = c2.
Proof.
  intros Hok H1 H2 Hp1 Hp2.
  destruct (decide (c1 = c2)) as [|Hne]; [done|]. exfalso.
  destruct (decide (c1 < c2)).
  - pose proof (csr_mono_le idx lst (c1 + 1) c2 Hok). lia.
  - pose proof (csr_mono_le idx lst (c2 + 1) c1 Hok). lia.
Qed.

Lemma kept_upto_succ F c x :
  0 ≤ F → kept_upto (F + 1) c x = kept_upto F c x || confirms c x F.
Proof.
  intros HF. unfold kept_upto. rewrite range_snoc by done.
  rewrite existsb_app. simpl. by rewrite orb_false_r.
Qed.

Lemma tag_val_neg face_id v : v ≤ 0 → tag_val face_id v = v.
Proof. intros. unfold tag_val. by rewrite decide_False by lia. Qed.

(** After the loop on the faces, an entry is negative exactly when some
    face confirmed it. *)
Lemma tag_faces_spec (idx lst : list Z) :
  csr_ok idx lst → face_cells_ok mesh →
  let res := tag_faces mesh below_limit vtx_cells_idx vtx_cells_lst idx lst in
  length res = length lst ∧
  ∀ c p, 0 ≤ c < n_cells mesh → rd idx c - 1 ≤ p < rd idx (c + 1) - 1 →
    rd res p = if kept c (rd lst p) then - rd lst p else rd lst p.
Proof.
  intros Hok Hfc. cbv zeta. unfold tag_faces, kept.
  destruct (decide (0 ≤ n_i_faces mesh)) as [Hnf|Hnf].
  2: { unfold kept_upto. rewrite !(range_nil 0 (n_i_faces mesh)) by lia. simpl. auto. }
  match goal with |- context [foldl ?f lst (range 0 (n_i_faces mesh))] =>
    apply (foldl_range_ind (λ F cur,
      length cur = length lst ∧
      ∀ c p, 0 ≤ c < n_cells mesh → rd idx c - 1 ≤ p < rd idx (c + 1) - 1 →
        rd cur p = if kept_upto F c (rd lst p) then - rd lst p else rd lst p)
      f lst 0 (n_i_faces mesh) Hnf)
  end.
  - split; [done|]. intros c p _ _. unfold kept_upto. by rewrite range_nil by lia.
  - intros F cur HF [Hl Hcur]. cbv zeta.
    set (ci := rd (i_face_cells mesh) (2 * F) - 1).
    set (cj := rd (i_face_cells mesh) (2 * F + 1) - 1).
    assert (Hci : 0 ≤ ci ∧ 0 ≤ cj).
    { destruct (Hfc F HF) as [H1 H2]. unfold ci, cj.
      replace (2 * F) with (F * 2) by lia. lia. }
    destruct (below_limit F) eqn:Hbelow.
    2: { split; [done|]. intros c p Hc Hp. rewrite kept_upto_succ by lia.
         unfold confirms. rewrite Hbelow. simpl. rewrite orb_false_r. by apply Hcur. }
    destruct (tag_cells_spec F ci idx cur) as [Hl1 H1].
    { intros Hlt. rewrite Hl. apply (csr_row_bounds idx lst ci Hok). lia. }
    set (cur1 := _tag_cells mesh F ci vtx_cells_idx vtx_cells_lst idx cur) in *.
    destruct (tag_cells_spec F cj idx cur1) as [Hl2 H2].
    { intros Hlt. rewrite Hl1, Hl. apply (csr_row_bounds idx lst cj Hok). lia. }
    split; [by rewrite Hl2, Hl1|].
    intros c p Hc Hp. rewrite H2, H1, (Hcur c p Hc Hp).
    pose proof (csr_row_bounds idx lst c Hok Hc) as Hb.
    pose proof (csr_pos _ _ Hok p ltac:(lia)) as Hx.
    rewrite kept_upto_succ by lia. unfold confirms. rewrite Hbelow. simpl.
    fold ci cj.
    assert (Ei : (ci < n_cells mesh ∧ rd idx ci - 1 ≤ p < rd idx (ci + 1) - 1) ↔ ci = c).
    { split; [intros [? ?]; eapply (csr_rows_disjoint idx lst); eauto; lia|].
      intros ->. split; [lia|done]. }
    assert (Ej : (cj < n_cells mesh ∧ rd idx cj - 1 ≤ p < rd idx (cj + 1) - 1) ↔ cj = c).
    { split; [intros [? ?]; eapply (csr_rows_disjoint idx lst); eauto; lia|].
      intros ->. split; [lia|done]. }
    destruct (kept_upto F c (rd lst p)); simpl.
    + rewrite !tag_val_neg by (repeat case_decide; rewrite ?tag_val_neg; lia).
      repeat case_decide; rewrite ?tag_val_neg by lia; done.
    + unfold tag_val.
      destruct (face_touches F (rd lst p)) eqn:Ht;
        destruct (decide (ci = c)) as [Hic|Hic]; destruct (decide (cj = c)) as [Hjc|Hjc];
        rewrite ?(bool_decide_eq_true_2 _ Hic), ?(bool_decide_eq_false_2 _ Hic),
                ?(bool_decide_eq_true_2 _ Hjc), ?(bool_decide_eq_false_2 _ Hjc); simpl;
        repeat (case_decide; try tauto; try lia; rewrite ?Ht); try done.
Qed.

(** "Change all signs". *)
Lemma change_signs_spec (idx lst : list Z) :
  rd idx (n_cells mesh) - 1 = Z.of_nat (length lst) →
  let res := change_signs mesh idx lst in
  length res = length lst ∧
  ∀ p, 0 ≤ p < Z.of_nat (length lst) → rd res p = - rd lst p.
Proof.
  intros Hlast. cbv zeta. unfold change_signs.
  rewrite Hlast.
  match goal with |- context [foldl ?f lst (range 0 ?b)] =>
    destruct (foldl_range_ind (λ i cur,
      length cur = length lst ∧
      ∀ p, rd cur p = if decide (0 ≤ p < i) then - rd lst p else rd lst p)
      f lst 0 b ltac:(lia)) as [Hl Hrd]
  end.
  - split; [done|]. intros p. by rewrite decide_False by lia.
  - intros i cur Hi [Hl Hrd]. rewrite length_wr. split; [done|].
    intros p. rewrite rd_wr by lia. rewrite !Hrd.
    repeat case_decide; try done; try lia. by subst.
  - split; [done|]. intros p Hp. rewrite Hrd. by rewrite decide_True by lia.
Qed.

(** "Delete negative cells": the entries that are positive after the change
    of signs are moved to the front, in order, and the index is shifted by
    the number of entries deleted so far. *)
Section Compaction.

Context (idx0 fl : list Z).

(** Number of positive entries among the first [i]. *)
Definition n_pos (i : Z) : Z :=
  Z.of_nat (length (filter (λ x, x > 0) (take (Z.to_nat i) fl))).

Definition compacted (i : Z) (st : list Z * Z * Z) : Prop :=
  length st.1.1 = length fl ∧
  st.1.2 + 1 = n_pos i ∧
  take (Z.to_nat (n_pos i)) st.1.1 = filter (λ x, x > 0) (take (Z.to_nat i) fl) ∧
  drop (Z.to_nat i) st.1.1 = drop (Z.to_nat i) fl ∧
  st.2 = i - n_pos i.

Lemma n_pos_le i : 0 ≤ i → n_pos i ≤ i.
Proof.
  intros Hi. unfold n_pos.
  pose proof (length_filter (λ x, x > 0) (take (Z.to_nat i) fl)).
  rewrite length_take in H. lia.
Qed.

Lemma n_pos_succ i :
  0 ≤ i < Z.of_nat (length fl) →
  filter (λ x, x > 0) (take (Z.to_nat (i + 1)) fl)
  = filter (λ x, x > 0) (take (Z.to_nat i) fl) ++ (if decide (rd fl i > 0) then [rd fl i] else []).
Proof.
  intros Hi. replace (Z.to_nat (i + 1)) with (S (Z.to_nat i)) by lia.
  rewrite (take_S_r _ _ (rd fl i)) by (apply lookup_rd; lia).
  rewrite filter_app. by f_equal.
Qed.

Lemma compact_step i (st : list Z * Z * Z) :
  0 ≤ i < Z.of_nat (length fl) →
  compacted i st →
  compacted (i + 1)
    (let '(cell_cells_lst, new_idx, n_deleted_cells) := st in
     if decide (rd cell_cells_lst i > 0) then
       let new_idx := new_idx + 1 in
       (wr cell_cells_lst new_idx (rd cell_cells_lst i), new_idx, n_deleted_cells)
     else (cell_cells_lst, new_idx, n_deleted_cells + 1)).
Proof.
  intros Hi. destruct st as [[lst new_idx] n_del].
  intros (Hl & Hnew & Htake & Hdrop & Hdel). cbn [fst snd] in *.
  pose proof (n_pos_le i ltac:(lia)) as Hle.
  assert (Hrd : rd lst i = rd fl i).
  { unfold rd. rewrite !decide_True by lia.
    replace (lst !! Z.to_nat i) with (drop (Z.to_nat i) lst !! 0%nat)
      by (rewrite lookup_drop; f_equal; lia).
    rewrite Hdrop, lookup_drop. do 2 f_equal. lia. }
  assert (Hdrop' : drop (Z.to_nat (i + 1)) lst = drop (Z.to_nat (i + 1)) fl).
  { replace (Z.to_nat (i + 1)) with (Z.to_nat i + 1)%nat by lia.
    by rewrite <- !drop_drop, Hdrop. }
  assert (Hn : n_pos (i + 1) = n_pos i + (if decide (rd fl i > 0) then 1 else 0)).
  { unfold n_pos. rewrite n_pos_succ, length_app by done. case_decide; simpl; lia. }
  rewrite Hrd. unfold compacted. case_decide as Hpos; cbn [fst snd].
  - rewrite length_wr, Hn. split; [done|]. split; [lia|]. split; [|split; [|lia]].
    + rewrite n_pos_succ, decide_True by done.
      replace (Z.to_nat (n_pos i + 1)) with (S (Z.to_nat (n_pos i))) by (unfold n_pos; lia).
      unfold wr. rewrite decide_True by (unfold n_pos in *; lia).
      rewrite Hnew.
      rewrite (take_S_r _ _ (rd fl i)) by (apply list_lookup_insert_eq; lia).
      rewrite take_insert_ge by lia. by rewrite Htake.
    + unfold wr. rewrite decide_True by (unfold n_pos in *; lia).
      rewrite drop_insert_lt by lia. done.
  - rewrite Hn, n_pos_succ, decide_False, ?app_nil_r by done.
    rewrite Z.add_0_r. split; [done|]. split; [done|]. split; [done|]. split; [done|lia].
Qed.

Context (n : Z).
Hypothesis Hn : 0 ≤ n.
Hypothesis Hlen : Z.of_nat (length idx0) = n + 1.
Hypothesis Hfirst : rd idx0 0 = 1.
Hypothesis Hmono : ∀ c1 c2, 0 ≤ c1 → c1 ≤ c2 → c2 ≤ n → rd idx0 c1 ≤ rd idx0 c2.
Hypothesis Hlast : rd idx0 n - 1 = Z.of_nat (length fl).

Lemma delete_negative_spec :
  let '(idx, lst, _, _, _) :=
    foldl (λ '(cell_cells_idx, cell_cells_lst, previous_idx, new_idx, n_deleted_cells) cell_id,
      let '(cell_cells_lst, new_idx, n_deleted_cells) :=
        foldl (λ '(cell_cells_lst, new_idx, n_deleted_cells) i,
          if decide (rd cell_cells_lst i > 0) then
            let new_idx := new_idx + 1 in
            (wr cell_cells_lst new_idx (rd cell_cells_lst i), new_idx, n_deleted_cells)
          else (cell_cells_lst, new_idx, n_deleted_cells + 1))
        (cell_cells_lst, new_idx, n_deleted_cells)
        (range previous_idx (rd cell_cells_idx (cell_id + 1) - 1)) in
      let previous_idx := rd cell_cells_idx (cell_id + 1) - 1 in
      (wr cell_cells_idx (cell_id + 1) (rd cell_cells_idx (cell_id + 1) - n_deleted_cells),
       cell_cells_lst, previous_idx, new_idx, n_deleted_cells))
    (idx0, fl, 0, -1, 0) (range 0 n) in
  length idx = length idx0 ∧
  (∀ c, 0 ≤ c ≤ n → rd idx c = 1 + n_pos (rd idx0 c - 1)) ∧
  bft_realloc lst (rd idx n - 1) = filter (λ x, x > 0) fl.
Proof.
  match goal with |- context [foldl ?f ?s (range 0 n)] =>
    pose proof (foldl_range_ind (λ c (st : list Z * list Z * Z * Z * Z),
      let '(idx, lst, prev, new_idx, n_del) := st in
      length idx = length idx0 ∧
      prev = rd idx0 c - 1 ∧
      compacted prev (lst, new_idx, n_del) ∧
      (∀ c', 0 ≤ c' ≤ c → rd idx c' = 1 + n_pos (rd idx0 c' - 1)) ∧
      (∀ c', c < c' ≤ n → rd idx c' = rd idx0 c'))
      f s 0 n Hn) as H;
    destruct (foldl f s (range 0 n)) as [[[[idx lst] prev] new_idx] n_del]
  end.
  destruct H as (Hl & Hprev & Hc & Hlow & _).
  - split; [done|]. split; [lia|]. split; [|split; [|done]].
    + unfold compacted, n_pos. cbn. repeat split; lia.
    + intros c' Hc'. assert (c' = 0) as -> by lia. rewrite Hfirst.
      replace (1 - 1) with 0 by lia. unfold n_pos. simpl. lia.
  - intros c [[[[idx1 lst1] prev1] new_idx1] n_del1] Hc (Hl & Hprev & Hcomp & Hlow & Hhigh).
    rewrite (Hhigh (c + 1)) by lia.
    pose proof (Hmono c (c + 1) ltac:(lia) ltac:(lia) ltac:(lia)) as Hm.
    pose proof (Hmono 0 c ltac:(lia) ltac:(lia) ltac:(lia)) as Hm0.
    pose proof (Hmono (c + 1) n ltac:(lia) ltac:(lia) ltac:(lia)) as Hmn.
    match goal with |- context [foldl ?g (lst1, new_idx1, n_del1) (range prev1 ?b)] =>
      pose proof (foldl_range_ind compacted g (lst1, new_idx1, n_del1) prev1 b
                    ltac:(lia) Hcomp) as Hin;
      destruct (foldl g (lst1, new_idx1, n_del1) (range prev1 b)) as [[lst' new_idx'] n_del']
    end.
    specialize (Hin ltac:(intros i [[l ni] nd] Hi Hst;
                          apply (compact_step i (l, ni, nd)); [lia|done])).
    cbv beta iota zeta. rewrite length_wr. split; [done|]. split; [done|]. split; [done|]. split.
    + intros c' Hc'. rewrite rd_wr by lia. case_decide as E.
      * assert (c' = c + 1) as -> by lia.
        destruct Hin as (_ & _ & _ & _ & Hdel). cbn [snd] in Hdel. lia.
      * apply Hlow. lia.
    + intros c' Hc'. rewrite rd_wr_ne by lia. apply Hhigh. lia.
  - split; [done|]. split; [done|].
    destruct Hc as (Hll & _ & Htake & _ & _). cbn [fst snd] in *.
    rewrite (Hlow n) by lia. rewrite Hprev, Hlast in Htake. rewrite Hlast.
    rewrite Nat2Z.id, firstn_all in Htake. unfold bft_realloc.
    replace (1 + n_pos (Z.of_nat (length fl)) - 1) with (n_pos (Z.of_nat (length fl))) by lia.
    rewrite Htake.
    pose proof (n_pos_le (Z.of_nat (length fl)) ltac:(lia)).
    replace (Z.to_nat (n_pos (Z.of_nat (length fl))) - length lst)%nat with 0%nat by lia.
    simpl. by rewrite app_nil_r.
Qed.

End Compaction.

End FilterProofs.

Section FilterRows.

Lemma filter_segment {A} (P : A → Prop) `{∀ x, Decision (P x)} (l : list A) (a b : nat) :
  (a ≤ b)%nat →
  take (length (filter P (take b l)) - length (filter P (take a l)))
       (drop (length (filter P (take a l))) (filter P l))
  = filter P (take (b - a) (drop a l)).
Proof.
  intros Hab.
  assert (Hb : take b l = take a l ++ take (b - a) (drop a l)).
  { rewrite take_take_drop. f_equal. lia. }
  assert (Hl : filter P l = filter P (take a l)
                 ++ filter P (take (b - a) (drop a l)) ++ filter P (drop b l)).
  { rewrite <- (take_drop b l) at 1. by rewrite Hb, !filter_app, <- app_assoc. }
  rewrite Hl, Hb, filter_app, length_app, drop_app_length.
  apply take_app_length'. lia.
Qed.

Lemma segment_range (l : list Z) (a b : Z) :
  0 ≤ a → a ≤ b → b ≤ Z.of_nat (length l) →
  take (Z.to_nat (b - a)) (drop (Z.to_nat a) l) = rd l <$> range a b.
Proof.
  intros Ha Hab Hb. apply list_eq. intros i.
  rewrite list_lookup_fmap. unfold range.
  destruct (decide (Z.of_nat i < b - a)) as [Hi|Hi].
  - rewrite lookup_take_lt by lia. rewrite lookup_drop, lookup_seqZ_lt by lia. simpl.
    replace (Z.to_nat a + i)%nat with (Z.to_nat (a + Z.of_nat i)) by lia.
    apply lookup_rd. lia.
  - rewrite lookup_take_ge by lia. by rewrite lookup_seqZ_ge by lia.
Qed.

Lemma filter_pointwise (P1 P2 : Z → Prop) `{∀ x, Decision (P1 x)} `{∀ x, Decision (P2 x)}
    (l1 l2 : list Z) (ps : list Z) :
  (∀ p, p ∈ ps → (P1 (rd l1 p) ↔ P2 (rd l2 p)) ∧ (P1 (rd l1 p) → rd l1 p = rd l2 p)) →
  filter P1 (rd l1 <$> ps) = filter P2 (rd l2 <$> ps).
Proof.
  induction ps as [|p ps IH]; intros Hp; [done|].
  rewrite !fmap_cons, !filter_cons.
  destruct (Hp p ltac:(by left)) as [Hiff Heq].
  rewrite IH by (intros q Hq; apply Hp; by right).
  destruct (decide (P1 (rd l1 p))) as [H1|H1].
  - rewrite decide_True by tauto. by rewrite Heq.
  - by rewrite decide_False by tauto.
Qed.

End FilterRows.


(** ** Two-pass builders over a marker array *)

Section TwoPass.

(** Pairs whose source is the same form a non-decreasing list. *)
Lemma nondecr_same_source c (ps : list (Z * Z)) :
  Forall (λ p, p.1 = c) ps → nondecr ps.
Proof.
  induction 1 as [|p ps Hp Hps IH]; [done|]. split; [|done].
  eapply Forall_impl; [exact Hps|]. intros q Hq. simpl in *. lia.
Qed.

(** A loop on increasing sources, each contributing pairs of its own. *)
Lemma nondecr_bind_range (g : Z → list (Z * Z)) (k : nat) : ∀ a,
  (∀ c, Forall (λ p, p.1 = c) (g c)) →
  nondecr (range a (a + Z.of_nat k) ≫= g).
Proof.
  unfold range. induction k as [|k IH]; intros a Hg.
  - by rewrite seqZ_nil by lia.
  - rewrite seqZ_cons by lia. rewrite bind_cons. apply nondecr_app.
    + by apply (nondecr_same_source a).
    + replace (Z.pred (a + Z.of_nat (S k) - a)) with (a + 1 + Z.of_nat k - (a + 1)) by lia.
      by apply IH.
    + intros p q Hp (c & Hq & Hc%elem_of_seqZ)%list_elem_of_bind.
      pose proof (Hg a) as Ha. pose proof (Hg c) as Hc'.
      rewrite Forall_forall in Ha, Hc'. rewrite (Ha _ Hp), (Hc' _ Hq). lia.
Qed.

Lemma nondecr_bind (g : Z → list (Z * Z)) a b :
  (∀ c, Forall (λ p, p.1 = c) (g c)) → nondecr (range a b ≫= g).
Proof.
  intros Hg. destruct (decide (a ≤ b)).
  - replace b with (a + Z.of_nat (Z.to_nat (b - a))) by lia. by apply nondecr_bind_range.
  - by rewrite range_nil by lia.
Qed.

Lemma length_final_checker ps : ∀ c, length (final_checker c ps) = length c.
Proof.
  induction ps as [|p ps IH]; intros c; [done|]. simpl.
  case_decide; rewrite IH, ?length_wr; done.
Qed.

(** The adjacency built from a list of (source, target) pairs by the index
    pass, the prefix sum and the list pass, each pass guarded by a fresh
    marker array: row [v] holds the sources paired with [v], once each. *)
Lemma guarded_two_pass n (pairs : list (Z * Z)) :
  0 ≤ n → nondecr pairs → pairs_ok n pairs →
  let ck0 := replicate (Z.to_nat n) (-1) in
  let ev := rev_events (fired ck0 pairs) in
  let idx := sum_index n (foldl count_event (replicate (Z.to_nat (n + 1)) 0) ev.*1) in
  let lst := (foldl (place 0 idx) (replicate (Z.to_nat n) 0, bft_malloc (rd idx n)) ev).2 in
  rd idx 0 = 0 ∧ Z.of_nat (length idx) = n + 1 ∧
  Z.of_nat (length lst) = rd idx n ∧
  (∀ v1 v2, 0 ≤ v1 → v1 ≤ v2 → v2 ≤ n → rd idx v1 ≤ rd idx v2) ∧
  ∀ v, 0 ≤ v < n →
    NoDup (csr_row 0 idx lst v) ∧
    ∀ id, id ∈ csr_row 0 idx lst v ↔ (id, v) ∈ pairs.
Proof.
  intros Hn Hnd Hpairs ck0 ev.
  destruct (fired_fresh n pairs Hnd Hpairs Hn) as [HFnd HFmem]. fold ck0 in HFnd, HFmem.
  assert (Hev : rows_ok n ev).
  { apply Forall_forall. intros ev0 ([id v] & -> & Hin%HFmem)%list_elem_of_fmap.
    unfold pairs_ok in Hpairs. rewrite Forall_forall in Hpairs. apply (Hpairs _ Hin). }
  destruct (count_events n ev (replicate (Z.to_nat (n + 1)) 0) Hev) as (Hl0 & Hz0 & Hc0);
    [rewrite length_replicate; lia|].
  set (c0 := foldl count_event (replicate (Z.to_nat (n + 1)) 0) ev.*1) in *.
  rewrite length_replicate in Hl0.
  destruct (sum_index_spec n c0) as (Hlidx & H0 & Hk); [lia|done|].
  intros idx. fold idx in Hlidx, H0, Hk.
  assert (Hidx0 : rd idx 0 = 0).
  { rewrite H0, Hz0. apply rd_replicate. lia. }
  assert (Hidx : ∀ k, 0 ≤ k < n → rd idx (k + 1) = rd idx k + occ k ev).
  { intros k Hk'. rewrite (Hk k Hk'), (Hc0 k Hk'), rd_replicate by lia. lia. }
  assert (Hge : 0 ≤ rd idx n).
  { rewrite <- Hidx0. eapply index_le; [done|lia|lia|lia]. }
  intros lst.
  destruct (buckets_rows n 0 idx lst
              (replicate (Z.to_nat n) 0) (bft_malloc (rd idx n)) ev Hn Hev Hidx0 Hidx)
    as [Hlen Hrows]; [| | |done|].
  { unfold bft_malloc. rewrite length_replicate. lia. }
  { rewrite length_replicate. lia. }
  { intros r Hr. apply rd_replicate. lia. }
  split; [done|]. split; [lia|]. split; [lia|]. split.
  { intros v1 v2 ? ? ?. eapply index_le; [exact Hidx|lia|lia|lia]. }
  intros v Hv. rewrite (Hrows v Hv). split.
  - by apply vals_rev_events_NoDup.
  - intros id. unfold ev. rewrite vals_rev_events. apply HFmem.
Qed.

End TwoPass.

Section Connect2Proofs.

Lemma foldl_triple {S1 S2 S3 A : Type} (f : S1 → A → S1) (g : S2 → A → S2)
    (h : S3 → A → S3) (l : list A) :
  ∀ a b c, foldl (λ '(a, b, c) i, (f a i, g b i, h c i)) (a, b, c) l
           = (foldl f a l, foldl g b l, foldl h c l).
Proof. induction l as [|x l IH]; intros a b c; [done|]. simpl. apply IH. Qed.

(** [for (i = 0; i < n; i++) a[i + off] = x] on an array of that length. *)
Lemma fill_all (a : list Z) x n :
  0 ≤ n → Z.of_nat (length a) = n →
  foldl (λ a i, wr a i x) a (range 0 n) = replicate (Z.to_nat n) x.
Proof.
  intros Hn Hl.
  rewrite (foldl_ext_in _ (λ a i, wr a (i + 0) x)) by (intros; by rewrite Z.add_0_r).
  destruct (fill_const a 0 x n) as [Hl1 Hr1]; [lia|lia|lia|].
  apply array_ext; [rewrite Hl1, length_replicate; lia|].
  intros k Hk. rewrite Hl1 in Hk. rewrite Hr1, rd_replicate by lia.
  by rewrite decide_True by lia.
Qed.

(** The same for an index array: entry 0 first, then entries 1 to n. *)
Lemma fill_index (a : list Z) n :
  0 ≤ n → Z.of_nat (length a) = n + 1 →
  foldl (λ a i, wr a (i + 1) 0) (wr a 0 0) (range 0 n) = replicate (Z.to_nat (n + 1)) 0.
Proof.
  intros Hn Hl.
  destruct (fill_const (wr a 0 0) 1 0 n) as [Hl1 Hr1]; [lia|lia|rewrite length_wr; lia|].
  rewrite length_wr in Hl1.
  apply array_ext; [rewrite Hl1, length_replicate; lia|].
  intros k Hk. rewrite Hl1 in Hk. rewrite Hr1, rd_replicate by lia.
  case_decide; [done|]. assert (k = 0) as -> by lia. apply rd_wr_eq. lia.
Qed.

Context (mesh : cs_mesh_t).
Context (cell_i_faces_idx cell_i_faces_lst : list Z).

(** The (cell, vertex) pairs in the order the two passes of
    [_create_vtx_cells_connect2] read them: for each local cell, each entry
    of its row of faces, each vertex of that face; vertices from 0. *)
Definition cell_vtx_pairs : list (Z * Z) :=
  range 0 (n_cells mesh) ≫= λ cell_id,
    range (rd cell_i_faces_idx cell_id) (rd cell_i_faces_idx (cell_id + 1)) ≫= λ i,
      let fac_id := Z.abs (rd cell_i_faces_lst (i - 1)) - 1 in
      (λ i_vtx, (cell_id, rd (i_face_vtx_lst mesh) (i_vtx - 1) - 1))
        <$> range (rd (i_face_vtx_idx mesh) fac_id) (rd (i_face_vtx_idx mesh) (fac_id + 1)).

Lemma elem_of_cell_vtx_pairs c v :
  (c, v) ∈ cell_vtx_pairs ↔
  0 ≤ c < n_cells mesh ∧
  ∃ i i_vtx,
    rd cell_i_faces_idx c ≤ i < rd cell_i_faces_idx (c + 1) ∧
    rd (i_face_vtx_idx mesh) (Z.abs (rd cell_i_faces_lst (i - 1)) - 1) ≤ i_vtx
      < rd (i_face_vtx_idx mesh) (Z.abs (rd cell_i_faces_lst (i - 1)) - 1 + 1) ∧
    v = rd (i_face_vtx_lst mesh) (i_vtx - 1) - 1.
Proof.
  unfold cell_vtx_pairs. rewrite list_elem_of_bind. split.
  - intros (c' & (i & (j & [= -> ->] & Hj%elem_of_range)%list_elem_of_fmap
              & Hi%elem_of_range)%list_elem_of_bind & Hc%elem_of_range).
    split; [lia|]. by exists i, j.
  - intros (Hc & i & j & Hi & Hj & ->). exists c. rewrite elem_of_range. split; [|lia].
    apply list_elem_of_bind. exists i. rewrite elem_of_range. split; [|done].
    apply list_elem_of_fmap. exists j. by rewrite elem_of_range.
Qed.

Lemma cell_vtx_pairs_nondecr : nondecr cell_vtx_pairs.
Proof.
  apply nondecr_bind. intros c. apply Forall_forall.
  intros p (i & (j & -> & _)%list_elem_of_fmap & _)%list_elem_of_bind. done.
Qed.

(** The vertex -> cells connectivity of [_create_vtx_cells_connect2]: the
    index starts at 0, is non-decreasing and covers the list; the row of
    every vertex has no repeated entry and holds the local cell [c] exactly
    when one of the faces listed for [c] has that vertex. *)
Lemma vtx_cells_connect2_rows :
  0 ≤ n_vertices mesh →
  (∀ c v, (c, v) ∈ cell_vtx_pairs → 0 ≤ v < n_vertices mesh) →
  let r := _create_vtx_cells_connect2 mesh cell_i_faces_idx cell_i_faces_lst in
  rd r.1 0 = 0 ∧
  Z.of_nat (length r.1) = n_vertices mesh + 1 ∧
  Z.of_nat (length r.2) = rd r.1 (n_vertices mesh) ∧
  (∀ v1 v2, 0 ≤ v1 → v1 ≤ v2 → v2 ≤ n_vertices mesh → rd r.1 v1 ≤ rd r.1 v2) ∧
  ∀ v, 0 ≤ v < n_vertices mesh →
    NoDup (csr_row 0 r.1 r.2 v) ∧
    ∀ c, c ∈ csr_row 0 r.1 r.2 v ↔ (c, v) ∈ cell_vtx_pairs.
Proof.
  intros Hn Hvalid.
  set (n := n_vertices mesh) in *.
  assert (Hpairs : pairs_ok n cell_vtx_pairs).
  { apply Forall_forall. intros [c v] Hin. pose proof (Hvalid c v Hin).
    apply elem_of_cell_vtx_pairs in Hin as (Hc & _). simpl. lia. }
  pose proof (guarded_two_pass n cell_vtx_pairs Hn cell_vtx_pairs_nondecr Hpairs) as H.
  cbv zeta in H.
  set (ck0 := replicate (Z.to_nat n) (-1)) in *.
  set (F := fired ck0 cell_vtx_pairs) in *.
  set (ev := rev_events F) in *.
  set (idx := sum_index n (foldl count_event (replicate (Z.to_nat (n + 1)) 0) ev.*1)) in *.
  set (lst := (foldl (place 0 idx) (replicate (Z.to_nat n) 0, bft_malloc (rd idx n)) ev).2) in *.
  assert (E : _create_vtx_cells_connect2 mesh cell_i_faces_idx cell_i_faces_lst = (idx, lst));
    [|by rewrite E].
  unfold _create_vtx_cells_connect2. cbv zeta. fold n.
  rewrite (foldl_triple (λ a i, wr a (i + 1) 0) (λ b i, wr b i (-1)) (λ c i, wr c i 0)).
  rewrite fill_index by (unfold bft_malloc; rewrite ?length_replicate; lia).
  rewrite !fill_all
    by (unfold bft_malloc; rewrite ?length_take, ?length_drop, ?length_replicate; lia).
  fold ck0.
  (* the index pass *)
  assert (Hpass1 :
    foldl (λ st cell_id,
      foldl (λ st i,
        foldl (λ '(vtx_tag, vtx_cells_idx) i_vtx,
          if decide (rd vtx_tag (rd (i_face_vtx_lst mesh) (i_vtx - 1) - 1) ≠ cell_id) then
            (wr vtx_tag (rd (i_face_vtx_lst mesh) (i_vtx - 1) - 1) cell_id,
             wr vtx_cells_idx (rd (i_face_vtx_lst mesh) (i_vtx - 1) - 1 + 1)
                (rd vtx_cells_idx (rd (i_face_vtx_lst mesh) (i_vtx - 1) - 1 + 1) + 1))
          else (vtx_tag, vtx_cells_idx))
        st (range (rd (i_face_vtx_idx mesh) (Z.abs (rd cell_i_faces_lst (i - 1)) - 1))
                  (rd (i_face_vtx_idx mesh) (Z.abs (rd cell_i_faces_lst (i - 1)) - 1 + 1))))
      st (range (rd cell_i_faces_idx cell_id) (rd cell_i_faces_idx (cell_id + 1))))
    (ck0, replicate (Z.to_nat (n + 1)) 0) (range 0 (n_cells mesh))
    = (final_checker ck0 cell_vtx_pairs,
       foldl count_event (replicate (Z.to_nat (n + 1)) 0) ev.*1)).
  { transitivity (foldl (guarded (λ idx p, count_event idx p.2))
                    (ck0, replicate (Z.to_nat (n + 1)) 0) cell_vtx_pairs).
    - unfold cell_vtx_pairs. rewrite foldl_bind. apply foldl_ext_in. intros st c _.
      rewrite foldl_bind. apply foldl_ext_in. intros st' i _.
      cbv zeta. rewrite foldl_fmap. apply foldl_ext_in. intros [ck vi] j _.
      unfold guarded, count_event. cbn [fst snd]. by case_decide.
    - rewrite guarded_fold. f_equal. unfold ev, rev_events. fold F.
      by rewrite <- list_fmap_compose, foldl_fmap. }
  rewrite Hpass1.
  (* the prefix sum *)
  rewrite (foldl_pair (λ a i, wr a (i + 1) (rd a (i + 1) + rd a i)) (λ b i, wr b i (-1))).
  assert (Hsum : foldl (λ a i, wr a (i + 1) (rd a (i + 1) + rd a i))
                   (foldl count_event (replicate (Z.to_nat (n + 1)) 0) ev.*1) (range 0 n)
                 = idx).
  { unfold idx, sum_index. apply foldl_ext_in. intros a i _. f_equal. lia. }
  rewrite Hsum.
  rewrite fill_all by (rewrite ?length_final_checker; unfold ck0; rewrite ?length_replicate; lia).
  fold ck0.
  (* the list pass *)
  match goal with |- context [foldl ?f (replicate (Z.to_nat n) 0, ck0, ?l0) ?r] =>
    assert (Hpass2 : (foldl f (replicate (Z.to_nat n) 0, ck0, l0) r).2 = lst);
      [|destruct (foldl f (replicate (Z.to_nat n) 0, ck0, l0) r) as [[? ?] ?];
        cbn [snd] in Hpass2; by subst]
  end.
  match goal with |- (?x).2 = _ => change (x.2) with ((regroup x).2.2) end.
  transitivity ((foldl (guarded (λ st p, place 0 idx st (p.2, p.1)))
                   (regroup (replicate (Z.to_nat n) 0, ck0, bft_malloc (rd idx n)))
                   cell_vtx_pairs).2.2).
  - f_equal. f_equal. unfold cell_vtx_pairs. rewrite foldl_bind. apply foldl_morph.
    intros st c. rewrite foldl_bind. apply foldl_morph.
    intros st' i. cbv zeta. rewrite foldl_fmap. apply foldl_morph.
    intros [[cnt ck] l] j. unfold guarded, place, regroup. cbn [fst snd].
    case_decide; [|done]. by rewrite Z.sub_0_r.
  - unfold regroup. cbn [fst snd]. rewrite guarded_fold. cbn [fst snd]. fold F.
    unfold lst, ev, rev_events. by rewrite foldl_fmap.
Qed.

End Connect2Proofs.

Section TaggedDedup.

(** A marker array shared by two kinds of steps: a mark [(false, (id, v))]
    sets [tag[v]] to [id]; a try [(true, (id, v))] acts only when [tag[v]]
    is not [id], and then sets it. *)
Definition tagged {T : Type} (act : T → Z * Z → T) (st : list Z * T)
    (it : bool * (Z * Z)) : list Z * T :=
  if it.1 then guarded act st it.2 else (wr st.1 it.2.2 it.2.1, st.2).

(** The tries that act, and the marker array they leave. *)
Fixpoint acted (tag : list Z) (items : list (bool * (Z * Z))) : list (Z * Z) :=
  match items with
  | [] => []
  | it :: items' =>
      if decide (rd tag it.2.2 ≠ it.2.1)
      then (if it.1 then [it.2] else []) ++ acted (wr tag it.2.2 it.2.1) items'
      else acted tag items'
  end.

Fixpoint final_tag (tag : list Z) (items : list (bool * (Z * Z))) : list Z :=
  match items with
  | [] => tag
  | it :: items' =>
      if decide (rd tag it.2.2 ≠ it.2.1) then final_tag (wr tag it.2.2 it.2.1) items'
      else final_tag tag items'
  end.

Lemma tagged_fold {T : Type} (act : T → Z * Z → T) items : ∀ tag t,
  foldl (tagged act) (tag, t) items
  = (final_tag tag items, foldl act t (acted tag items)).
Proof.
  induction items as [|[b p] items IH]; intros tag t; [done|].
  cbn [foldl acted final_tag fst snd]. unfold tagged at 2. cbn [fst snd].
  destruct b.
  - unfold guarded. cbn [fst snd]. case_decide; by rewrite IH.
  - case_decide as Hd; [by rewrite IH|].
    rewrite <- Hd, wr_rd_id. by rewrite IH.
Qed.

Lemma length_final_tag items : ∀ tag, length (final_tag tag items) = length tag.
Proof.
  induction items as [|it items IH]; intros tag; [done|]. simpl.
  case_decide; rewrite IH, ?length_wr; done.
Qed.

(** No try is followed by a mark of the same pair. *)
Fixpoint marks_first (items : list (bool * (Z * Z))) : Prop :=
  match items with
  | [] => True
  | it :: items' => (it.1 = true → (false, it.2) ∉ items') ∧ marks_first items'
  end.

Lemma marks_first_app l1 l2 :
  marks_first l1 → marks_first l2 →
  (∀ q, (true, q) ∈ l1 → (false, q) ∉ l2) →
  marks_first (l1 ++ l2).
Proof.
  induction l1 as [|[b p] l1 IH]; intros H1 H2 H12; [done|].
  destruct H1 as [Hp H1]. cbn [app marks_first fst snd] in *. split.
  - intros ->. rewrite elem_of_app. intros [Hin|Hin]; [by apply Hp|].
    apply (H12 p); [by left|done].
  - apply IH; [done|done|]. intros q Hq. apply H12. by right.
Qed.

Context (n : Z).

Lemma acted_spec items : ∀ seen tag,
  Z.of_nat (length tag) = n →
  checker_inv n tag seen →
  (∀ p q, p ∈ seen → q ∈ (items.*2) → p.1 ≤ q.1) →
  nondecr (items.*2) → pairs_ok n (items.*2) → marks_first items →
  NoDup (acted tag items) ∧
  ∀ q, q ∈ acted tag items ↔ (true, q) ∈ items ∧ ((false, q) ∉ items) ∧ (q ∉ seen).
Proof.
  induction items as [|[b [id v]] items IH]; intros seen tag Hlen Hinv Hle Hnd Hok Hmf.
  - simpl. split; [apply NoDup_nil_2|]. intros q.
    split; [by intros ?%elem_of_nil|by intros [?%elem_of_nil _]].
  - rewrite fmap_cons in Hle, Hnd, Hok. cbn [snd] in Hle, Hnd, Hok.
    destruct Hnd as [Hhead Hnd]. inversion Hok as [|? ? [Hid Hv] Hok']; subst.
    destruct Hmf as [Hmf1 Hmf]. simpl in Hid, Hv, Hmf1.
    cbn [acted fst snd]. case_decide as Hck.
    + assert (Hnew : (id, v) ∉ seen).
      { intros Hin. destruct (Hinv v Hv) as [[_ Hnone]|[Hmax Hall]].
        - by apply (Hnone id).
        - apply Hck. pose proof (Hall _ Hin).
          pose proof (Hle _ (id, v) Hmax ltac:(by left)). simpl in *. lia. }
      destruct (IH ((id, v) :: seen) (wr tag v id)) as [Hnodup Hmem];
        [by rewrite length_wr| | |done|done|done|].
      * intros v' Hv'. destruct (decide (v' = v)) as [->|Hne].
        -- right. rewrite rd_wr_eq by lia. split; [by left|].
           intros id' [E|Hin]%elem_of_cons; [injection E as ->; lia|].
           apply (Hle _ (id, v) Hin). by left.
        -- rewrite rd_wr_ne by done.
           destruct (Hinv v' Hv') as [[H1 Hnone]|[Hmax Hall]].
           ++ left. split; [done|]. intros id' [E|Hin]%elem_of_cons; [congruence|].
              by apply (Hnone id').
           ++ right. split; [by right|].
              intros id' [E|Hin]%elem_of_cons; [congruence|]. by apply Hall.
      * intros p q [->|Hp]%elem_of_cons Hq.
        -- rewrite Forall_forall in Hhead. by apply Hhead.
        -- apply Hle; [done|by right].
      * destruct b; cbn [app].
        -- split.
           ++ apply NoDup_cons. split; [|done]. rewrite Hmem. intros (_ & _ & Hn).
              apply Hn. by left.
           ++ intros q. rewrite !elem_of_cons, Hmem, !elem_of_cons.
              destruct (decide (q = (id, v))) as [->|Hq].
              ** specialize (Hmf1 eq_refl). split; [|by left].
                 intros _. split; [by left|]. split; [|done].
                 intros [E|Hin]; [discriminate|done].
              ** split.
                 --- intros [E|(H1 & H2 & H3)]; [done|]. split; [by right|].
                     split; [|tauto]. intros [E|Hin]; [discriminate|done].
                 --- intros ([E|H1] & H2 & H3); [injection E as ->; done|].
                     right. split; [done|]. split; [tauto|]. tauto.
        -- split; [done|]. intros q. rewrite Hmem, !elem_of_cons.
           destruct (decide (q = (id, v))) as [->|Hq].
           ++ split; [tauto|]. intros (_ & H2 & _). exfalso. apply H2. by left.
           ++ split.
              ** intros (H1 & H2 & H3). split; [by right|].
                 split; [|tauto]. intros [E|Hin]; [injection E as ->; done|done].
              ** intros ([E|H1] & H2 & H3); [discriminate|].
                 split; [done|]. split; [tauto|tauto].
    + assert (Hold : (id, v) ∈ seen).
      { destruct (Hinv v Hv) as [[H1 _]|[Hmax _]]; [lia|].
        by rewrite Hck in Hmax. }
      destruct (IH seen tag) as [Hnodup Hmem]; [done|done| |done|done|done|].
      * intros p q Hp Hq. apply Hle; [done|by right].
      * split; [done|]. intros q. rewrite Hmem, !elem_of_cons.
        destruct (decide (q = (id, v))) as [->|Hq]; [tauto|].
        split.
        -- intros (H1 & H2 & H3). split; [by right|]. split; [|done].
           intros [E|Hin]; [injection E as _ ->; done|done].
        -- intros ([E|H1] & H2 & H3); [injection E as _ ->; done|].
           split; [done|]. split; [tauto|done].
Qed.

End TaggedDedup.

Section TaggedTwoPass.

(** The adjacency built from a list of marks and tries by the index pass,
    the prefix sum and the list pass, when the rows are filled in the order
    of their sources: row [c] holds [x + 1] for the targets [x] tried, and
    not marked, with source [c], once each. *)
Lemma tagged_two_pass n_rows n_tag (items : list (bool * (Z * Z))) :
  0 ≤ n_rows → 0 ≤ n_tag →
  nondecr (items.*2) → pairs_ok n_tag (items.*2) →
  Forall (λ it, it.2.1 < n_rows) items → marks_first items →
  let tag0 := replicate (Z.to_nat n_tag) (-1) in
  let ev := (λ p, (p.1, p.2 + 1)) <$> acted tag0 items in
  let idx := sum_index n_rows
               (foldl count_event (wr (replicate (Z.to_nat (n_rows + 1)) 0) 0 1) ev.*1) in
  let lst := (foldl (place 1 idx)
                (replicate (Z.to_nat n_rows) 0, bft_malloc (rd idx n_rows - 1)) ev).2 in
  rd idx 0 = 1 ∧ Z.of_nat (length idx) = n_rows + 1 ∧
  Z.of_nat (length lst) = rd idx n_rows - 1 ∧
  (∀ c1 c2, 0 ≤ c1 → c1 ≤ c2 → c2 ≤ n_rows → rd idx c1 ≤ rd idx c2) ∧
  ∀ c, 0 ≤ c < n_rows →
    NoDup (csr_row 1 idx lst c) ∧
    ∀ y, y ∈ csr_row 1 idx lst c
         ↔ (true, (c, y - 1)) ∈ items ∧ ((false, (c, y - 1)) ∉ items).
Proof.
  intros Hn Hnt Hnd Hpairs Hrows Hmf tag0.
  destruct (acted_spec n_tag items [] tag0) as [HAnd HAmem]; try done.
  { unfold tag0. rewrite length_replicate. lia. }
  { intros v Hv. left. split; [apply rd_replicate; lia|]. intros id. apply not_elem_of_nil. }
  { intros p q Hp. by apply elem_of_nil in Hp. }
  set (A := acted tag0 items) in *.
  intros ev.
  assert (HA : ∀ p, p ∈ A → 0 ≤ p.1 < n_rows).
  { intros p (Hin & _)%HAmem. split.
    - unfold pairs_ok in Hpairs. rewrite Forall_forall in Hpairs.
      apply (Hpairs p). apply list_elem_of_fmap. by exists (true, p).
    - rewrite Forall_forall in Hrows. apply (Hrows _ Hin). }
  assert (Hev : rows_ok n_rows ev).
  { apply Forall_forall. intros e (p & -> & Hp)%list_elem_of_fmap. exact (HA p Hp). }
  destruct (count_events n_rows ev (wr (replicate (Z.to_nat (n_rows + 1)) 0) 0 1) Hev)
    as (Hl0 & Hz0 & Hc0); [rewrite length_wr, length_replicate; lia|].
  set (c0 := foldl count_event (wr (replicate (Z.to_nat (n_rows + 1)) 0) 0 1) ev.*1) in *.
  rewrite length_wr, length_replicate in Hl0.
  destruct (sum_index_spec n_rows c0) as (Hlidx & H0 & Hk); [lia|done|].
  intros idx. fold idx in Hlidx, H0, Hk.
  assert (Hidx0 : rd idx 0 = 1).
  { rewrite H0, Hz0. apply rd_wr_eq. rewrite length_replicate. lia. }
  assert (Hidx : ∀ k, 0 ≤ k < n_rows → rd idx (k + 1) = rd idx k + occ k ev).
  { intros k Hk'. rewrite (Hk k Hk'), (Hc0 k Hk'), rd_wr_ne, rd_replicate by lia. lia. }
  assert (Hge : 1 ≤ rd idx n_rows).
  { rewrite <- Hidx0. eapply index_le; [done|lia|lia|lia]. }
  intros lst.
  destruct (buckets_rows n_rows 1 idx lst
              (replicate (Z.to_nat n_rows) 0) (bft_malloc (rd idx n_rows - 1)) ev
              Hn Hev Hidx0 Hidx)
    as [Hlen Hrws]; [| | |done|].
  { unfold bft_malloc. rewrite length_replicate. lia. }
  { rewrite length_replicate. lia. }
  { intros r Hr. apply rd_replicate. lia. }
  split; [done|]. split; [lia|]. split; [lia|]. split.
  { intros c1 c2 ? ? ?. eapply index_le; [exact Hidx|lia|lia|lia]. }
  intros c Hc. rewrite (Hrws c Hc). split.
  - unfold vals. apply NoDup_fmap_2_strong.
    + intros [c1 y1] [c2 y2] [H1 _]%list_elem_of_filter [H2 _]%list_elem_of_filter.
      simpl in *. congruence.
    + apply NoDup_filter. unfold ev. apply NoDup_fmap_2_strong; [|done].
      intros [a1 b1] [a2 b2] _ _ [= -> ?]. f_equal. lia.
  - intros y. unfold vals. rewrite list_elem_of_fmap. split.
    + intros ([c' y'] & -> & [Hc' (p & [= -> ->] & Hp)%list_elem_of_fmap]%list_elem_of_filter).
      simpl in Hc'. subst c. cbn [snd]. replace (p.2 + 1 - 1) with p.2 by lia.
      apply HAmem in Hp as (H1 & H2 & _). by destruct p.
    + intros [H1 H2]. exists (c, y). split; [done|]. apply list_elem_of_filter.
      split; [done|]. apply list_elem_of_fmap. exists (c, y - 1).
      split; [simpl; f_equal; lia|]. apply HAmem. repeat split; try done.
      apply not_elem_of_nil.
Qed.

End TaggedTwoPass.

Section CellCellsProofs.

Context (mesh : cs_mesh_t) (n_cells_wghosts : Z).
Context (cell_i_faces_idx cell_i_faces_lst : list Z).
Context (vtx_gcells_idx vtx_gcells_lst : list Z).
Context (vtx_cells_idx vtx_cells_lst : list Z).

(** The face listed at position [i] (from 1) of the cell -> faces list. *)
Definition face_at (i : Z) : Z := Z.abs (rd cell_i_faces_lst (i - 1)) - 1.

(** Cell [x] (from 0) lies on one of the faces listed for cell [c]. *)
Definition face_neighbour (c x : Z) : Prop :=
  ∃ i, rd cell_i_faces_idx c ≤ i < rd cell_i_faces_idx (c + 1) ∧
       (x = rd (i_face_cells mesh) (2 * face_at i) - 1
        ∨ x = rd (i_face_cells mesh) (2 * face_at i + 1) - 1).

(** Cell [x] is listed, in one of the two vertex -> cells connectivities,
    for a vertex of one of the faces listed for cell [c]; a ghost cell is
    numbered after the local ones. *)
Definition vertex_neighbour (c x : Z) : Prop :=
  ∃ i i_vtx,
    rd cell_i_faces_idx c ≤ i < rd cell_i_faces_idx (c + 1) ∧
    rd (i_face_vtx_idx mesh) (face_at i) ≤ i_vtx < rd (i_face_vtx_idx mesh) (face_at i + 1) ∧
    let vtx_id := rd (i_face_vtx_lst mesh) (i_vtx - 1) - 1 in
    (∃ j, rd vtx_cells_idx vtx_id ≤ j < rd vtx_cells_idx (vtx_id + 1) ∧
          x = rd vtx_cells_lst j)
    ∨ (n_cells_wghosts - n_cells mesh > 0 ∧
       ∃ j, rd vtx_gcells_idx vtx_id ≤ j < rd vtx_gcells_idx (vtx_id + 1) ∧
            x = rd vtx_gcells_lst j + n_cells mesh).

(** The steps of one pass for cell [i_cel], in order: the marks of the
    first loop on its faces, then the tries of the second. *)
Definition face_marks (i_cel : Z) : list (bool * (Z * Z)) :=
  range (rd cell_i_faces_idx i_cel) (rd cell_i_faces_idx (i_cel + 1)) ≫= λ i,
    [(false, (i_cel, rd (i_face_cells mesh) (2 * face_at i) - 1));
     (false, (i_cel, rd (i_face_cells mesh) (2 * face_at i + 1) - 1))].

Definition vertex_tries (i_cel : Z) : list (bool * (Z * Z)) :=
  range (rd cell_i_faces_idx i_cel) (rd cell_i_faces_idx (i_cel + 1)) ≫= λ i,
    range (rd (i_face_vtx_idx mesh) (face_at i)) (rd (i_face_vtx_idx mesh) (face_at i + 1))
    ≫= λ i_vtx,
      let vtx_id := rd (i_face_vtx_lst mesh) (i_vtx - 1) - 1 in
      ((λ j, (true, (i_cel, rd vtx_cells_lst j)))
         <$> range (rd vtx_cells_idx vtx_id) (rd vtx_cells_idx (vtx_id + 1))) ++
      (if decide (n_cells_wghosts - n_cells mesh > 0)
       then (λ j, (true, (i_cel, rd vtx_gcells_lst j + n_cells mesh)))
              <$> range (rd vtx_gcells_idx vtx_id) (rd vtx_gcells_idx (vtx_id + 1))
       else []).

Definition cell_items : list (bool * (Z * Z)) :=
  range 0 (n_cells mesh) ≫= λ i_cel, face_marks i_cel ++ vertex_tries i_cel.

Lemma elem_of_face_marks c b p :
  (b, p) ∈ face_marks c ↔ b = false ∧ p.1 = c ∧ face_neighbour c p.2.
Proof.
  unfold face_marks, face_neighbour. rewrite list_elem_of_bind. split.
  - intros (i & Hin & Hi%elem_of_range).
    rewrite !elem_of_cons, elem_of_nil in Hin.
    destruct Hin as [[= -> ->]|[[= -> ->]|[]]]; (split; [done|]); (split; [done|]);
      exists i; (split; [done|]); simpl; tauto.
  - intros (-> & <- & i & Hi & Hx). exists i. rewrite elem_of_range. split; [|done].
    rewrite !elem_of_cons. destruct p as [c x]. simpl in *. destruct Hx as [->| ->]; tauto.
Qed.

Lemma elem_of_vertex_tries c b p :
  (b, p) ∈ vertex_tries c ↔ b = true ∧ p.1 = c ∧ vertex_neighbour c p.2.
Proof.
  unfold vertex_tries, vertex_neighbour. rewrite list_elem_of_bind. split.
  - intros (i & (i_vtx & Hin & Hv%elem_of_range)%list_elem_of_bind & Hi%elem_of_range).
    cbv zeta in Hin. apply elem_of_app in Hin as [Hin|Hin].
    + apply list_elem_of_fmap in Hin as (j & [= -> ->] & Hj%elem_of_range).
      split; [done|]. split; [done|]. exists i, i_vtx. split; [done|]. split; [done|].
      left. by exists j.
    + case_decide as Hg; [|by apply elem_of_nil in Hin].
      apply list_elem_of_fmap in Hin as (j & [= -> ->] & Hj%elem_of_range).
      split; [done|]. split; [done|]. exists i, i_vtx. split; [done|]. split; [done|].
      right. split; [done|]. by exists j.
  - intros (-> & <- & i & i_vtx & Hi & Hv & Hx). exists i. rewrite elem_of_range.
    split; [|done]. apply list_elem_of_bind. exists i_vtx. rewrite elem_of_range.
    split; [|done]. cbv zeta. apply elem_of_app. destruct p as [c x]. simpl in *.
    destruct Hx as [(j & Hj & ->)|(Hg & j & Hj & ->)].
    + left. apply list_elem_of_fmap. exists j. by rewrite elem_of_range.
    + right. rewrite decide_True by done. apply list_elem_of_fmap. exists j.
      by rewrite elem_of_range.
Qed.

Lemma elem_of_cell_items (b : bool) (p : Z * Z) :
  (b, p) ∈ cell_items ↔
  0 ≤ p.1 < n_cells mesh ∧
  (if b then vertex_neighbour p.1 p.2 else face_neighbour p.1 p.2).
Proof.
  unfold cell_items. rewrite list_elem_of_bind. split.
  - intros (c & Hin & Hc%elem_of_range). apply elem_of_app in Hin as [Hin|Hin].
    + apply elem_of_face_marks in Hin as (-> & <- & H). done.
    + apply elem_of_vertex_tries in Hin as (-> & <- & H). done.
  - intros [Hc H]. exists p.1. rewrite elem_of_range. split; [|done].
    apply elem_of_app. destruct b.
    + right. by apply elem_of_vertex_tries.
    + left. by apply elem_of_face_marks.
Qed.

Lemma cell_items_nondecr : nondecr (cell_items.*2).
Proof.
  unfold cell_items. rewrite fmap_bind_list. apply nondecr_bind. intros c.
  apply Forall_forall. intros p ([b p'] & -> & Hin)%list_elem_of_fmap. simpl.
  apply elem_of_app in Hin as [Hin|Hin].
  - by apply elem_of_face_marks in Hin as (_ & -> & _).
  - by apply elem_of_vertex_tries in Hin as (_ & -> & _).
Qed.

Lemma marks_first_marks (l : list (bool * (Z * Z))) :
  Forall (λ it, it.1 = false) l → marks_first l.
Proof.
  induction 1 as [|it l Hit _ IH]; [done|]. split; [|done]. rewrite Hit. done.
Qed.

Lemma marks_first_tries (l : list (bool * (Z * Z))) :
  Forall (λ it, it.1 = true) l → marks_first l.
Proof.
  induction 1 as [|it l Hit Hl IH]; [done|]. split; [|done]. intros _ Hin.
  rewrite Forall_forall in Hl. by specialize (Hl _ Hin).
Qed.

Lemma cell_items_marks_first_range (k : nat) : ∀ a,
  marks_first (range a (a + Z.of_nat k) ≫= λ i_cel, face_marks i_cel ++ vertex_tries i_cel).
Proof.
  unfold range. induction k as [|k IH]; intros a.
  - by rewrite seqZ_nil by lia.
  - rewrite seqZ_cons by lia. rewrite bind_cons. apply marks_first_app.
    + apply marks_first_app.
      * apply marks_first_marks, Forall_forall. intros [b p] Hin.
        by apply elem_of_face_marks in Hin as (-> & _).
      * apply marks_first_tries, Forall_forall. intros [b p] Hin.
        by apply elem_of_vertex_tries in Hin as (-> & _).
      * intros q Hq. by apply elem_of_face_marks in Hq as (? & _).
    + replace (Z.pred (a + Z.of_nat (S k) - a)) with (a + 1 + Z.of_nat k - (a + 1)) by lia.
      apply IH.
    + intros q Hq (c & Hin & Hc%elem_of_seqZ)%list_elem_of_bind.
      assert (q.1 = a) as Ha.
      { apply elem_of_app in Hq as [Hq|Hq].
        - by apply elem_of_face_marks in Hq as (_ & -> & _).
        - by apply elem_of_vertex_tries in Hq as (_ & -> & _). }
      assert (q.1 = c) as Hc'.
      { apply elem_of_app in Hin as [Hin|Hin].
        - by apply elem_of_face_marks in Hin as (_ & -> & _).
        - by apply elem_of_vertex_tries in Hin as (_ & -> & _). }
      lia.
Qed.

Lemma cell_items_marks_first : marks_first cell_items.
Proof.
  unfold cell_items. destruct (decide (0 ≤ n_cells mesh)).
  - replace (n_cells mesh) with (0 + Z.of_nat (Z.to_nat (n_cells mesh))) at 1 by lia.
    apply cell_items_marks_first_range.
  - by rewrite range_nil by lia.
Qed.

Lemma foldl_eq2 {T A C : Type} (f : T → A → T) (g : T → C → T) la lb x y :
  x = y → (∀ s, foldl f s la = foldl g s lb) → foldl f x la = foldl g y lb.
Proof. intros <- H. apply H. Qed.

Lemma foldl_morph2 {T U A C : Type} (h : T → U) (f : T → A → T) (g : U → C → U)
    la lb x y :
  h x = y → (∀ s, h (foldl f s la) = foldl g (h s) lb) →
  h (foldl f x la) = foldl g y lb.
Proof. intros <- H. apply H. Qed.

Lemma fill_index_one n :
  0 ≤ n →
  foldl (λ a i, wr a (i + 1) 0) (wr (replicate (Z.to_nat (n + 1)) 0) 0 1) (range 0 n)
  = wr (replicate (Z.to_nat (n + 1)) 0) 0 1.
Proof.
  intros Hn.
  destruct (fill_const (wr (replicate (Z.to_nat (n + 1)) 0) 0 1) 1 0 n) as [Hl1 Hr1];
    [lia|lia|rewrite length_wr, length_replicate; lia|].
  apply array_ext; [done|].
  intros k Hk. rewrite Hl1, length_wr, length_replicate in Hk. rewrite Hr1.
  case_decide; [|done]. rewrite rd_wr_ne by lia. by rewrite rd_replicate by lia.
Qed.

(** The cell -> cells connectivity of [_create_cell_cells_connect]: the
    index starts at 1, is non-decreasing and covers the list; the row of
    every local cell [c] has no repeated entry and holds the number
    [x + 1] of cell [x] exactly when [x] is listed for a vertex of a face
    of [c] and lies on no face of [c]. *)
Lemma cell_cells_connect_rows :
  0 ≤ n_cells mesh → 0 ≤ n_cells_wghosts →
  (∀ c x, 0 ≤ c < n_cells mesh → face_neighbour c x ∨ vertex_neighbour c x →
          0 ≤ x < n_cells_wghosts) →
  let r := _create_cell_cells_connect mesh n_cells_wghosts
             cell_i_faces_idx cell_i_faces_lst vtx_gcells_idx vtx_gcells_lst
             vtx_cells_idx vtx_cells_lst in
  rd r.1 0 = 1 ∧
  Z.of_nat (length r.1) = n_cells mesh + 1 ∧
  Z.of_nat (length r.2) = rd r.1 (n_cells mesh) - 1 ∧
  (∀ c1 c2, 0 ≤ c1 → c1 ≤ c2 → c2 ≤ n_cells mesh → rd r.1 c1 ≤ rd r.1 c2) ∧
  ∀ c, 0 ≤ c < n_cells mesh →
    NoDup (csr_row 1 r.1 r.2 c) ∧
    ∀ y, y ∈ csr_row 1 r.1 r.2 c
         ↔ vertex_neighbour c (y - 1) ∧ ¬ face_neighbour c (y - 1).
Proof.
  intros Hn Hnw Hvalid.
  set (n := n_cells mesh) in *.
  assert (Hpairs : pairs_ok n_cells_wghosts (cell_items.*2)).
  { apply Forall_forall. intros p ([b p'] & -> & Hin)%list_elem_of_fmap. simpl.
    apply elem_of_cell_items in Hin as [Hc H]. split; [lia|].
    apply (Hvalid p'.1); [done|]. destruct b; tauto. }
  assert (Hrows : Forall (λ it : bool * (Z * Z), it.2.1 < n) cell_items).
  { apply Forall_forall. intros [b p] Hin. apply elem_of_cell_items in Hin as [Hc _].
    simpl. lia. }
  pose proof (tagged_two_pass n n_cells_wghosts cell_items Hn Hnw cell_items_nondecr
                Hpairs Hrows cell_items_marks_first) as H.
  cbv zeta in H.
  set (tag0 := replicate (Z.to_nat n_cells_wghosts) (-1)) in *.
  set (A := acted tag0 cell_items) in *.
  set (ev := (λ p : Z * Z, (p.1, p.2 + 1)) <$> A) in *.
  set (c0 := wr (replicate (Z.to_nat (n + 1)) 0) 0 1) in *.
  set (idx := sum_index n (foldl count_event c0 ev.*1)) in *.
  set (lst := (foldl (place 1 idx) (replicate (Z.to_nat n) 0, bft_malloc (rd idx n - 1)) ev).2)
    in *.
  assert (E : _create_cell_cells_connect mesh n_cells_wghosts
                cell_i_faces_idx cell_i_faces_lst vtx_gcells_idx vtx_gcells_lst
                vtx_cells_idx vtx_cells_lst = (idx, lst)).
  2: { rewrite E. cbn [fst snd]. destruct H as (H1 & H2 & H3 & H4 & H5).
       split; [done|]. split; [done|]. split; [done|]. split; [done|].
       intros c Hc. destruct (H5 c Hc) as [Hnd Hmem]. split; [done|].
       intros y. rewrite Hmem. rewrite !elem_of_cell_items. cbn [fst snd].
       split; [intros [[_ Hv] Hf]; split; [done|]; intros Hf'; apply Hf; by split
              |intros [Hv Hf]; split; [by split|]; intros [_ Hf']; by apply Hf]. }
  unfold _create_cell_cells_connect. cbv zeta. fold n.
  rewrite (foldl_pair (λ a i, wr a (i + 1) 0) (λ b i, wr b i 0)).
  change (bft_malloc (n + 1)) with (replicate (Z.to_nat (n + 1)) 0).
  rewrite fill_index_one by done. fold c0.
  rewrite !fill_all
    by (unfold bft_malloc; rewrite ?length_take, ?length_drop, ?length_replicate; lia).
  fold tag0.
  (* the index pass *)
  match goal with |- context [foldl ?f (tag0, c0) (range 0 n)] =>
    assert (Hpass1 : foldl f (tag0, c0) (range 0 n)
                     = (final_tag tag0 cell_items, foldl count_event c0 ev.*1))
  end.
  { transitivity (foldl (tagged (λ idx p, count_event idx p.1)) (tag0, c0) cell_items).
    - unfold cell_items. rewrite foldl_bind. apply foldl_ext_in. intros st c _.
      rewrite foldl_app. apply foldl_eq2.
      + unfold face_marks. rewrite foldl_bind. apply foldl_ext_in. by intros [tg ix] i _.
      + intros s. unfold vertex_tries. rewrite foldl_bind. apply foldl_ext_in.
        intros s' i _. rewrite foldl_bind. apply foldl_ext_in. intros s'' i_vtx _.
        cbv zeta. rewrite foldl_app. fold n.
        assert (Hstep : ∀ (x : Z) (s0 : list Z * list Z),
          (let '(cell_tag, cell_cells_idx) := s0 in
           if decide (rd cell_tag x ≠ c)
           then (wr cell_tag x c, wr cell_cells_idx (c + 1) (rd cell_cells_idx (c + 1) + 1))
           else (cell_tag, cell_cells_idx))
          = tagged (λ idx p, count_event idx p.1) s0 (true, (c, x))).
        { intros x [tg ix]. unfold tagged, guarded, count_event. cbn [fst snd].
          by case_decide. }
        case_decide.
        * apply foldl_eq2; [|intros s0]; rewrite foldl_fmap; apply foldl_ext_in;
            intros [tg ix] j _; exact (Hstep _ (tg, ix)).
        * cbn [foldl]. rewrite foldl_fmap. apply foldl_ext_in.
          intros [tg ix] j _. exact (Hstep _ (tg, ix)).
    - rewrite tagged_fold. f_equal. unfold ev. fold A.
      by rewrite <- list_fmap_compose, foldl_fmap. }
  rewrite Hpass1.
  (* the prefix sum *)
  assert (Hsum : foldl (λ a i, wr a (i + 1) (rd a (i + 1) + rd a i))
                   (foldl count_event c0 ev.*1) (range 0 n) = idx).
  { unfold idx, sum_index. apply foldl_ext_in. intros a i _. f_equal. lia. }
  rewrite Hsum.
  rewrite fill_all by (rewrite ?length_final_tag; unfold tag0; rewrite ?length_replicate; lia).
  fold tag0.
  (* the list pass *)
  match goal with |- context [foldl ?f (replicate (Z.to_nat n) 0, tag0, ?l0) ?r] =>
    assert (Hpass2 : (foldl f (replicate (Z.to_nat n) 0, tag0, l0) r).2 = lst);
      [|destruct (foldl f (replicate (Z.to_nat n) 0, tag0, l0) r) as [[? ?] ?];
        cbn [snd] in Hpass2; by subst]
  end.
  match goal with |- (?x).2 = _ => change (x.2) with ((regroup x).2.2) end.
  transitivity ((foldl (tagged (λ st p, place 1 idx st (p.1, p.2 + 1)))
                   (regroup (replicate (Z.to_nat n) 0, tag0, bft_malloc (rd idx n - 1)))
                   cell_items).2.2).
  - f_equal. f_equal. unfold cell_items. rewrite foldl_bind. apply foldl_morph.
    intros st c. rewrite foldl_app. apply foldl_morph2.
    + unfold face_marks. rewrite foldl_bind. apply foldl_morph. by intros [[cnt tg] l] i.
    + intros s. unfold vertex_tries. rewrite foldl_bind. apply foldl_morph.
      intros s' i. rewrite foldl_bind. apply foldl_morph. intros s'' i_vtx.
      cbv zeta. rewrite foldl_app. fold n.
      assert (Hstep : ∀ (x : Z) (s0 : list Z * list Z * list Z),
        regroup
          (let '(cell_count, cell_tag, cell_cells_lst) := s0 in
           if decide (rd cell_tag x ≠ c)
           then (wr cell_count c (rd cell_count c + 1), wr cell_tag x c,
                 wr cell_cells_lst (rd idx c - 1 + rd cell_count c) (x + 1))
           else (cell_count, cell_tag, cell_cells_lst))
        = tagged (λ st p, place 1 idx st (p.1, p.2 + 1)) (regroup s0) (true, (c, x))).
      { intros x [[cnt tg] l]. unfold tagged, guarded, place, regroup. cbn [fst snd].
        destruct (decide (rd tg x ≠ c)); cbn [fst snd]; [|done]. do 3 f_equal. lia. }
      case_decide.
      * apply foldl_morph2; [|intros s0]; rewrite foldl_fmap; apply foldl_morph;
          intros [[cnt tg] l] j; exact (Hstep _ (cnt, tg, l)).
      * cbn [foldl]. rewrite foldl_fmap. apply foldl_morph.
        intros [[cnt tg] l] j. exact (Hstep _ (cnt, tg, l)).
  - unfold regroup. cbn [fst snd]. rewrite tagged_fold. cbn [fst snd]. fold A.
    unfold lst, ev. by rewrite foldl_fmap.
Qed.

End CellCellsProofs.

(** ** The builders of the extended neighbourhood, composed *)

Section Rows.

(** The entries of a row, by position. *)
Lemma elem_of_csr_row first (idx lst : list Z) c e :
  first ≤ rd idx c → rd idx (c + 1) - first ≤ Z.of_nat (length lst) →
  e ∈ csr_row first idx lst c ↔
  ∃ i, rd idx c ≤ i < rd idx (c + 1) ∧ e = rd lst (i - first).
Proof.
  intros H1 H2. unfold csr_row. rewrite list_elem_of_lookup. split.
  - intros (k & Hk). apply lookup_take_Some in Hk as [Hk Hlt].
    rewrite lookup_drop in Hk. exists (rd idx c + Z.of_nat k). split; [lia|].
    symmetry. apply rd_lookup; [lia|].
    replace (Z.to_nat (rd idx c + Z.of_nat k - first))
      with (Z.to_nat (rd idx c - first) + k)%nat by lia. done.
  - intros (i & Hi & ->). exists (Z.to_nat (i - rd idx c)).
    rewrite lookup_take_lt by lia. rewrite lookup_drop.
    replace (Z.to_nat (rd idx c - first) + Z.to_nat (i - rd idx c))%nat
      with (Z.to_nat (i - first)) by lia.
    apply lookup_rd. lia.
Qed.

End Rows.

Section CellFacesRows.

Context (mesh : cs_mesh_t).

(** The cell -> internal faces connectivity, with the shape of its index. *)
Lemma cell_faces_rows :
  0 ≤ n_cells mesh →
  face_cells_ok mesh →
  let idx := (_get_cell_i_faces_connectivity mesh).1 in
  let lst := (_get_cell_i_faces_connectivity mesh).2 in
  rd idx 0 = 1 ∧
  Z.of_nat (length idx) = n_cells mesh + 1 ∧
  Z.of_nat (length lst) = rd idx (n_cells mesh) - 1 ∧
  (∀ c1 c2, 0 ≤ c1 → c1 ≤ c2 → c2 ≤ n_cells mesh → rd idx c1 ≤ rd idx c2) ∧
  ∀ c, 0 ≤ c < n_cells mesh → csr_row 1 idx lst c = cell_faces_spec mesh c.
Proof.
  intros Hn Hok. unfold _get_cell_i_faces_connectivity. cbv zeta.
  rewrite count_cell_faces_events.
  set (c0 := foldl count_event _ _).
  set (idx := build_position_index mesh c0).
  rewrite fill_cell_faces_events.
  destruct (foldl (place 1 idx) _ _) as [count lst] eqn:E. cbn [fst snd].
  pose proof (cell_face_events_ok mesh Hok) as Hev.
  destruct (count_events (n_cells mesh) (cell_face_events mesh)
              (replicate (Z.to_nat (n_cells mesh + 1)) 0) Hev) as (Hl0 & _ & Hc0).
  { rewrite length_replicate. lia. }
  fold c0 in Hl0, Hc0. rewrite length_replicate in Hl0.
  destruct (sum_index_spec (n_cells mesh) (wr c0 0 1)) as (Hli & H0 & Hk).
  { rewrite length_wr. lia. }
  { done. }
  rewrite length_wr in Hli.
  assert (Hidx : rd idx 0 = 1 ∧
            ∀ k, 0 ≤ k < n_cells mesh →
                 rd idx (k + 1) = rd idx k + occ k (cell_face_events mesh)).
  { unfold idx, build_position_index. fold (sum_index (n_cells mesh) (wr c0 0 1)).
    split; [rewrite H0; apply rd_wr_eq; lia|].
    intros k Hk'. rewrite (Hk k Hk'), rd_wr_ne by lia. rewrite (Hc0 k Hk').
    rewrite rd_replicate by lia. lia. }
  destruct Hidx as [Hfirst Hidx].
  assert (Hge : 1 ≤ rd idx (n_cells mesh)).
  { rewrite <- Hfirst. eapply index_le; [done|lia|lia|lia]. }
  destruct (buckets_rows (n_cells mesh) 1 idx lst
              (replicate (Z.to_nat (n_cells mesh)) 0)
              (bft_malloc (rd idx (n_cells mesh) - 1)) (cell_face_events mesh))
    as [Hlen Hrows]; try done.
  { unfold bft_malloc. rewrite length_replicate. lia. }
  { rewrite length_replicate. lia. }
  { intros r Hr. apply rd_replicate. lia. }
  { by rewrite E. }
  split; [done|]. split.
  { unfold idx, build_position_index. fold (sum_index (n_cells mesh) (wr c0 0 1)). lia. }
  split; [done|]. split.
  { intros c1 c2 ? ? ?. eapply index_le; [exact Hidx|lia|lia|lia]. }
  intros c Hc. rewrite Hrows by done. apply vals_cell_face_events. lia.
Qed.

(** Face [f] (from 0) has cell [c] (from 0) on one of its sides. *)
Definition adjoins (f c : Z) : Prop :=
  0 ≤ f < n_i_faces mesh ∧
  (rd (i_face_cells mesh) (2 * f) - 1 = c ∨ rd (i_face_cells mesh) (2 * f + 1) - 1 = c).

Lemma elem_of_cell_faces_spec c e :
  e ∈ cell_faces_spec mesh c → adjoins (Z.abs e - 1) c.
Proof.
  unfold cell_faces_spec, adjoins. intros (i & Hin & Hi%elem_of_range)%list_elem_of_bind.
  apply elem_of_app in Hin as [Hin|Hin]; case_decide as Hd;
    try (by apply elem_of_nil in Hin); apply list_elem_of_singleton in Hin; subst e.
  - replace (Z.abs (i + 1) - 1) with i by lia. replace (2 * i) with (i * 2) by lia.
    split; [done|]. by left.
  - replace (Z.abs (- (i + 1)) - 1) with i by lia. replace (2 * i + 1) with (i * 2 + 1) by lia.
    split; [done|]. by right.
Qed.

Lemma cell_faces_spec_adjoins f c :
  adjoins f c → ∃ e, e ∈ cell_faces_spec mesh c ∧ Z.abs e - 1 = f.
Proof.
  unfold cell_faces_spec, adjoins. intros [Hf [H|H]].
  - exists (f + 1). split; [|lia]. apply list_elem_of_bind. exists f.
    rewrite elem_of_range. split; [|done]. apply elem_of_app. left.
    replace (f * 2) with (2 * f) by lia. rewrite decide_True by done. by left.
  - exists (- (f + 1)). split; [|lia]. apply list_elem_of_bind. exists f.
    rewrite elem_of_range. split; [|done]. apply elem_of_app. right.
    replace (f * 2 + 1) with (2 * f + 1) by lia. rewrite decide_True by done. by left.
Qed.

End CellFacesRows.

Section GhostRows.

Context (halo : cs_halo_t) (n_vertices : Z).
Context (gcells_vtx_idx gcells_vtx_lst : list Z).

(** The vertex -> ghost cells connectivity of [_create_vtx_gcells_connect],
    with the shape of its index. *)
Lemma vtx_gcells_connect_rows :
  0 ≤ n_vertices →
  (∀ id j, 0 ≤ id < n_elts halo CS_HALO_EXTENDED →
     rd gcells_vtx_idx id ≤ j < rd gcells_vtx_idx (id + 1) →
     1 ≤ rd gcells_vtx_lst j ≤ n_vertices) →
  let r := _create_vtx_gcells_connect halo n_vertices gcells_vtx_idx gcells_vtx_lst in
  rd r.1 0 = 0 ∧
  Z.of_nat (length r.1) = n_vertices + 1 ∧
  Z.of_nat (length r.2) = rd r.1 n_vertices ∧
  (∀ v1 v2, 0 ≤ v1 → v1 ≤ v2 → v2 ≤ n_vertices → rd r.1 v1 ≤ rd r.1 v2) ∧
  ∀ v, 0 ≤ v < n_vertices →
    NoDup (csr_row 0 r.1 r.2 v) ∧
    ∀ id, id ∈ csr_row 0 r.1 r.2 v
          ↔ (id, v) ∈ ghost_pairs gcells_vtx_idx gcells_vtx_lst 0
                        (n_elts halo CS_HALO_EXTENDED).
Proof.
  intros Hn Hvalid.
  set (n := n_vertices) in *.
  set (e := n_elts halo CS_HALO_EXTENDED) in *.
  set (pairs := ghost_pairs gcells_vtx_idx gcells_vtx_lst 0 e).
  assert (Hpairs : pairs_ok n pairs).
  { apply Forall_forall. intros [id v] (Hid & j & Hj & ->)%elem_of_ghost_pairs.
    specialize (Hvalid id j Hid Hj). simpl. lia. }
  assert (Hnd : nondecr pairs).
  { unfold pairs. destruct (decide (0 ≤ e)).
    - replace e with (0 + Z.of_nat (Z.to_nat (e - 0))) by lia.
      apply ghost_pairs_nondecr.
    - unfold ghost_pairs. by rewrite range_nil by lia. }
  pose proof (guarded_two_pass n pairs Hn Hnd Hpairs) as H. cbv zeta in H.
  set (ck0 := replicate (Z.to_nat n) (-1)) in *.
  set (F := fired ck0 pairs) in *.
  set (ev := rev_events F) in *.
  set (idx := sum_index n (foldl count_event (replicate (Z.to_nat (n + 1)) 0) ev.*1)) in *.
  set (lst := (foldl (place 0 idx) (replicate (Z.to_nat n) 0, bft_malloc (rd idx n)) ev).2) in *.
  assert (E : _create_vtx_gcells_connect halo n gcells_vtx_idx gcells_vtx_lst = (idx, lst));
    [|by rewrite E].
  unfold _create_vtx_gcells_connect. cbv zeta.
  assert (Hpass1 : _reverse_connectivity_idx halo n (-1)
                     (drop (Z.to_nat n) (bft_malloc (2 * n)))
                     gcells_vtx_idx gcells_vtx_lst (bft_malloc (n + 1))
                   = (final_checker ck0 pairs, idx)).
  { unfold _reverse_connectivity_idx.
    rewrite (foldl_pair (λ a i, wr a (i + 1) 0) (λ b i, wr b i (-1))).
    rewrite fill_index by (unfold bft_malloc; rewrite ?length_replicate; lia).
    rewrite fill_all by (unfold bft_malloc; rewrite ?length_drop, ?length_replicate; lia).
    fold ck0. change (ghost_bounds halo (-1)) with (0, e). cbv beta iota.
    rewrite idx_loop_guarded, guarded_fold. fold pairs. f_equal.
    unfold idx, sum_index, ev, rev_events. fold F.
    rewrite <- list_fmap_compose, foldl_fmap. simpl.
    apply foldl_ext_in. intros a i _. f_equal. lia. }
  rewrite Hpass1.
  assert (Hpass2 : (_reverse_connectivity_lst halo n (-1)
                      (take (Z.to_nat n) (bft_malloc (2 * n)))
                      (final_checker ck0 pairs) gcells_vtx_idx gcells_vtx_lst idx
                      (bft_malloc (rd idx n))).2 = lst).
  { unfold _reverse_connectivity_lst.
    rewrite (foldl_pair (λ a i, wr a i 0) (λ b i, wr b i (-1))).
    rewrite !fill_all
      by (unfold bft_malloc, ck0;
          rewrite ?length_final_checker, ?length_take, ?length_replicate; lia).
    fold ck0. change (ghost_bounds halo (-1)) with (0, e). cbv beta iota.
    match goal with |- (?x).2 = _ => change (x.2) with ((regroup x).2.2) end.
    rewrite lst_loop_guarded. unfold regroup. cbn [fst snd].
    rewrite guarded_fold. cbn [fst snd]. fold pairs F.
    unfold lst, ev, rev_events. by rewrite foldl_fmap. }
  destruct (_reverse_connectivity_lst _ _ _ _ _ _ _ _ _) as [[? ?] ?].
  cbn [snd] in Hpass2. by subst.
Qed.

End GhostRows.

Section DefineProofs.

Context (mesh : cs_mesh_t) (halo : cs_halo_t) (n_cells_wghosts n_g_ghost_cells : Z).
Context (gcell_vtx_idx gcell_vtx_lst : list Z).

(** Vertex [v] (from 0) is a vertex of face [f] (from 0). *)
Definition on_face (f v : Z) : Prop :=
  ∃ i_vtx, rd (i_face_vtx_idx mesh) f ≤ i_vtx < rd (i_face_vtx_idx mesh) (f + 1) ∧
           v = rd (i_face_vtx_lst mesh) (i_vtx - 1) - 1.

(** Vertex [v] is a vertex of ghost cell [id] (both from 0). *)
Definition ghost_has (id v : Z) : Prop :=
  ∃ j, rd gcell_vtx_idx id ≤ j < rd gcell_vtx_idx (id + 1) ∧ v = rd gcell_vtx_lst j - 1.

(** Cell [x] lies on a face of cell [c]; this holds of [c] itself as soon
    as [c] has an internal face. *)
Definition shares_face (c x : Z) : Prop :=
  ∃ f, adjoins mesh f c ∧
       (x = rd (i_face_cells mesh) (2 * f) - 1 ∨ x = rd (i_face_cells mesh) (2 * f + 1) - 1).

(** Cell [x] has a vertex of a face of cell [c]: [x] is a local cell with a
    face at that vertex, or the ghost cell numbered [x - n_cells] in the
    halo. *)
Definition shares_vertex (c x : Z) : Prop :=
  ∃ f v, adjoins mesh f c ∧ on_face f v ∧
    ((0 ≤ x < n_cells mesh ∧ ∃ g, adjoins mesh g x ∧ on_face g v)
     ∨ (n_cells_wghosts - n_cells mesh > 0 ∧
        ∃ id, 0 ≤ id < n_elts halo CS_HALO_EXTENDED ∧ x = id + n_cells mesh ∧
              ghost_has id v)).

(** What the builders need of the mesh. *)
Record mesh_ok : Prop := mk_mesh_ok {
  ok_cells : 0 ≤ n_cells mesh ≤ n_cells_wghosts;
  ok_vertices : 0 ≤ n_vertices mesh;
  ok_face_cells : ∀ f, 0 ≤ f < n_i_faces mesh →
    1 ≤ rd (i_face_cells mesh) (2 * f) ≤ n_cells_wghosts ∧
    1 ≤ rd (i_face_cells mesh) (2 * f + 1) ≤ n_cells_wghosts;
  ok_face_vtx : ∀ f i_vtx, 0 ≤ f < n_i_faces mesh →
    rd (i_face_vtx_idx mesh) f ≤ i_vtx < rd (i_face_vtx_idx mesh) (f + 1) →
    1 ≤ rd (i_face_vtx_lst mesh) (i_vtx - 1) ≤ n_vertices mesh;
  ok_ghosts : n_cells_wghosts - n_cells mesh > 0 →
    n_g_ghost_cells > 0 ∧
    n_cells mesh + n_elts halo CS_HALO_EXTENDED ≤ n_cells_wghosts ∧
    ∀ id j, 0 ≤ id < n_elts halo CS_HALO_EXTENDED →
            rd gcell_vtx_idx id ≤ j < rd gcell_vtx_idx (id + 1) →
            1 ≤ rd gcell_vtx_lst j ≤ n_vertices mesh
}.

Hypothesis Hok : mesh_ok.

Let cfi := (_get_cell_i_faces_connectivity mesh).1.
Let cfl := (_get_cell_i_faces_connectivity mesh).2.
Let vci := (_create_vtx_cells_connect2 mesh cfi cfl).1.
Let vcl := (_create_vtx_cells_connect2 mesh cfi cfl).2.

Lemma on_face_vertex f v :
  0 ≤ f < n_i_faces mesh → on_face f v → 0 ≤ v < n_vertices mesh.
Proof.
  intros Hf (i_vtx & Hi & ->). pose proof (ok_face_vtx Hok f i_vtx Hf Hi). lia.
Qed.

Lemma mesh_face_cells_ok : face_cells_ok mesh.
Proof.
  intros i Hi. destruct (ok_face_cells Hok i Hi) as [H1 H2].
  replace (i * 2) with (2 * i) by lia. replace (2 * i + 1) with (2 * i + 1) by lia. lia.
Qed.

(** The faces listed for a local cell are the faces that adjoin it. *)
Lemma faces_of_cell c (P : Z → Prop) :
  0 ≤ c < n_cells mesh →
  (∃ i, rd cfi c ≤ i < rd cfi (c + 1) ∧ P (face_at cfl i)) ↔ (∃ f, adjoins mesh f c ∧ P f).
Proof.
  intros Hc.
  destruct (cell_faces_rows mesh (proj1 (ok_cells Hok)) mesh_face_cells_ok)
    as (H0 & Hli & Hll & Hmono & Hrows).
  fold cfi cfl in H0, Hli, Hll, Hmono, Hrows.
  assert (Hb1 : 1 ≤ rd cfi c) by (rewrite <- H0; apply Hmono; lia).
  assert (Hb2 : rd cfi (c + 1) - 1 ≤ Z.of_nat (length cfl))
    by (rewrite Hll; pose proof (Hmono (c + 1) (n_cells mesh)); lia).
  split.
  - intros (i & Hi & HP). exists (face_at cfl i). split; [|done].
    unfold face_at. apply elem_of_cell_faces_spec. rewrite <- Hrows by done.
    apply elem_of_csr_row; [done|done|]. by exists i.
  - intros (f & Hf & HP). destruct (cell_faces_spec_adjoins mesh f c Hf) as (e & He & Hef).
    rewrite <- Hrows in He by done.
    apply elem_of_csr_row in He as (i & Hi & ->); [|done|done].
    exists i. split; [done|]. unfold face_at. by rewrite Hef.
Qed.

Lemma face_neighbour_iff c x :
  0 ≤ c < n_cells mesh → face_neighbour mesh cfi cfl c x ↔ shares_face c x.
Proof.
  intros Hc. unfold face_neighbour, shares_face.
  apply (faces_of_cell c (λ f, x = rd (i_face_cells mesh) (2 * f) - 1
                               ∨ x = rd (i_face_cells mesh) (2 * f + 1) - 1) Hc).
Qed.

Lemma cell_vtx_pairs_iff c v :
  (c, v) ∈ cell_vtx_pairs mesh cfi cfl ↔
  0 ≤ c < n_cells mesh ∧ ∃ g, adjoins mesh g c ∧ on_face g v.
Proof.
  rewrite elem_of_cell_vtx_pairs. split.
  - intros (Hc & i & i_vtx & Hi & Hv & ->). split; [done|].
    apply (faces_of_cell c (λ f, on_face f _) Hc). exists i. split; [done|].
    by exists i_vtx.
  - intros (Hc & Hg). split; [done|].
    apply (faces_of_cell c (λ f, on_face f v) Hc) in Hg as (i & Hi & i_vtx & Hv & ->).
    by exists i, i_vtx.
Qed.

Lemma vtx_cells_rows :
  rd vci 0 = 0 ∧
  Z.of_nat (length vcl) = rd vci (n_vertices mesh) ∧
  (∀ v1 v2, 0 ≤ v1 → v1 ≤ v2 → v2 ≤ n_vertices mesh → rd vci v1 ≤ rd vci v2) ∧
  ∀ v, 0 ≤ v < n_vertices mesh →
    NoDup (csr_row 0 vci vcl v) ∧
    ∀ c, c ∈ csr_row 0 vci vcl v
         ↔ 0 ≤ c < n_cells mesh ∧ ∃ g, adjoins mesh g c ∧ on_face g v.
Proof.
  destruct (vtx_cells_connect2_rows mesh cfi cfl (ok_vertices Hok))
    as (H0 & _ & Hll & Hmono & Hrows).
  { intros c v (Hc & g & [Hg _] & Hv)%cell_vtx_pairs_iff. by apply (on_face_vertex g). }
  fold vci vcl in H0, Hll, Hmono, Hrows.
  split; [done|]. split; [done|]. split; [done|].
  intros v Hv. destruct (Hrows v Hv) as [Hnd Hmem]. split; [done|].
  intros c. rewrite Hmem. apply cell_vtx_pairs_iff.
Qed.

Let vtx_gcells : option (list Z * list Z) :=
  if decide (n_g_ghost_cells > 0)
  then Some (_create_vtx_gcells_connect halo (n_vertices mesh) gcell_vtx_idx gcell_vtx_lst)
  else None.
Let vgi := (default ([], []) vtx_gcells).1.
Let vgl := (default ([], []) vtx_gcells).2.

Lemma local_part_iff v x :
  0 ≤ v < n_vertices mesh →
  (∃ j, rd vci v ≤ j < rd vci (v + 1) ∧ x = rd vcl j)
  ↔ 0 ≤ x < n_cells mesh ∧ ∃ g, adjoins mesh g x ∧ on_face g v.
Proof.
  intros Hv. destruct vtx_cells_rows as (H0 & Hll & Hmono & Hrows).
  destruct (Hrows v Hv) as [_ Hmem]. rewrite <- Hmem.
  rewrite elem_of_csr_row.
  - split; intros (j & Hj & ->); exists j; (split; [done|]); f_equal; lia.
  - rewrite <- H0. apply Hmono; lia.
  - rewrite Hll. pose proof (Hmono (v + 1) (n_vertices mesh)). lia.
Qed.

Lemma ghost_part_iff v x :
  0 ≤ v < n_vertices mesh →
  n_cells_wghosts - n_cells mesh > 0 →
  (∃ j, rd vgi v ≤ j < rd vgi (v + 1) ∧ x = rd vgl j + n_cells mesh)
  ↔ ∃ id, 0 ≤ id < n_elts halo CS_HALO_EXTENDED ∧ x = id + n_cells mesh ∧ ghost_has id v.
Proof.
  intros Hv Hg. destruct (ok_ghosts Hok Hg) as (Hgg & Hne & Hgv).
  assert (Evg : vtx_gcells = Some (_create_vtx_gcells_connect halo (n_vertices mesh)
                                     gcell_vtx_idx gcell_vtx_lst)).
  { unfold vtx_gcells. by rewrite decide_True. }
  destruct (vtx_gcells_connect_rows halo (n_vertices mesh) gcell_vtx_idx gcell_vtx_lst
              (ok_vertices Hok)) as (H0 & _ & Hll & Hmono & Hrows).
  { exact Hgv. }
  assert (Ei : vgi = (_create_vtx_gcells_connect halo (n_vertices mesh)
                        gcell_vtx_idx gcell_vtx_lst).1) by (unfold vgi; by rewrite Evg).
  assert (El : vgl = (_create_vtx_gcells_connect halo (n_vertices mesh)
                        gcell_vtx_idx gcell_vtx_lst).2) by (unfold vgl; by rewrite Evg).
  rewrite <- Ei in H0, Hll, Hmono, Hrows. rewrite <- El in Hll, Hrows.
  destruct (Hrows v Hv) as [_ Hmem].
  assert (Hrow : ∀ id, id ∈ csr_row 0 vgi vgl v
                       ↔ ∃ j, rd vgi v ≤ j < rd vgi (v + 1) ∧ id = rd vgl j).
  { intros id. rewrite elem_of_csr_row.
    - split; intros (j & Hj & ->); exists j; (split; [done|]); f_equal; lia.
    - rewrite <- H0. apply Hmono; lia.
    - rewrite Hll. pose proof (Hmono (v + 1) (n_vertices mesh)). lia. }
  split.
  - intros (j & Hj & ->). exists (rd vgl j).
    assert (Hin : rd vgl j ∈ csr_row 0 vgi vgl v) by (apply Hrow; by exists j).
    apply Hmem, elem_of_ghost_pairs in Hin as (Hid & j' & Hj' & Hv').
    split; [done|]. split; [done|]. by exists j'.
  - intros (id & Hid & -> & j' & Hj' & Hv').
    assert (Hin : id ∈ csr_row 0 vgi vgl v).
    { apply Hmem, elem_of_ghost_pairs. split; [done|]. by exists j'. }
    apply Hrow in Hin as (j & Hj & ->). by exists j.
Qed.

Lemma vertex_neighbour_iff c x :
  0 ≤ c < n_cells mesh →
  vertex_neighbour mesh n_cells_wghosts cfi cfl vgi vgl vci vcl c x ↔ shares_vertex c x.
Proof.
  intros Hc. unfold vertex_neighbour, shares_vertex. cbv zeta. split.
  - intros (i & i_vtx & Hi & Hv & Hx).
    assert (Hf : ∃ f, adjoins mesh f c ∧ f = face_at cfl i).
    { apply (faces_of_cell c (λ f, f = face_at cfl i) Hc). by exists i. }
    destruct Hf as (f & Hf & ->).
    set (v := rd (i_face_vtx_lst mesh) (i_vtx - 1) - 1) in *.
    assert (Hon : on_face (face_at cfl i) v) by (by exists i_vtx).
    assert (Hvv : 0 ≤ v < n_vertices mesh).
    { apply (on_face_vertex (face_at cfl i)); [apply Hf|done]. }
    exists (face_at cfl i), v. split; [done|]. split; [done|].
    destruct Hx as [Hl|[Hg Hgh]].
    + left. by apply local_part_iff.
    + right. split; [done|]. by apply ghost_part_iff.
  - intros (f & v & Hf & Hon & Hx).
    assert (Hvv : 0 ≤ v < n_vertices mesh).
    { apply (on_face_vertex f); [apply Hf|done]. }
    assert (Hi : ∃ i, rd cfi c ≤ i < rd cfi (c + 1) ∧ face_at cfl i = f).
    { apply (faces_of_cell c (λ f', f' = f) Hc). by exists f. }
    destruct Hi as (i & Hi & <-). destruct Hon as (i_vtx & Hv & ->).
    exists i, i_vtx. split; [done|]. split; [done|].
    destruct Hx as [Hl|[Hg Hgh]].
    + left. by apply local_part_iff.
    + right. split; [done|]. by apply ghost_part_iff.
Qed.

Lemma neighbours_in_range c x :
  0 ≤ c < n_cells mesh →
  shares_face c x ∨ shares_vertex c x → 0 ≤ x < n_cells_wghosts.
Proof.
  intros Hc [(f & [Hf _] & Hx)|(f & v & _ & _ & Hx)].
  - pose proof (ok_face_cells Hok f Hf). lia.
  - pose proof (ok_cells Hok). destruct Hx as [[Hx _]|[Hg (id & Hid & -> & _)]]; [lia|].
    destruct (ok_ghosts Hok Hg) as (_ & Hne & _). lia.
Qed.

(** The extended neighbourhood, with the shape of its index. *)
Lemma ext_neighborhood_rows :
  let mesh' := (cs_ext_neighborhood_define mesh halo n_cells_wghosts n_g_ghost_cells
                  gcell_vtx_idx gcell_vtx_lst).2 in
  ∃ idx lst,
    cell_cells_idx mesh' = Some idx ∧ cell_cells_lst mesh' = Some lst ∧
    rd idx 0 = 1 ∧
    Z.of_nat (length idx) = n_cells mesh + 1 ∧
    Z.of_nat (length lst) = rd idx (n_cells mesh) - 1 ∧
    (∀ c1 c2, 0 ≤ c1 → c1 ≤ c2 → c2 ≤ n_cells mesh → rd idx c1 ≤ rd idx c2) ∧
    ∀ c, 0 ≤ c < n_cells mesh →
      NoDup (csr_row 1 idx lst c) ∧
      ∀ y, y ∈ csr_row 1 idx lst c ↔ shares_vertex c (y - 1) ∧ ¬ shares_face c (y - 1).
Proof.
  unfold cs_ext_neighborhood_define.
  rewrite (surjective_pairing (_get_cell_i_faces_connectivity mesh)). fold cfi cfl.
  rewrite (surjective_pairing (_create_vtx_cells_connect2 mesh cfi cfl)). fold vci vcl.
  cbv zeta. fold vtx_gcells.
  rewrite (surjective_pairing (default ([], []) vtx_gcells)). fold vgi vgl.
  pose proof (ok_cells Hok) as Hcells.
  destruct (cell_cells_connect_rows mesh n_cells_wghosts cfi cfl vgi vgl vci vcl)
    as (H0 & Hli & Hll & Hmono & Hrows); [lia|lia| |].
  { intros c x Hc H. apply (neighbours_in_range c x Hc).
    destruct H as [H|H]; [left; by apply face_neighbour_iff|right; by apply vertex_neighbour_iff]. }
  destruct (_create_cell_cells_connect mesh n_cells_wghosts cfi cfl vgi vgl vci vcl)
    as [cci ccl]. cbn [fst snd] in *.
  exists cci, ccl. split; [done|]. split; [done|]. split; [done|]. split; [done|].
  split; [done|]. split; [done|].
  intros c Hc. destruct (Hrows c Hc) as [Hnd Hmem]. split; [done|].
  intros y. rewrite Hmem, vertex_neighbour_iff, face_neighbour_iff by done. done.
Qed.

End DefineProofs.

(** ** Further properties of the connectivity builders *)

Section Positions.

(** Every position of the list lies in a row. *)
Lemma position_row (idx : list Z) n p first :
  rd idx 0 = first →
  (∀ c1 c2, 0 ≤ c1 → c1 ≤ c2 → c2 ≤ n → rd idx c1 ≤ rd idx c2) →
  0 ≤ n → first ≤ p < rd idx n →
  ∃ c, 0 ≤ c < n ∧ rd idx c ≤ p < rd idx (c + 1).
Proof.
  intros H0 Hmono Hn Hp.
  assert (H : ∀ k : nat, Z.of_nat k ≤ n → p < rd idx (Z.of_nat k) →
                ∃ c, 0 ≤ c < Z.of_nat k ∧ rd idx c ≤ p < rd idx (c + 1)).
  { induction k as [|k IH]; intros Hk Hlt.
    - change (Z.of_nat 0) with 0 in Hlt. lia.
    - destruct (decide (p < rd idx (Z.of_nat k))) as [Hd|Hd].
      + destruct (IH ltac:(lia) Hd) as (c & Hc & Hr). exists c. split; [lia|done].
      + exists (Z.of_nat k). split; [lia|].
        replace (Z.of_nat k + 1) with (Z.of_nat (S k)) by lia. lia. }
  destruct (H (Z.to_nat n)) as (c & Hc & Hr); [lia|rewrite Z2Nat.id by lia; lia|].
  exists c. split; [lia|done].
Qed.

End Positions.

Section ExtTheorems.

(** The vertex -> ghost cells connectivity of [_create_vtx_gcells_connect]
    is a well-formed adjacency over the vertices: its index starts at 0,
    never decreases and ends at the length of the list; the row of a
    vertex holds each ghost cell that has the vertex, once. *)
Theorem vtx_gcells_connect_shape halo n_vertices (gcells_vtx_idx gcells_vtx_lst : list Z) :
  0 ≤ n_vertices →
  (∀ id j, 0 ≤ id < n_elts halo CS_HALO_EXTENDED →
     rd gcells_vtx_idx id ≤ j < rd gcells_vtx_idx (id + 1) →
     1 ≤ rd gcells_vtx_lst j ≤ n_vertices) →
  let r := _create_vtx_gcells_connect halo n_vertices gcells_vtx_idx gcells_vtx_lst in
  rd r.1 0 = 0 ∧
  Z.of_nat (length r.1) = n_vertices + 1 ∧
  Z.of_nat (length r.2) = rd r.1 n_vertices ∧
  (∀ v1 v2, 0 ≤ v1 → v1 ≤ v2 → v2 ≤ n_vertices → rd r.1 v1 ≤ rd r.1 v2) ∧
  ∀ v, 0 ≤ v < n_vertices →
    NoDup (csr_row 0 r.1 r.2 v) ∧
    ∀ id, id ∈ csr_row 0 r.1 r.2 v
          ↔ 0 ≤ id < n_elts halo CS_HALO_EXTENDED ∧
            ∃ j, rd gcells_vtx_idx id ≤ j < rd gcells_vtx_idx (id + 1) ∧
                 v = rd gcells_vtx_lst j - 1.
Proof.
  intros Hn Hvalid r. subst r.
  destruct (vtx_gcells_connect_rows halo n_vertices gcells_vtx_idx gcells_vtx_lst Hn Hvalid)
    as (H0 & Hli & Hll & Hmono & Hrows).
  split; [done|]. split; [done|]. split; [done|]. split; [done|].
  intros v Hv. destruct (Hrows v Hv) as [Hnd Hmem]. split; [done|].
  intros id. rewrite Hmem. apply elem_of_ghost_pairs.
Qed.

(** The vertex -> cells connectivity of [_create_vtx_cells_connect2]: the
    index starts at 0, never decreases and ends at the length of the list;
    the row of a vertex has no repeated entry and holds the local cell [c]
    exactly when a face listed for [c] in the cell -> faces connectivity has
    that vertex. *)
Theorem vtx_cells_connect2_spec mesh (cell_i_faces_idx cell_i_faces_lst : list Z) :
  0 ≤ n_vertices mesh →
  (∀ c i i_vtx, 0 ≤ c < n_cells mesh →
     rd cell_i_faces_idx c ≤ i < rd cell_i_faces_idx (c + 1) →
     rd (i_face_vtx_idx mesh) (face_at cell_i_faces_lst i) ≤ i_vtx
       < rd (i_face_vtx_idx mesh) (face_at cell_i_faces_lst i + 1) →
     1 ≤ rd (i_face_vtx_lst mesh) (i_vtx - 1) ≤ n_vertices mesh) →
  let r := _create_vtx_cells_connect2 mesh cell_i_faces_idx cell_i_faces_lst in
  rd r.1 0 = 0 ∧
  Z.of_nat (length r.1) = n_vertices mesh + 1 ∧
  Z.of_nat (length r.2) = rd r.1 (n_vertices mesh) ∧
  (∀ v1 v2, 0 ≤ v1 → v1 ≤ v2 → v2 ≤ n_vertices mesh → rd r.1 v1 ≤ rd r.1 v2) ∧
  ∀ v, 0 ≤ v < n_vertices mesh →
    NoDup (csr_row 0 r.1 r.2 v) ∧
    ∀ c, c ∈ csr_row 0 r.1 r.2 v
         ↔ 0 ≤ c < n_cells mesh ∧
           ∃ i i_vtx,
             rd cell_i_faces_idx c ≤ i < rd cell_i_faces_idx (c + 1) ∧
             rd (i_face_vtx_idx mesh) (face_at cell_i_faces_lst i) ≤ i_vtx
               < rd (i_face_vtx_idx mesh) (face_at cell_i_faces_lst i + 1) ∧
             v = rd (i_face_vtx_lst mesh) (i_vtx - 1) - 1.
Proof.
  intros Hn Hvalid r. subst r.
  destruct (vtx_cells_connect2_rows mesh cell_i_faces_idx cell_i_faces_lst Hn)
    as (H0 & Hli & Hll & Hmono & Hrows).
  { intros c v (Hc & i & i_vtx & Hi & Hv & ->)%elem_of_cell_vtx_pairs.
    pose proof (Hvalid c i i_vtx Hc Hi Hv). lia. }
  split; [done|]. split; [done|]. split; [done|]. split; [done|].
  intros v Hv. destruct (Hrows v Hv) as [Hnd Hmem]. split; [done|].
  intros c. rewrite Hmem. apply elem_of_cell_vtx_pairs.
Qed.

(** The cell -> cells connectivity of [_create_cell_cells_connect]: the
    index starts at 1, never decreases and ends one past the length of the
    list; the row of a local cell [c] has no repeated entry and holds the
    number [x + 1] of cell [x] exactly when [x] is listed for a vertex of a
    face listed for [c] and lies on no face listed for [c]. *)
Theorem cell_cells_connect_spec mesh n_cells_wghosts
    (cell_i_faces_idx cell_i_faces_lst vtx_gcells_idx vtx_gcells_lst
     vtx_cells_idx vtx_cells_lst : list Z) :
  0 ≤ n_cells mesh → 0 ≤ n_cells_wghosts →
  (∀ c x, 0 ≤ c < n_cells mesh →
     face_neighbour mesh cell_i_faces_idx cell_i_faces_lst c x
     ∨ vertex_neighbour mesh n_cells_wghosts cell_i_faces_idx cell_i_faces_lst
         vtx_gcells_idx vtx_gcells_lst vtx_cells_idx vtx_cells_lst c x →
     0 ≤ x < n_cells_wghosts) →
  let r := _create_cell_cells_connect mesh n_cells_wghosts
             cell_i_faces_idx cell_i_faces_lst vtx_gcells_idx vtx_gcells_lst
             vtx_cells_idx vtx_cells_lst in
  rd r.1 0 = 1 ∧
  Z.of_nat (length r.1) = n_cells mesh + 1 ∧
  Z.of_nat (length r.2) = rd r.1 (n_cells mesh) - 1 ∧
  (∀ c1 c2, 0 ≤ c1 → c1 ≤ c2 → c2 ≤ n_cells mesh → rd r.1 c1 ≤ rd r.1 c2) ∧
  ∀ c, 0 ≤ c < n_cells mesh →
    NoDup (csr_row 1 r.1 r.2 c) ∧
    ∀ y, y ∈ csr_row 1 r.1 r.2 c
         ↔ vertex_neighbour mesh n_cells_wghosts cell_i_faces_idx cell_i_faces_lst
             vtx_gcells_idx vtx_gcells_lst vtx_cells_idx vtx_cells_lst c (y - 1)
           ∧ ¬ face_neighbour mesh cell_i_faces_idx cell_i_faces_lst c (y - 1).
Proof.
  intros Hn Hnw Hvalid r. subst r.
  destruct (cell_cells_connect_rows mesh n_cells_wghosts cell_i_faces_idx cell_i_faces_lst
              vtx_gcells_idx vtx_gcells_lst vtx_cells_idx vtx_cells_lst Hn Hnw Hvalid)
    as (H0 & Hli & Hll & Hmono & Hrows).
  split; [done|]. split; [done|]. split; [done|]. split; [done|].
  exact Hrows.
Qed.

(** [cs_ext_neighborhood_define] stores in the mesh the extended
    neighbourhood: the row of a local cell [c] lists, once each and
    numbered from 1, the cells that have a vertex of a face of [c] and lie
    on no face of [c] -- local cells, and ghost cells numbered after them.
    A cell with an internal face is not in its own row. *)
Theorem ext_neighborhood_define_spec mesh halo n_cells_wghosts n_g_ghost_cells
    (gcell_vtx_idx gcell_vtx_lst : list Z) :
  mesh_ok mesh halo n_cells_wghosts n_g_ghost_cells gcell_vtx_idx gcell_vtx_lst →
  let mesh' := (cs_ext_neighborhood_define mesh halo n_cells_wghosts n_g_ghost_cells
                  gcell_vtx_idx gcell_vtx_lst).2 in
  ∃ idx lst,
    cell_cells_idx mesh' = Some idx ∧ cell_cells_lst mesh' = Some lst ∧
    rd idx 0 = 1 ∧
    Z.of_nat (length lst) = rd idx (n_cells mesh) - 1 ∧
    ∀ c, 0 ≤ c < n_cells mesh →
      NoDup (csr_row 1 idx lst c) ∧
      (∀ y, y ∈ csr_row 1 idx lst c
            ↔ shares_vertex mesh halo n_cells_wghosts gcell_vtx_idx gcell_vtx_lst c (y - 1)
              ∧ ¬ shares_face mesh c (y - 1)) ∧
      ((∃ f, adjoins mesh f c) → c + 1 ∉ csr_row 1 idx lst c).
Proof.
  intros Hok mesh'. subst mesh'.
  destruct (ext_neighborhood_rows mesh halo n_cells_wghosts n_g_ghost_cells
              gcell_vtx_idx gcell_vtx_lst Hok)
    as (idx & lst & Hi & Hl & H0 & _ & Hll & _ & Hrows).
  exists idx, lst. split; [done|]. split; [done|]. split; [done|]. split; [done|].
  intros c Hc. destruct (Hrows c Hc) as [Hnd Hmem]. split; [done|]. split; [done|].
  intros (f & Hf) [_ Hn]%Hmem. apply Hn. exists f. split; [done|].
  destruct Hf as [_ [Hf|Hf]]; [left|right]; lia.
Qed.

(** The connectivity stored by [cs_ext_neighborhood_define] is of the form
    the filter [redvse] works on: an index from 1 that never decreases and
    covers the list, and a list of cell numbers, all positive. *)
Theorem ext_neighborhood_define_csr_ok mesh halo n_cells_wghosts n_g_ghost_cells
    (gcell_vtx_idx gcell_vtx_lst : list Z) :
  mesh_ok mesh halo n_cells_wghosts n_g_ghost_cells gcell_vtx_idx gcell_vtx_lst →
  let mesh' := (cs_ext_neighborhood_define mesh halo n_cells_wghosts n_g_ghost_cells
                  gcell_vtx_idx gcell_vtx_lst).2 in
  ∃ idx lst,
    cell_cells_idx mesh' = Some idx ∧ cell_cells_lst mesh' = Some lst ∧
    csr_ok mesh' idx lst ∧ face_cells_ok mesh'.
Proof.
  intros Hok mesh'. subst mesh'.
  destruct (ext_neighborhood_rows mesh halo n_cells_wghosts n_g_ghost_cells
              gcell_vtx_idx gcell_vtx_lst Hok)
    as (idx & lst & Hi & Hl & H0 & Hli & Hll & Hmono & Hrows).
  exists idx, lst. split; [done|]. split; [done|].
  assert (En : n_cells (cs_ext_neighborhood_define mesh halo n_cells_wghosts n_g_ghost_cells
                          gcell_vtx_idx gcell_vtx_lst).2 = n_cells mesh).
  { unfold cs_ext_neighborhood_define. repeat case_match; done. }
  assert (Ef : ∀ i, rd (i_face_cells (cs_ext_neighborhood_define mesh halo n_cells_wghosts
                          n_g_ghost_cells gcell_vtx_idx gcell_vtx_lst).2) i
                    = rd (i_face_cells mesh) i).
  { unfold cs_ext_neighborhood_define. repeat case_match; done. }
  assert (Ek : n_i_faces (cs_ext_neighborhood_define mesh halo n_cells_wghosts
                          n_g_ghost_cells gcell_vtx_idx gcell_vtx_lst).2 = n_i_faces mesh).
  { unfold cs_ext_neighborhood_define. repeat case_match; done. }
  split.
  - constructor; rewrite ?En.
    + apply (ok_cells _ _ _ _ _ _ Hok).
    + done.
    + done.
    + intros c Hc. apply Hmono; lia.
    + lia.
    + intros p Hp.
      destruct (position_row idx (n_cells mesh) (p + 1) 1 H0 Hmono) as (c & Hc & Hr);
        [apply (ok_cells _ _ _ _ _ _ Hok)|lia|].
      destruct (Hrows c Hc) as [_ Hmem].
      assert (Hin : rd lst p ∈ csr_row 1 idx lst c).
      { apply elem_of_csr_row.
        - rewrite <- H0. apply Hmono; lia.
        - pose proof (Hmono (c + 1) (n_cells mesh)). lia.
        - exists (p + 1). split; [done|]. f_equal. lia. }
      apply Hmem in Hin as [Hv _].
      assert (0 ≤ rd lst p - 1 < n_cells_wghosts); [|lia].
      apply (neighbours_in_range mesh halo n_cells_wghosts n_g_ghost_cells
               gcell_vtx_idx gcell_vtx_lst Hok c); [done|by right].
  - intros i Hi'. rewrite Ek in Hi'. rewrite !Ef.
    by apply (mesh_face_cells_ok mesh halo n_cells_wghosts n_g_ghost_cells
                gcell_vtx_idx gcell_vtx_lst Hok).
Qed.

(** [redvse] filters at most once: the first call leaves the static flag at
    1, whatever it finds; a call with the flag set, and a first call on a
    mesh without cell -> cells connectivity or with a standard halo, leave
    the mesh as it is; so a second call changes nothing. *)
Theorem redvse_runs_once mesh below_limit below_limit' _first_call :
  (redvse mesh below_limit 0).1 = 1 ∧
  (_first_call ≠ 0 → redvse mesh below_limit _first_call = (_first_call, mesh)) ∧
  (cell_cells_lst mesh = None ∨ cell_cells_idx mesh = None
   ∨ halo_type mesh = CS_HALO_STANDARD → redvse mesh below_limit 0 = (1, mesh)) ∧
  redvse (redvse mesh below_limit 0).2 below_limit' (redvse mesh below_limit 0).1
    = redvse mesh below_limit 0.
Proof.
  assert (H1 : (redvse mesh below_limit 0).1 = 1).
  { unfold redvse. rewrite decide_True by done.
    destruct (cell_cells_lst mesh), (cell_cells_idx mesh); try done.
    case_decide; [done|]. repeat case_match; done. }
  split; [done|]. split; [|split].
  - intros Hfc. unfold redvse. by rewrite decide_False.
  - intros H. unfold redvse. rewrite decide_True by done.
    destruct (cell_cells_lst mesh), (cell_cells_idx mesh); try done.
    destruct H as [H|[H|H]]; try done. by rewrite decide_True.
  - rewrite H1. unfold redvse at 1. rewrite decide_False by done.
    by rewrite (surjective_pairing (redvse mesh below_limit 0)), H1.
Qed.

(** Decoding the cell -> internal faces connectivity: an entry [e] of the
    row of a local cell [c] is never 0, [|e| - 1] is an internal face with
    [c] on its first side when [e] is positive and on its second side when
    [e] is negative; and every internal face that has [c] on a side is
    listed in the row of [c]. *)
Theorem cell_faces_decode mesh c :
  0 ≤ n_cells mesh → face_cells_ok mesh → 0 ≤ c < n_cells mesh →
  let idx := (_get_cell_i_faces_connectivity mesh).1 in
  let lst := (_get_cell_i_faces_connectivity mesh).2 in
  (∀ e, e ∈ csr_row 1 idx lst c →
     0 ≤ Z.abs e - 1 < n_i_faces mesh ∧
     (0 < e → rd (i_face_cells mesh) (2 * (e - 1)) - 1 = c) ∧
     (e < 0 → rd (i_face_cells mesh) (2 * (- e - 1) + 1) - 1 = c) ∧ e ≠ 0) ∧
  (∀ f, 0 ≤ f < n_i_faces mesh →
     (rd (i_face_cells mesh) (2 * f) - 1 = c ↔ f + 1 ∈ csr_row 1 idx lst c) ∧
     (rd (i_face_cells mesh) (2 * f + 1) - 1 = c ↔ - (f + 1) ∈ csr_row 1 idx lst c)).
Proof.
  intros Hn Hok Hc idx lst. subst idx lst.
  destruct (cell_faces_rows mesh Hn Hok) as (_ & _ & _ & _ & Hrows).
  rewrite (Hrows c Hc).
  assert (Hspec : ∀ e, e ∈ cell_faces_spec mesh c ↔
            ∃ i, 0 ≤ i < n_i_faces mesh ∧
                 ((e = i + 1 ∧ rd (i_face_cells mesh) (i * 2) - 1 = c)
                  ∨ (e = - (i + 1) ∧ rd (i_face_cells mesh) (i * 2 + 1) - 1 = c))).
  { intros e. unfold cell_faces_spec. rewrite list_elem_of_bind. split.
    - intros (i & Hin & Hi%elem_of_range). exists i. split; [done|].
      apply elem_of_app in Hin as [Hin|Hin]; case_decide as Hd;
        try (by apply elem_of_nil in Hin); apply list_elem_of_singleton in Hin; tauto.
    - intros (i & Hi & H). exists i. rewrite elem_of_range. split; [|done].
      apply elem_of_app. destruct H as [[-> H]|[-> H]]; [left|right];
        rewrite decide_True by done; by left. }
  split.
  - intros e (i & Hi & [[-> H]|[-> H]])%Hspec.
    + split; [lia|]. split; [|split; [lia|lia]]. intros _.
      replace (2 * (i + 1 - 1)) with (i * 2) by lia. done.
    + split; [lia|]. split; [lia|]. split; [|lia]. intros _.
      replace (2 * (- - (i + 1) - 1) + 1) with (i * 2 + 1) by lia. done.
  - intros f Hf. rewrite !Hspec. split; split.
    + intros H. exists f. split; [done|]. left. split; [done|].
      by replace (f * 2) with (2 * f) by lia.
    + intros (i & Hi & [[E H]|[E H]]); [|lia]. assert (i = f) as -> by lia.
      by replace (2 * f) with (f * 2) by lia.
    + intros H. exists f. split; [done|]. right. split; [done|].
      by replace (f * 2 + 1) with (2 * f + 1) by lia.
    + intros (i & Hi & [[E H]|[E H]]); [lia|]. assert (i = f) as -> by lia.
      by replace (2 * f + 1) with (f * 2 + 1) by lia.
Qed.

End ExtTheorems.


(** ** The vertex -> cells connectivity of the filter *)

Section Cursor.

(** [_create_vtx_cells_connect] fills the vertex -> faces list with the
    index itself as the moving position of each row, and shifts the index
    back afterwards. *)
Definition advance (st : list Z * list Z) (e : Z * Z) : list Z * list Z :=
  (wr st.1 e.1 (rd st.1 e.1 + 1), wr st.2 (rd st.1 e.1 - 1) e.2).

Context (n : Z).

Lemma advance_place (idx : list Z) ev : ∀ cur cnt lst,
  rows_ok n ev →
  Z.of_nat (length cur) = n + 1 → Z.of_nat (length cnt) = n →
  (∀ r, 0 ≤ r < n → rd cur r = rd idx r + rd cnt r) → rd cur n = rd idx n →
  let st := foldl advance (cur, lst) ev in
  let pt := foldl (place 1 idx) (cnt, lst) ev in
  st.2 = pt.2 ∧ length st.1 = length cur ∧
  (∀ r, 0 ≤ r < n → rd st.1 r = rd idx r + rd pt.1 r) ∧ rd st.1 n = rd idx n.
Proof.
  induction ev as [|e ev IH]; intros cur cnt lst Hok Hcur Hcnt Hrel Hn; cbv zeta.
  - simpl. auto.
  - apply Forall_cons in Hok as [He Hev]. cbn [foldl].
    assert (Ea : advance (cur, lst) e
                 = (wr cur e.1 (rd idx e.1 + rd cnt e.1 + 1),
                    wr lst (rd idx e.1 + rd cnt e.1 - 1) e.2)).
    { unfold advance. cbn [fst snd]. by rewrite (Hrel _ He). }
    assert (Ep : place 1 idx (cnt, lst) e
                 = (wr cnt e.1 (rd cnt e.1 + 1),
                    wr lst (rd idx e.1 + rd cnt e.1 - 1) e.2)) by reflexivity.
    rewrite Ea, Ep.
    destruct (IH (wr cur e.1 (rd idx e.1 + rd cnt e.1 + 1))
                 (wr cnt e.1 (rd cnt e.1 + 1))
                 (wr lst (rd idx e.1 + rd cnt e.1 - 1) e.2) Hev)
      as (H2 & Hl & Hr & Hn'); rewrite ?length_wr; try done.
    + intros r Hr. rewrite !rd_wr by lia. case_decide; [subst; lia|by apply Hrel].
    + rewrite rd_wr_ne by lia. done.
    + split; [done|]. split; [by rewrite Hl, length_wr|]. split; done.
Qed.

(** [for (v = n; v > 0; v--) a[v] = a[v-1]]. *)
Lemma shift_down (k : nat) : ∀ a : list Z,
  Z.of_nat k < Z.of_nat (length a) →
  let a' := foldl (λ a v, wr a v (rd a (v - 1))) a (reverse (range 1 (Z.of_nat k + 1))) in
  length a' = length a ∧
  ∀ v, rd a' v = if decide (1 ≤ v ≤ Z.of_nat k) then rd a (v - 1) else rd a v.
Proof.
  induction k as [|k IH]; intros a Hk; cbv zeta.
  - rewrite range_nil by lia. simpl. split; [done|]. intros v.
    by rewrite decide_False by lia.
  - replace (Z.of_nat (S k) + 1) with (Z.of_nat k + 1 + 1) by lia.
    rewrite range_snoc by lia. rewrite reverse_app. cbn [reverse rev_append app foldl].
    change (rev_append [] [Z.of_nat k + 1]) with [Z.of_nat k + 1]. cbn [app foldl].
    replace (Z.of_nat k + 1 - 1) with (Z.of_nat k) by lia.
    destruct (IH (wr a (Z.of_nat k + 1) (rd a (Z.of_nat k)))) as [Hl Hrd];
      [rewrite length_wr; lia|].
    rewrite length_wr in Hl. split; [done|]. intros v. rewrite Hrd.
    rewrite !rd_wr by lia. repeat case_decide; try done; try lia.
    subst. f_equal. lia.
Qed.

End Cursor.

Section DedupScan.

(** A value is appended to a row unless the row holds it. *)
Definition add_new (row : list Z) (x : Z) : list Z :=
  if decide (x ∈ row) then row else row ++ [x].

Lemma add_new_spec l : ∀ row,
  NoDup row →
  NoDup (foldl add_new row l) ∧ ∀ x, x ∈ foldl add_new row l ↔ x ∈ row ∨ x ∈ l.
Proof.
  induction l as [|y l IH]; intros row Hnd; cbn [foldl].
  - split; [done|]. intros x. rewrite elem_of_nil. tauto.
  - destruct (IH (add_new row y)) as [H1 H2].
    { unfold add_new. case_decide; [done|]. apply NoDup_app. split; [done|].
      split; [|apply NoDup_singleton]. intros x Hx ->%list_elem_of_singleton. done. }
    split; [done|]. intros x. rewrite H2, elem_of_cons. unfold add_new.
    case_decide as Hy; [|rewrite elem_of_app, list_elem_of_singleton]; [|tauto].
    split; [tauto|]. intros [?|[->|?]]; tauto.
Qed.

Lemma range_split a k b : a ≤ k → k ≤ b → range a b = range a k ++ range k b.
Proof.
  intros H1 H2. unfold range. replace (b - a) with ((k - a) + (b - k)) by lia.
  rewrite seqZ_app by lia. do 2 f_equal; lia.
Qed.

(** One pass of the body of the loop on the two cells of a face: the
    linear search from the start of the row, and the append with its
    reallocation.  The state is
    [(vtx_cells_lst, vtx_cells_connect_size, estimated)]. *)
Definition scan (start : Z) (st : list Z * Z * Z) (cell_num : Z) : list Z * Z * Z :=
  let '(vtx_cells_lst, vtx_cells_connect_size, estimated) := st in
  let already_seen :=
    existsb (λ idx, bool_decide (cell_num = rd vtx_cells_lst idx))
            (range start vtx_cells_connect_size) in
  if already_seen then (vtx_cells_lst, vtx_cells_connect_size, estimated)
  else
    let '(estimated, vtx_cells_lst) :=
      if decide (vtx_cells_connect_size + 1 > estimated)
      then (estimated * 2, bft_realloc vtx_cells_lst (estimated * 2))
      else (estimated, vtx_cells_lst) in
    (wr vtx_cells_lst vtx_cells_connect_size cell_num,
     vtx_cells_connect_size + 1, estimated).

(** The part of the list in use: [pre] for the rows that are complete and
    [row] for the row being built; the allocated size never falls below
    [m]. *)
Definition scanning (m : Z) (pre row : list Z) (st : list Z * Z * Z) : Prop :=
  let '(lst, size, est) := st in
  size = Z.of_nat (length pre + length row) ∧ size ≤ est ∧ m ≤ est ∧
  Z.of_nat (length lst) = est ∧ take (Z.to_nat size) lst = pre ++ row.

Lemma scan_step m pre row st x :
  1 ≤ m → scanning m pre row st →
  scanning m pre (add_new row x) (scan (Z.of_nat (length pre)) st x).
Proof.
  destruct st as [[lst size] est]. intros Hm (Hsz & Hle & Hest & Hlen & Htake).
  unfold scan. cbv zeta.
  assert (Hrow : row = rd lst <$> range (Z.of_nat (length pre)) size).
  { rewrite <- segment_range by lia.
    replace lst with (take (Z.to_nat size) lst ++ drop (Z.to_nat size) lst) at 1
      by apply take_drop.
    rewrite Htake, <- app_assoc, Nat2Z.id, drop_app_length.
    rewrite take_app_length'; [done|lia]. }
  assert (Hseen : existsb (λ idx, bool_decide (x = rd lst idx))
                    (range (Z.of_nat (length pre)) size) = true ↔ x ∈ row).
  { rewrite existsb_exists, Hrow, list_elem_of_fmap. split.
    - intros (i & Hi%list_elem_of_In & Hx%bool_decide_eq_true). by exists i.
    - intros (i & Hx & Hi). exists i. rewrite <- list_elem_of_In.
      split; [done|]. by apply bool_decide_eq_true. }
  unfold add_new.
  destruct (existsb _ _) eqn:E.
  - rewrite decide_True by by apply Hseen. done.
  - rewrite decide_False by (rewrite <- Hseen; congruence).
    assert (Hgrow : ∀ l e, Z.of_nat (length l) = e → size + 1 ≤ e → m ≤ e →
              take (Z.to_nat size) l = pre ++ row →
              scanning m pre (row ++ [x]) (wr l size x, size + 1, e)).
    { intros l e Hl He Hme Ht. unfold scanning. rewrite length_wr, length_app. simpl.
      split; [lia|]. split; [lia|]. split; [lia|]. split; [done|].
      unfold wr. rewrite decide_True by lia.
      replace (Z.to_nat (size + 1)) with (S (Z.to_nat size)) by lia.
      rewrite (take_S_r _ _ x) by (apply list_lookup_insert_eq; lia).
      rewrite take_insert_ge by lia. rewrite Ht. by rewrite <- app_assoc. }
    case_decide.
    + apply Hgrow.
      * unfold bft_realloc. rewrite length_app, length_take, length_replicate. lia.
      * lia.
      * lia.
      * unfold bft_realloc. rewrite take_app_le by (rewrite length_take; lia).
        rewrite take_take. rewrite Nat.min_l by lia. done.
    + apply Hgrow; [done|lia|done|done].
Qed.

Lemma scan_fold m pre l : ∀ row st,
  1 ≤ m → scanning m pre row st →
  scanning m pre (foldl add_new row l) (foldl (scan (Z.of_nat (length pre))) st l).
Proof.
  induction l as [|x l IH]; intros row st Hm H; [done|].
  cbn [foldl]. apply IH; [done|]. by apply scan_step.
Qed.

End DedupScan.

Section VtxCellsProofs.

Context (mesh : cs_mesh_t).

(** Internal face [face_id] (from 0) sends its number [face_id + 1] to the
    row of each of its vertices, in the order of the two passes on the
    faces. *)
Definition vtx_face_events : list (Z * Z) :=
  range 0 (n_i_faces mesh) ≫= λ face_id,
    (λ i, (rd (i_face_vtx_lst mesh) i - 1, face_id + 1)) <$>
      range (rd (i_face_vtx_idx mesh) face_id - 1)
            (rd (i_face_vtx_idx mesh) (face_id + 1) - 1).

(** The vertices of the internal faces are vertices of the mesh. *)
Definition face_vtx_ok : Prop :=
  ∀ f i_vtx, 0 ≤ f < n_i_faces mesh →
    rd (i_face_vtx_idx mesh) f ≤ i_vtx < rd (i_face_vtx_idx mesh) (f + 1) →
    1 ≤ rd (i_face_vtx_lst mesh) (i_vtx - 1) ≤ n_vertices mesh.

(** The cell numbers [_create_vtx_cells_connect] tries for vertex [v], in
    order: the two cells of each face of the vertex. *)
Definition vtx_candidates (v : Z) : list Z :=
  vals v vtx_face_events ≫= λ face_num,
    [rd (i_face_cells mesh) (2 * (face_num - 1) + 0);
     rd (i_face_cells mesh) (2 * (face_num - 1) + 1)].

Definition vtx_row (v : Z) : list Z := foldl add_new [] (vtx_candidates v).

Definition rows_upto (v : Z) : list Z := range 0 v ≫= vtx_row.

Lemma elem_of_vtx_face_events v e :
  (v, e) ∈ vtx_face_events ↔
  ∃ f, 0 ≤ f < n_i_faces mesh ∧ e = f + 1 ∧ on_face mesh f v.
Proof.
  unfold vtx_face_events, on_face. rewrite list_elem_of_bind. split.
  - intros (f & (i & [= -> ->] & Hi%elem_of_range)%list_elem_of_fmap & Hf%elem_of_range).
    exists f. split; [done|]. split; [done|]. exists (i + 1).
    split; [lia|]. by replace (i + 1 - 1) with i by lia.
  - intros (f & Hf & -> & i & Hi & ->). exists f. rewrite elem_of_range. split; [|done].
    apply list_elem_of_fmap. exists (i - 1). rewrite elem_of_range. split; [done|lia].
Qed.

Lemma vtx_face_events_ok : face_vtx_ok → rows_ok (n_vertices mesh) vtx_face_events.
Proof.
  intros Hok. apply Forall_forall. intros [v e] (f & Hf & -> & i & Hi & ->)%elem_of_vtx_face_events.
  pose proof (Hok f i Hf Hi). simpl. lia.
Qed.

Lemma elem_of_vals r ev x : x ∈ vals r ev ↔ (r, x) ∈ ev.
Proof.
  unfold vals. rewrite list_elem_of_fmap. split.
  - intros ([r' x'] & -> & [Hr Hin]%list_elem_of_filter). simpl in *. by subst.
  - intros H. exists (r, x). split; [done|]. by apply list_elem_of_filter.
Qed.

Lemma elem_of_vtx_row v x :
  x ∈ vtx_row v ↔
  ∃ f, 0 ≤ f < n_i_faces mesh ∧ on_face mesh f v ∧
       (x = rd (i_face_cells mesh) (2 * f) ∨ x = rd (i_face_cells mesh) (2 * f + 1)).
Proof.
  unfold vtx_row. destruct (add_new_spec (vtx_candidates v) [] (NoDup_nil_2)) as [_ ->].
  rewrite elem_of_nil. unfold vtx_candidates. rewrite list_elem_of_bind. split.
  - intros [[]|(e & Hx & (f & Hf & -> & Hon)%elem_of_vals%elem_of_vtx_face_events)].
    exists f. split; [done|]. split; [done|].
    replace (2 * (f + 1 - 1) + 0) with (2 * f) in Hx by lia.
    replace (2 * (f + 1 - 1) + 1) with (2 * f + 1) in Hx by lia.
    rewrite !elem_of_cons, elem_of_nil in Hx. tauto.
  - intros (f & Hf & Hon & Hx). right. exists (f + 1). split.
    + replace (2 * (f + 1 - 1) + 0) with (2 * f) by lia.
      replace (2 * (f + 1 - 1) + 1) with (2 * f + 1) by lia.
      rewrite !elem_of_cons, elem_of_nil. tauto.
    + apply elem_of_vals, elem_of_vtx_face_events. by exists f.
Qed.

Lemma NoDup_vtx_row v : NoDup (vtx_row v).
Proof. unfold vtx_row. apply add_new_spec, NoDup_nil_2. Qed.

Lemma rows_upto_succ v : 0 ≤ v → rows_upto (v + 1) = rows_upto v ++ vtx_row v.
Proof.
  intros Hv. unfold rows_upto. rewrite range_snoc by done.
  rewrite bind_app. f_equal. simpl. apply app_nil_r.
Qed.

(** The vertex -> faces connectivity: the index after the counting and the
    sum, the list after the filling, and the index once shifted back. *)
Lemma vtx_faces_pass :
  0 ≤ n_vertices mesh → face_vtx_ok →
  let n := n_vertices mesh in
  let idx0 := sum_index n (wr (foldl count_event (replicate (Z.to_nat (n + 1)) 0)
                                 (vtx_face_events.*1)) 0 1) in
  let st := foldl advance (idx0, bft_malloc (rd idx0 n - 1)) vtx_face_events in
  wr (foldl (λ a v, wr a v (rd a (v - 1))) st.1 (reverse (range 1 (n + 1)))) 0 1 = idx0 ∧
  rd idx0 0 = 1 ∧
  (∀ k, 0 ≤ k < n → rd idx0 (k + 1) = rd idx0 k + occ k vtx_face_events) ∧
  Z.of_nat (length st.2) = rd idx0 n - 1 ∧
  ∀ v, 0 ≤ v < n → csr_row 1 idx0 st.2 v = vals v vtx_face_events.
Proof.
  intros Hn Hok. cbv zeta. set (n := n_vertices mesh) in *.
  pose proof (vtx_face_events_ok Hok) as Hev. fold n in Hev.
  set (ev := vtx_face_events) in *.
  destruct (count_events n ev (replicate (Z.to_nat (n + 1)) 0) Hev) as (Hl0 & H00 & Hc0);
    [rewrite length_replicate; lia|].
  set (c0 := foldl count_event (replicate (Z.to_nat (n + 1)) 0) ev.*1) in *.
  rewrite length_replicate in Hl0.
  destruct (sum_index_spec n (wr c0 0 1)) as (Hl1 & H10 & Hs1); [rewrite length_wr; lia|done|].
  set (idx0 := sum_index n (wr c0 0 1)) in *.
  rewrite length_wr in Hl1. rewrite rd_wr_eq in H10 by lia.
  assert (Hidx : ∀ k, 0 ≤ k < n → rd idx0 (k + 1) = rd idx0 k + occ k ev).
  { intros k Hk. rewrite (Hs1 k Hk), rd_wr_ne by lia. rewrite (Hc0 k Hk).
    rewrite rd_replicate by lia. lia. }
  assert (Hge : 1 ≤ rd idx0 n).
  { rewrite <- H10. apply (index_le n idx0 ev); [done|lia|lia|lia]. }
  destruct (advance_place n idx0 ev idx0 (replicate (Z.to_nat n) 0)
              (bft_malloc (rd idx0 n - 1)) Hev) as (E2 & Hl2 & Hr2 & Hn2).
  { lia. }
  { rewrite length_replicate. lia. }
  { intros r Hr. rewrite rd_replicate by lia. lia. }
  { done. }
  set (st := foldl advance (idx0, bft_malloc (rd idx0 n - 1)) ev) in *.
  set (pt := foldl (place 1 idx0) (replicate (Z.to_nat n) 0, bft_malloc (rd idx0 n - 1)) ev) in *.
  assert (Hlen0 : Z.of_nat (length (bft_malloc (rd idx0 n - 1))) = rd idx0 n - 1).
  { unfold bft_malloc. rewrite length_replicate. lia. }
  destruct (place_events n 1 idx0 (length (bft_malloc (rd idx0 n - 1))) ev Hev H10 Hidx
              Hlen0 ev [] (replicate (Z.to_nat n) 0, bft_malloc (rd idx0 n - 1)) eq_refl)
    as (_ & Hlp & Hcnt & _).
  { split; [cbn [fst]; rewrite length_replicate; lia|]. split; [done|].
    split; [|intros r k v _ H; rewrite vals_nil in H; by rewrite lookup_nil in H].
    intros r Hr. cbn [fst]. rewrite rd_replicate by lia. by rewrite occ_nil. }
  fold pt in Hlp, Hcnt.
  destruct (buckets_rows n 1 idx0 pt.2 (replicate (Z.to_nat n) 0)
              (bft_malloc (rd idx0 n - 1)) ev Hn Hev H10 Hidx Hlen0) as [Hll Hrows].
  { rewrite length_replicate. lia. }
  { intros r Hr. by rewrite rd_replicate by lia. }
  { done. }
  rewrite E2. split; [|done].
  destruct (shift_down (Z.to_nat n) st.1) as [Hl3 Hr3]; [lia|].
  rewrite Z2Nat.id in Hl3, Hr3 by lia.
  apply array_ext; [rewrite length_wr; lia|].
  intros k Hk. rewrite length_wr, Hl3 in Hk.
  rewrite rd_wr by lia. case_decide; [by subst|].
  rewrite Hr3. rewrite decide_True by lia.
  rewrite Hr2, Hcnt by lia. rewrite <- Hidx by lia. f_equal. lia.
Qed.

(** The rows of the vertex -> cells connectivity. *)
Lemma vtx_cells_connect_rows :
  0 ≤ n_vertices mesh → face_vtx_ok →
  let r := _create_vtx_cells_connect mesh in
  Z.of_nat (length r.1) = n_vertices mesh + 1 ∧
  r.2 = rows_upto (n_vertices mesh) ∧
  ∀ u, 0 ≤ u ≤ n_vertices mesh → rd r.1 u = 1 + Z.of_nat (length (rows_upto u)).
Proof.
  intros Hn Hok. cbv zeta.
  destruct (vtx_faces_pass Hn Hok) as (Eshift & H0 & Hidx & Hlen & Hrows).
  unfold _create_vtx_cells_connect. cbv zeta.
  set (n := n_vertices mesh) in *.
  (* the vertex -> faces connectivity *)
  assert (Hcount :
    foldl (λ vtx_faces_idx face_id,
      foldl (λ vtx_faces_idx i,
        wr vtx_faces_idx (rd (i_face_vtx_lst mesh) i - 1 + 1)
           (rd vtx_faces_idx (rd (i_face_vtx_lst mesh) i - 1 + 1) + 1))
      vtx_faces_idx
      (range (rd (i_face_vtx_idx mesh) face_id - 1)
             (rd (i_face_vtx_idx mesh) (face_id + 1) - 1)))
    (replicate (Z.to_nat (n + 1)) 0) (range 0 (n_i_faces mesh))
    = foldl count_event (replicate (Z.to_nat (n + 1)) 0) (vtx_face_events.*1)).
  { unfold vtx_face_events. rewrite fmap_bind_list, foldl_bind. apply foldl_ext_in.
    intros a f _. rewrite <- list_fmap_compose, foldl_fmap. done. }
  rewrite Hcount.
  assert (Hsum : ∀ c, foldl (λ a v, wr a (v + 1) (rd a (v + 1) + rd a v)) c (range 0 n)
                      = sum_index n c).
  { intros c. unfold sum_index. apply foldl_ext_in. intros a i _. f_equal. lia. }
  rewrite Hsum.
  set (idx0 := sum_index n (wr (foldl count_event (replicate (Z.to_nat (n + 1)) 0)
                                  (vtx_face_events.*1)) 0 1)) in *.
  assert (Hfill : ∀ st,
    foldl (λ st face_id,
      foldl (λ '(vtx_faces_idx, vtx_faces_lst) i,
        (wr vtx_faces_idx (rd (i_face_vtx_lst mesh) i - 1)
            (rd vtx_faces_idx (rd (i_face_vtx_lst mesh) i - 1) + 1),
         wr vtx_faces_lst (rd vtx_faces_idx (rd (i_face_vtx_lst mesh) i - 1) - 1)
            (face_id + 1)))
      st (range (rd (i_face_vtx_idx mesh) face_id - 1)
                (rd (i_face_vtx_idx mesh) (face_id + 1) - 1)))
    st (range 0 (n_i_faces mesh))
    = foldl advance st vtx_face_events).
  { intros st. unfold vtx_face_events. rewrite foldl_bind. apply foldl_ext_in.
    intros st' f _. rewrite foldl_fmap. apply foldl_ext_in. by intros [a l] i _. }
  rewrite Hfill.
  destruct (foldl advance (idx0, bft_malloc (rd idx0 n - 1)) vtx_face_events)
    as [cur vfl] eqn:Est.
  cbn [fst snd] in Eshift, Hlen, Hrows.
  rewrite Eshift. clear Eshift Est Hfill Hsum Hcount cur.
  (* the vertex -> cells connectivity *)
  assert (Hle : ∀ k1 k2, 0 ≤ k1 → k1 ≤ k2 → k2 ≤ n → rd idx0 k1 ≤ rd idx0 k2).
  { intros k1 k2 ? ? ?. by apply (index_le n idx0 vtx_face_events). }
  match goal with |- context [foldl ?f ?s0 (range 0 n)] =>
    assert (Hinv : let '(idx, lst, size, est) := foldl f s0 (range 0 n) in
       Z.of_nat (length idx) = n + 1 ∧
       (∀ u, 0 ≤ u ≤ n → rd idx u = 1 + Z.of_nat (length (rows_upto u))) ∧
       scanning (3 * n) (rows_upto n) [] (lst, size, est));
    [apply (foldl_range_ind (λ v st, let '(idx, lst, size, est) := st in
       Z.of_nat (length idx) = n + 1 ∧
       (∀ u, 0 ≤ u ≤ v → rd idx u = 1 + Z.of_nat (length (rows_upto u))) ∧
       scanning (3 * n) (rows_upto v) [] (lst, size, est)) f s0 0 n Hn)
    | destruct (foldl f s0 (range 0 n)) as [[[idx lst] size] est] ]
  end.
  - rewrite length_wr, length_replicate. split; [lia|]. split.
    + intros u Hu. assert (u = 0) as -> by lia. rewrite rd_wr_eq by (rewrite length_replicate; lia).
      done.
    + unfold scanning, bft_malloc. rewrite length_replicate. simpl. repeat split; lia.
  - intros v [[[idx lst] size] est] Hv (Hl & Hu & Hsc). cbv beta iota.
    match goal with |- context [foldl ?g (lst, size, est) (range ?a ?b)] =>
      assert (foldl g (lst, size, est) (range a b)
              = foldl (scan (Z.of_nat (length (rows_upto v)))) (lst, size, est)
                      (vtx_candidates v)) as ->
    end.
    { unfold vtx_candidates. rewrite <- (Hrows v Hv). unfold csr_row.
      pose proof (Hle 0 v). pose proof (Hle (v + 1) n). pose proof (Hle v (v + 1)).
      replace (rd idx0 (v + 1) - rd idx0 v)
        with ((rd idx0 (v + 1) - 1) - (rd idx0 v - 1)) by lia.
      rewrite segment_range by lia.
      rewrite foldl_bind, foldl_fmap. apply foldl_ext_in. intros st i _.
      change (range 0 2) with [0; 1].
      rewrite (foldl_ext_in _ (λ st j, scan (Z.of_nat (length (rows_upto v))) st
                                 (rd (i_face_cells mesh) (2 * (rd vfl i - 1) + j)))).
      2: { intros [[l s] e] j _. unfold scan.
           replace (rd idx v - 1) with (Z.of_nat (length (rows_upto v)))
             by (rewrite Hu; lia).
           reflexivity. }
      reflexivity. }
    pose proof (scan_fold (3 * n) (rows_upto v) (vtx_candidates v) [] (lst, size, est)
                  ltac:(lia) Hsc) as Hsc'.
    fold (vtx_row v) in Hsc'.
    destruct (foldl (scan _) _ _) as [[lst' size'] est'].
    destruct Hsc' as (Hsz & Hse & Hme & Hll & Htk).
    rewrite length_wr. split; [done|]. rewrite rows_upto_succ by lia. split.
    + intros u Hu'. rewrite rd_wr by lia. case_decide as Hd.
      * subst u. rewrite rows_upto_succ, length_app by lia. lia.
      * apply Hu. lia.
    + unfold scanning. rewrite app_nil_r, length_app. simpl.
      split; [lia|]. split; [done|]. split; [done|]. split; done.
  - destruct Hinv as (Hl & Hu & Hsz & Hse & Hme & Hll & Htk). cbn [fst snd].
    split; [done|]. split; [|done].
    rewrite app_nil_r in Htk. unfold bft_realloc. rewrite Htk.
    replace (Z.to_nat size - length lst)%nat with 0%nat by lia. simpl. apply app_nil_r.
Qed.

End VtxCellsProofs.

Section FilterTheorems.

Context (mesh : cs_mesh_t).

Lemma rows_upto_split v1 v2 :
  0 ≤ v1 → v1 ≤ v2 →
  rows_upto mesh v2 = rows_upto mesh v1 ++ (range v1 v2 ≫= vtx_row mesh).
Proof.
  intros H1 H2. unfold rows_upto. by rewrite (range_split 0 v1 v2), bind_app by lia.
Qed.

(** Row [v] of the connectivity is the list of the cells of the faces of
    [v], each at its first occurrence. *)
Lemma vtx_cells_connect_row v :
  0 ≤ n_vertices mesh → face_vtx_ok mesh → 0 ≤ v < n_vertices mesh →
  let r := _create_vtx_cells_connect mesh in
  1 ≤ rd r.1 v ∧ rd r.1 v ≤ rd r.1 (v + 1) ∧
  rd r.1 (v + 1) - 1 ≤ Z.of_nat (length r.2) ∧
  csr_row 1 r.1 r.2 v = vtx_row mesh v.
Proof.
  intros Hn Hok Hv. cbv zeta.
  destruct (vtx_cells_connect_rows mesh Hn Hok) as (Hl & E2 & Hu).
  rewrite E2. unfold csr_row. rewrite (Hu v), (Hu (v + 1)) by lia.
  rewrite (rows_upto_split (v + 1) (n_vertices mesh)) by lia.
  rewrite rows_upto_succ by lia. rewrite !length_app.
  split; [lia|]. split; [lia|]. split; [lia|].
  rewrite <- app_assoc.
  replace (Z.to_nat (1 + Z.of_nat (length (rows_upto mesh v)) - 1))
    with (length (rows_upto mesh v)) by lia.
  rewrite drop_app_length.
  apply take_app_length'. lia.
Qed.

(** The vertex -> cells connectivity that [_create_vtx_cells_connect]
    builds for the filter: the index has an entry per vertex and one more,
    starts at 1 and covers the list; the row of a vertex has no repeated
    entry, and holds the cell number [x] exactly when [x] is one of the two
    cells of an internal face that has the vertex. *)
Theorem vtx_cells_connect_spec :
  0 ≤ n_vertices mesh → face_vtx_ok mesh →
  let r := _create_vtx_cells_connect mesh in
  rd r.1 0 = 1 ∧
  Z.of_nat (length r.1) = n_vertices mesh + 1 ∧
  Z.of_nat (length r.2) = rd r.1 (n_vertices mesh) - 1 ∧
  ∀ v, 0 ≤ v < n_vertices mesh →
    rd r.1 v ≤ rd r.1 (v + 1) ∧
    NoDup (csr_row 1 r.1 r.2 v) ∧
    ∀ x, x ∈ csr_row 1 r.1 r.2 v ↔
         ∃ f, 0 ≤ f < n_i_faces mesh ∧ on_face mesh f v ∧
              (x = rd (i_face_cells mesh) (2 * f)
               ∨ x = rd (i_face_cells mesh) (2 * f + 1)).
Proof.
  intros Hn Hok r.
  destruct (vtx_cells_connect_rows mesh Hn Hok) as (Hl & E2 & Hu). fold r in Hl, E2, Hu.
  split; [by rewrite Hu by lia|]. split; [done|].
  split; [rewrite E2, Hu by lia; lia|].
  intros v Hv. destruct (vtx_cells_connect_row v Hn Hok Hv) as (_ & Hle & _ & Hrow).
  fold r in Hle, Hrow. split; [done|]. rewrite Hrow.
  split; [apply NoDup_vtx_row|]. intros x. apply elem_of_vtx_row.
Qed.

Lemma vtx_touches_iff v x :
  0 ≤ n_vertices mesh → face_vtx_ok mesh → 0 ≤ v < n_vertices mesh →
  let r := _create_vtx_cells_connect mesh in
  vtx_touches r.1 r.2 v x = true ↔ x ∈ vtx_row mesh v.
Proof.
  intros Hn Hok Hv r.
  destruct (vtx_cells_connect_row v Hn Hok Hv) as (H1 & Hle & Hlen & Hrow).
  fold r in H1, Hle, Hlen, Hrow. rewrite <- Hrow.
  rewrite elem_of_csr_row by lia. unfold vtx_touches. rewrite existsb_exists. split.
  - intros (k & Hk%list_elem_of_In%elem_of_range & Hx%bool_decide_eq_true).
    exists (k + 1). split; [lia|]. by replace (k + 1 - 1) with k by lia.
  - intros (i & Hi & ->). exists (i - 1). rewrite <- list_elem_of_In, elem_of_range.
    split; [lia|]. by apply bool_decide_eq_true.
Qed.

(** The test of the filter, in terms of the mesh. *)
Lemma kept_iff below_limit c x :
  0 ≤ n_vertices mesh → face_vtx_ok mesh →
  let r := _create_vtx_cells_connect mesh in
  kept mesh below_limit r.1 r.2 c x = true ↔
  ∃ F v g, adjoins mesh F c ∧ below_limit F = true ∧ on_face mesh F v ∧
           0 ≤ g < n_i_faces mesh ∧ on_face mesh g v ∧
           (x = rd (i_face_cells mesh) (2 * g) ∨ x = rd (i_face_cells mesh) (2 * g + 1)).
Proof.
  intros Hn Hok r. unfold kept, kept_upto. rewrite existsb_exists. split.
  - intros (F & HF%list_elem_of_In%elem_of_range & Hc). unfold confirms in Hc.
    apply andb_true_iff in Hc as [[Hb Hadj]%andb_true_iff Ht].
    unfold face_touches in Ht. apply existsb_exists in Ht as (j & Hj & Hv).
    apply list_elem_of_In, elem_of_range in Hj.
    pose proof (Hok F (j + 1) HF ltac:(lia)) as Hvalid.
    replace (j + 1 - 1) with j in Hvalid by lia.
    apply vtx_touches_iff in Hv; [|done|done|lia].
    apply elem_of_vtx_row in Hv as (g & Hg & Hon & Hx).
    exists F, (rd (i_face_vtx_lst mesh) j - 1), g.
    split.
    { split; [done|]. apply orb_true_iff in Hadj as [H|H]; apply bool_decide_eq_true in H; tauto. }
    split; [done|]. split; [|done].
    exists (j + 1). split; [lia|]. by replace (j + 1 - 1) with j by lia.
  - intros (F & v & g & [HF Hadj] & Hb & (i & Hi & ->) & Hg & Hon & Hx).
    exists F. rewrite <- list_elem_of_In, elem_of_range. split; [done|].
    unfold confirms. rewrite Hb. simpl. apply andb_true_iff. split.
    { apply orb_true_iff. destruct Hadj; [left|right]; by apply bool_decide_eq_true. }
    unfold face_touches. apply existsb_exists. exists (i - 1).
    rewrite <- list_elem_of_In, elem_of_range. split; [lia|].
    pose proof (Hok F i HF Hi).
    apply vtx_touches_iff; [done|done|lia|].
    apply elem_of_vtx_row. by exists g.
Qed.

Lemma n_pos_mono (fl : list Z) a b : 0 ≤ a → a ≤ b → n_pos fl a ≤ n_pos fl b.
Proof.
  intros Ha Hab. unfold n_pos.
  replace (Z.to_nat b) with (Z.to_nat a + Z.to_nat (b - a))%nat by lia.
  rewrite <- take_take_drop, filter_app, length_app. lia.
Qed.

(** The rows that [redvse] leaves, by the test of the filter. *)
Lemma redvse_rows below_limit (idx lst : list Z) :
  cell_cells_idx mesh = Some idx →
  cell_cells_lst mesh = Some lst →
  halo_type mesh ≠ CS_HALO_STANDARD →
  csr_ok mesh idx lst →
  face_cells_ok mesh →
  let vtx_cells := _create_vtx_cells_connect mesh in
  let mesh' := (redvse mesh below_limit 0).2 in
  ∃ idx' lst',
    cell_cells_idx mesh' = Some idx' ∧
    cell_cells_lst mesh' = Some lst' ∧
    n_cells mesh' = n_cells mesh ∧
    csr_ok mesh idx' lst' ∧
    ∀ c, 0 ≤ c < n_cells mesh →
      csr_row 1 idx' lst' c
      = filter (λ x, kept mesh below_limit vtx_cells.1 vtx_cells.2 c x) (csr_row 1 idx lst c).
Proof.
  intros Hidx Hlst Hhalo Hok Hfc. cbv zeta.
  unfold redvse. rewrite decide_True by done. rewrite Hlst, Hidx, decide_False by done.
  destruct (_create_vtx_cells_connect mesh) as [vidx vlst]. cbn [fst snd].
  destruct (tag_faces_spec mesh below_limit vidx vlst idx lst Hok Hfc) as [Hl1 Htag].
  set (tagged := tag_faces mesh below_limit vidx vlst idx lst) in *.
  pose proof (csr_n _ _ _ Hok) as Hn. pose proof (csr_first _ _ _ Hok) as Hfirst.
  pose proof (csr_last _ _ _ Hok) as Hlast.
  destruct (change_signs_spec mesh idx tagged) as [Hl2 Hflip]; [by rewrite Hl1|].
  set (fl := change_signs mesh idx tagged) in *.
  assert (Hdel : let '(idx', lst1, _, _, _) := delete_negative mesh idx fl in
            length idx' = length idx ∧
            (∀ c, 0 ≤ c ≤ n_cells mesh → rd idx' c = 1 + n_pos fl (rd idx c - 1)) ∧
            bft_realloc lst1 (rd idx' (n_cells mesh) - 1) = filter (λ x, x > 0) fl).
  { apply (delete_negative_spec idx fl (n_cells mesh)); try done.
    - apply (csr_len _ _ _ Hok).
    - intros c1 c2 ? ? ?. by apply (csr_mono_le mesh idx lst).
    - by rewrite Hl2, Hl1. }
  destruct (delete_negative mesh idx fl) as [[[[idx' lst1] prev] new_idx] n_del].
  destruct Hdel as (Hl3 & Hidx' & Hre).
  assert (Hfl : length fl = length lst) by by rewrite Hl2, Hl1.
  exists idx', (bft_realloc lst1 (rd idx' (n_cells mesh) - 1)). cbn [fst snd].
  split; [done|]. split; [done|]. split; [done|]. split.
  { rewrite Hre. constructor.
    - done.
    - rewrite Hl3. apply (csr_len _ _ _ Hok).
    - rewrite Hidx', Hfirst by lia. replace (1 - 1) with 0 by lia. unfold n_pos. simpl. lia.
    - intros c Hc. rewrite !Hidx' by lia.
      pose proof (csr_mono _ _ _ Hok c Hc).
      pose proof (csr_mono_le mesh idx lst 0 c Hok).
      pose proof (n_pos_mono fl (rd idx c - 1) (rd idx (c + 1) - 1)). lia.
    - rewrite Hidx' by lia. unfold n_pos.
      rewrite Hlast, <- Hfl, Nat2Z.id, firstn_all. lia.
    - intros p Hp. apply lookup_rd in Hp.
      apply list_elem_of_lookup_2, list_elem_of_filter in Hp as [Hp _]. lia. }
  intros c Hc. rewrite Hre. unfold csr_row. rewrite !Hidx' by lia.
  destruct (csr_row_bounds mesh idx lst c Hok Hc) as [Ha Hb].
  pose proof (csr_mono _ _ _ Hok c Hc) as Hab.
  set (a := rd idx c - 1) in *. set (b := rd idx (c + 1) - 1) in *.
  replace (rd idx (c + 1) - rd idx c) with (b - a) by (unfold a, b; lia).
  unfold n_pos.
  match goal with |- take ?n1 (drop ?n2 _) = _ =>
    replace n1 with (length (filter (λ x : Z, (x > 0)%Z) (take (Z.to_nat b) fl))
                     - length (filter (λ x : Z, (x > 0)%Z) (take (Z.to_nat a) fl)))%nat by lia;
    replace n2 with (length (filter (λ x : Z, (x > 0)%Z) (take (Z.to_nat a) fl))) by lia
  end.
  rewrite filter_segment by lia.
  replace (Z.to_nat b - Z.to_nat a)%nat with (Z.to_nat (b - a)) by lia.
  rewrite !segment_range by lia.
  apply filter_pointwise. intros p Hp%elem_of_range.
  pose proof (csr_pos _ _ _ Hok p ltac:(lia)) as Hx.
  rewrite Hflip by lia. rewrite (Htag c p Hc) by (unfold a, b in Hp; lia).
  destruct (kept mesh below_limit vidx vlst c (rd lst p)); simpl; split; try lia;
    split; try done; lia.
Qed.









(** What the filter keeps, in terms of the mesh.  On its first call, with
    an extended neighbourhood present, [redvse] keeps the neighbour [x] of
    a cell [c] exactly when some internal face [F] of [c] that is at or
    below the cosine limit has a vertex in common with an internal face
    [g] of cell [x]; it adds nothing to a row.  The outcome of the
    floating-point comparison on each face is the parameter
    [below_limit]. *)
Theorem redvse_keeps_shared_vertex below_limit (idx lst : list Z) :
  cell_cells_idx mesh = Some idx →
  cell_cells_lst mesh = Some lst →
  halo_type mesh ≠ CS_HALO_STANDARD →
  csr_ok mesh idx lst →
  face_cells_ok mesh →
  0 ≤ n_vertices mesh →
  face_vtx_ok mesh →
  let mesh' := (redvse mesh below_limit 0).2 in
  ∃ idx' lst',
    cell_cells_idx mesh' = Some idx' ∧
    cell_cells_lst mesh' = Some lst' ∧
    ∀ c x, 0 ≤ c < n_cells mesh →
      x ∈ csr_row 1 idx' lst' c ↔
      x ∈ csr_row 1 idx lst c ∧
      ∃ F v g, adjoins mesh F c ∧ below_limit F = true ∧ on_face mesh F v ∧
               0 ≤ g < n_i_faces mesh ∧ on_face mesh g v ∧
               (x = rd (i_face_cells mesh) (2 * g)
                ∨ x = rd (i_face_cells mesh) (2 * g + 1)).
Proof.
  intros Hidx Hlst Hhalo Hok Hfc Hn Hfv mesh'. subst mesh'.
  destruct (redvse_rows below_limit idx lst Hidx Hlst Hhalo Hok Hfc)
    as (idx' & lst' & Hi & Hl & _ & _ & Hrows).
  exists idx', lst'. split; [done|]. split; [done|].
  intros c x Hc. rewrite (Hrows c Hc), list_elem_of_filter.
  rewrite Is_true_true, (kept_iff below_limit c x Hn Hfv). tauto.
Qed.

(** The filter keeps the connectivity well formed.  After a first call of
    [redvse] with an extended neighbourhood present, the index still has
    an entry per cell and one more, starts at 1, never decreases and ends
    one past the length of the list, every entry of the list is a positive
    cell number, and each row is what is left of the old row, in the same
    order. *)
Theorem redvse_keeps_csr_ok below_limit (idx lst : list Z) :
  cell_cells_idx mesh = Some idx →
  cell_cells_lst mesh = Some lst →
  halo_type mesh ≠ CS_HALO_STANDARD →
  csr_ok mesh idx lst →
  face_cells_ok mesh →
  let mesh' := (redvse mesh below_limit 0).2 in
  ∃ idx' lst',
    cell_cells_idx mesh' = Some idx' ∧
    cell_cells_lst mesh' = Some lst' ∧
    csr_ok mesh' idx' lst' ∧
    ∀ c, 0 ≤ c < n_cells mesh → csr_row 1 idx' lst' c `sublist_of` csr_row 1 idx lst c.
Proof.
  intros Hidx Hlst Hhalo Hok Hfc mesh'. subst mesh'.
  destruct (redvse_rows below_limit idx lst Hidx Hlst Hhalo Hok Hfc)
    as (idx' & lst' & Hi & Hl & Hn & Hok' & Hrows).
  exists idx', lst'. split; [done|]. split; [done|]. split.
  - destruct Hok' as [H1 H2 H3 H4 H5 H6]. constructor; rewrite ?Hn; done.
  - intros c Hc. rewrite (Hrows c Hc). apply sublist_filter.
Qed.

(** The two builders of a vertex -> cells connectivity agree on the local
    cells: [_create_vtx_cells_connect2], from which the neighbourhood is
    built, lists the local cell [c] (from 0) for a vertex exactly when
    [_create_vtx_cells_connect], which the filter uses, lists the cell
    number [c + 1] for it; the latter lists the ghost cells of the faces as
    well. *)
Theorem vtx_cells_builders_agree halo n_cells_wghosts n_g_ghost_cells
    (gcell_vtx_idx gcell_vtx_lst : list Z) v c :
  mesh_ok mesh halo n_cells_wghosts n_g_ghost_cells gcell_vtx_idx gcell_vtx_lst →
  0 ≤ v < n_vertices mesh →
  let cell_i_faces := _get_cell_i_faces_connectivity mesh in
  let r2 := _create_vtx_cells_connect2 mesh cell_i_faces.1 cell_i_faces.2 in
  let r := _create_vtx_cells_connect mesh in
  c ∈ csr_row 0 r2.1 r2.2 v ↔ 0 ≤ c < n_cells mesh ∧ c + 1 ∈ csr_row 1 r.1 r.2 v.
Proof.
  intros Hok Hv cf r2 r.
  destruct (vtx_cells_rows mesh halo n_cells_wghosts n_g_ghost_cells
              gcell_vtx_idx gcell_vtx_lst Hok) as (_ & _ & _ & Hrows).
  destruct (Hrows v Hv) as [_ Hmem]. fold cf r2 in Hmem. rewrite Hmem.
  destruct (vtx_cells_connect_row v (ok_vertices _ _ _ _ _ _ Hok)
              (ok_face_vtx _ _ _ _ _ _ Hok) Hv) as (_ & _ & _ & Hrow).
  fold r in Hrow. rewrite Hrow, elem_of_vtx_row. unfold adjoins. split.
  - intros (Hc & g & [Hg Hadj] & Hon). split; [done|]. exists g.
    split; [done|]. split; [done|]. lia.
  - intros (Hc & g & Hg & Hon & Hx). split; [done|]. exists g.
    split; [|done]. split; [done|]. lia.
Qed.

(** One call of [_tag_cells] keeps the length of the list; the only
    entries it changes are positive entries of the row of [cell_id], which
    it replaces by their opposite, and none when [cell_id] is not a local
    cell; a second call with the same face and cell changes nothing. *)
Theorem tag_cells_only_negates (vtx_cells_idx vtx_cells_lst : list Z) face_id cell_id
    (cell_cells_idx cell_cells_lst : list Z) :
  (cell_id < n_cells mesh →
   0 ≤ rd cell_cells_idx cell_id - 1 ∧
   rd cell_cells_idx (cell_id + 1) - 1 ≤ Z.of_nat (length cell_cells_lst)) →
  let res := _tag_cells mesh face_id cell_id vtx_cells_idx vtx_cells_lst
               cell_cells_idx cell_cells_lst in
  length res = length cell_cells_lst ∧
  (∀ p, rd res p ≠ rd cell_cells_lst p →
        cell_id < n_cells mesh ∧
        rd cell_cells_idx cell_id - 1 ≤ p < rd cell_cells_idx (cell_id + 1) - 1 ∧
        0 < rd cell_cells_lst p ∧ rd res p = - rd cell_cells_lst p) ∧
  _tag_cells mesh face_id cell_id vtx_cells_idx vtx_cells_lst cell_cells_idx res = res.
Proof.
  intros Hb res.
  destruct (tag_cells_spec mesh (λ _, true) vtx_cells_idx vtx_cells_lst face_id cell_id
              cell_cells_idx cell_cells_lst Hb) as [Hl Hrd].
  fold res in Hl, Hrd.
  destruct (tag_cells_spec mesh (λ _, true) vtx_cells_idx vtx_cells_lst face_id cell_id
              cell_cells_idx res) as [Hl2 Hrd2]; [by rewrite Hl|].
  split; [done|]. split.
  - intros p Hne. rewrite Hrd in Hne |- *.
    destruct (decide (cell_id < n_cells mesh
                      ∧ rd cell_cells_idx cell_id - 1 ≤ p
                        < rd cell_cells_idx (cell_id + 1) - 1)) as [Hin|Hin]; [|done].
    unfold tag_val in *. destruct (decide (rd cell_cells_lst p > 0)); [|done].
    destruct (face_touches _ _ _ _ _); [|done]. repeat split; lia.
  - apply array_ext; [done|]. intros k _. rewrite Hrd2, Hrd.
    destruct (decide (cell_id < n_cells mesh
                      ∧ rd cell_cells_idx cell_id - 1 ≤ k
                        < rd cell_cells_idx (cell_id + 1) - 1)) as [Hin|Hin]; [|done].
    unfold tag_val. destruct (decide (rd cell_cells_lst k > 0)) as [Hpos|Hpos].
    + destruct (face_touches _ _ _ _ (rd cell_cells_lst k)) eqn:E.
      * rewrite decide_False by lia. done.
      * rewrite decide_True by lia. by rewrite E.
    + by rewrite decide_False by done.
Qed.

End FilterTheorems.


(** Case analysis on an integer that the hypotheses confine to a few
    values: [lo], [lo + 1], ... are tried in turn, until the bounds are
    exhausted. *)
Ltac enum k lo leaf :=
  first
    [ exfalso; lia
    | destruct (decide (k = lo)) as [->|?];
      [ first [exfalso; lia | leaf]
      | let lo' := constr:(lo + 1) in enum k lo' leaf ] ].

Ltac read_bounds H := unfold rd in H; simpl in H.

Ltac check_entry := vm_compute; repeat split; discriminate.

Section ExtInstances.

(** A mesh of four cells around one vertex (number 5 of a 3 x 3 grid of
    vertices), the faces being (1,2), (3,4), (1,3), (2,4); in [grid] the
    fourth cell is a ghost cell, in [grid4] it is a local one. *)
Definition grid : cs_mesh_t :=
  mk_mesh 3 3 4 9 [1; 2; 3; 4; 1; 3; 2; 4] [1; 3; 5; 7; 9] [2; 5; 5; 8; 4; 5; 5; 6]
          CS_HALO_EXTENDED None None.

Definition grid_halo : cs_halo_t := mk_halo (λ _, 1) [].

Lemma grid_ok : mesh_ok grid grid_halo 4 1 [0; 4] [5; 6; 8; 9].
Proof.
  constructor.
  - simpl. lia.
  - simpl. lia.
  - intros f Hf. simpl in Hf. enum f 0 check_entry.
  - intros f i_vtx Hf Hi. simpl in Hf.
    enum f 0 ltac:(read_bounds Hi; enum i_vtx 1 check_entry).
  - intros _. split; [lia|]. split; [simpl; lia|].
    intros id j Hid Hj. simpl in Hid. assert (id = 0) as -> by lia.
    read_bounds Hj. enum j 0 check_entry.
Defined.

(** Witness: three ghost cells with vertices {1,2,1}, {4,4}, {2,3,2}. *)
Lemma vtx_gcells_connect_shape_witness :
  let halo := mk_halo (λ _, 3) [] in
  let gidx := [0; 3; 5; 8] in
  let glst := [1; 2; 1; 4; 4; 2; 3; 2] in
  let r := _create_vtx_gcells_connect halo 4 gidx glst in
  rd r.1 0 = 0 ∧
  Z.of_nat (length r.1) = 4 + 1 ∧
  Z.of_nat (length r.2) = rd r.1 4 ∧
  (∀ v1 v2, 0 ≤ v1 → v1 ≤ v2 → v2 ≤ 4 → rd r.1 v1 ≤ rd r.1 v2) ∧
  ∀ v, 0 ≤ v < 4 →
    NoDup (csr_row 0 r.1 r.2 v) ∧
    ∀ id, id ∈ csr_row 0 r.1 r.2 v
          ↔ 0 ≤ id < n_elts halo CS_HALO_EXTENDED ∧
            ∃ j, rd gidx id ≤ j < rd gidx (id + 1) ∧ v = rd glst j - 1.
Proof.
  apply (vtx_gcells_connect_shape (mk_halo (λ _, 3) []) 4 [0; 3; 5; 8]
           [1; 2; 1; 4; 4; 2; 3; 2]).
  - lia.
  - intros id j Hid Hj. simpl in Hid.
    enum id 0 ltac:(read_bounds Hj; enum j 0 check_entry).
Defined.

(** Witness: the three local cells of [grid], with their rows of faces. *)
Lemma vtx_cells_connect2_spec_witness :
  let cfi := [1; 3; 5; 7] in
  let cfl := [1; 3; -1; 4; 2; -3] in
  let r := _create_vtx_cells_connect2 grid cfi cfl in
  rd r.1 0 = 0 ∧
  Z.of_nat (length r.1) = n_vertices grid + 1 ∧
  Z.of_nat (length r.2) = rd r.1 (n_vertices grid) ∧
  (∀ v1 v2, 0 ≤ v1 → v1 ≤ v2 → v2 ≤ n_vertices grid → rd r.1 v1 ≤ rd r.1 v2) ∧
  ∀ v, 0 ≤ v < n_vertices grid →
    NoDup (csr_row 0 r.1 r.2 v) ∧
    ∀ c, c ∈ csr_row 0 r.1 r.2 v
         ↔ 0 ≤ c < n_cells grid ∧
           ∃ i i_vtx,
             rd cfi c ≤ i < rd cfi (c + 1) ∧
             rd (i_face_vtx_idx grid) (face_at cfl i) ≤ i_vtx
               < rd (i_face_vtx_idx grid) (face_at cfl i + 1) ∧
             v = rd (i_face_vtx_lst grid) (i_vtx - 1) - 1.
Proof.
  apply (vtx_cells_connect2_spec grid [1; 3; 5; 7] [1; 3; -1; 4; 2; -3]).
  - simpl. lia.
  - intros c i i_vtx Hc Hi Hv. simpl in Hc.
    enum c 0 ltac:(read_bounds Hi;
      enum i 1 ltac:(unfold face_at in Hv; read_bounds Hv; enum i_vtx 1 check_entry)).
Defined.

(** Witness: [grid], with the connectivities the earlier stages compute
    for it. *)
Lemma cell_cells_connect_spec_witness :
  let cfi := [1; 3; 5; 7] in
  let cfl := [1; 3; -1; 4; 2; -3] in
  let vgi := [0; 0; 0; 0; 0; 1; 2; 2; 3; 4] in
  let vgl := [0; 0; 0; 0] in
  let vci := [0; 0; 2; 2; 4; 7; 8; 8; 9; 9] in
  let vcl := [0; 1; 0; 2; 0; 1; 2; 1; 2] in
  let r := _create_cell_cells_connect grid 4 cfi cfl vgi vgl vci vcl in
  rd r.1 0 = 1 ∧
  Z.of_nat (length r.1) = n_cells grid + 1 ∧
  Z.of_nat (length r.2) = rd r.1 (n_cells grid) - 1 ∧
  (∀ c1 c2, 0 ≤ c1 → c1 ≤ c2 → c2 ≤ n_cells grid → rd r.1 c1 ≤ rd r.1 c2) ∧
  ∀ c, 0 ≤ c < n_cells grid →
    NoDup (csr_row 1 r.1 r.2 c) ∧
    ∀ y, y ∈ csr_row 1 r.1 r.2 c
         ↔ vertex_neighbour grid 4 cfi cfl vgi vgl vci vcl c (y - 1)
           ∧ ¬ face_neighbour grid cfi cfl c (y - 1).
Proof.
  apply (cell_cells_connect_spec grid 4 [1; 3; 5; 7] [1; 3; -1; 4; 2; -3]
           [0; 0; 0; 0; 0; 1; 2; 2; 3; 4] [0; 0; 0; 0]
           [0; 0; 2; 2; 4; 7; 8; 8; 9; 9] [0; 1; 0; 2; 0; 1; 2; 1; 2]).
  - simpl. lia.
  - lia.
  - intros c x Hc. simpl in Hc.
    intros [(i & Hi & Hx)|(i & i_vtx & Hi & Hv & Hx)].
    + enum c 0 ltac:(read_bounds Hi;
        enum i 1 ltac:(destruct Hx as [->| ->]; check_entry)).
    + enum c 0 ltac:(read_bounds Hi;
        enum i 1 ltac:(unfold face_at in Hv; read_bounds Hv;
          enum i_vtx 1 ltac:(
            destruct Hx as [(j & Hj & ->)|(_ & j & Hj & ->)];
            read_bounds Hj; enum j 0 check_entry))).
Defined.

(** Witness: [grid], three local cells and one ghost cell. *)
Lemma ext_neighborhood_define_spec_witness :
  let mesh' := (cs_ext_neighborhood_define grid grid_halo 4 1 [0; 4] [5; 6; 8; 9]).2 in
  ∃ idx lst,
    cell_cells_idx mesh' = Some idx ∧ cell_cells_lst mesh' = Some lst ∧
    rd idx 0 = 1 ∧
    Z.of_nat (length lst) = rd idx (n_cells grid) - 1 ∧
    ∀ c, 0 ≤ c < n_cells grid →
      NoDup (csr_row 1 idx lst c) ∧
      (∀ y, y ∈ csr_row 1 idx lst c
            ↔ shares_vertex grid grid_halo 4 [0; 4] [5; 6; 8; 9] c (y - 1)
              ∧ ¬ shares_face grid c (y - 1)) ∧
      ((∃ f, adjoins grid f c) → c + 1 ∉ csr_row 1 idx lst c).
Proof.
  apply (ext_neighborhood_define_spec grid grid_halo 4 1 [0; 4] [5; 6; 8; 9]).
  apply grid_ok.
Defined.

Lemma ext_neighborhood_define_csr_ok_witness :
  let mesh' := (cs_ext_neighborhood_define grid grid_halo 4 1 [0; 4] [5; 6; 8; 9]).2 in
  ∃ idx lst,
    cell_cells_idx mesh' = Some idx ∧ cell_cells_lst mesh' = Some lst ∧
    csr_ok mesh' idx lst ∧ face_cells_ok mesh'.
Proof.
  apply (ext_neighborhood_define_csr_ok grid grid_halo 4 1 [0; 4] [5; 6; 8; 9]).
  apply grid_ok.
Defined.

(** What the builders compute on [grid]: the rows are [4], [3], [2] --
    each local cell has one neighbour across the central vertex. *)
Example ext_neighborhood_define_grid :
  let r := cs_ext_neighborhood_define grid grid_halo 4 1 [0; 4] [5; 6; 8; 9] in
  cell_cells_idx r.2 = Some [1; 2; 3; 4] ∧ cell_cells_lst r.2 = Some [4; 3; 2].
Proof. vm_compute. by split. Qed.

(** Witness: the second cell of [grid]. *)
Lemma cell_faces_decode_witness :
  let idx := (_get_cell_i_faces_connectivity grid).1 in
  let lst := (_get_cell_i_faces_connectivity grid).2 in
  (∀ e, e ∈ csr_row 1 idx lst 1 →
     0 ≤ Z.abs e - 1 < n_i_faces grid ∧
     (0 < e → rd (i_face_cells grid) (2 * (e - 1)) - 1 = 1) ∧
     (e < 0 → rd (i_face_cells grid) (2 * (- e - 1) + 1) - 1 = 1) ∧ e ≠ 0) ∧
  (∀ f, 0 ≤ f < n_i_faces grid →
     (rd (i_face_cells grid) (2 * f) - 1 = 1 ↔ f + 1 ∈ csr_row 1 idx lst 1) ∧
     (rd (i_face_cells grid) (2 * f + 1) - 1 = 1 ↔ - (f + 1) ∈ csr_row 1 idx lst 1)).
Proof.
  apply (cell_faces_decode grid 1).
  - simpl. lia.
  - intros i Hi. simpl in Hi. enum i 0 check_entry.
  - simpl. lia.
Defined.

End ExtInstances.


Section FilterInstances.

(** Four cells in a row: the faces (1,2), (2,3), (3,4), with two vertices
    each, and for every cell two listed neighbours. *)
Definition chain : cs_mesh_t :=
  mk_mesh 3 4 3 10 [1; 2; 2; 3; 3; 4] [1; 3; 5; 7] [3; 4; 5; 6; 7; 8]
          CS_HALO_EXTENDED (Some [1; 3; 5; 7; 9]) (Some [3; 4; 4; 1; 1; 2; 2; 1]).

Lemma chain_face_vtx_ok : face_vtx_ok chain.
Proof.
  intros f i_vtx Hf Hi. simpl in Hf.
  enum f 0 ltac:(read_bounds Hi; enum i_vtx 1 check_entry).
Defined.

Lemma chain_csr_ok : csr_ok chain [1; 3; 5; 7; 9] [3; 4; 4; 1; 1; 2; 2; 1].
Proof.
  constructor; simpl.
  - lia.
  - reflexivity.
  - reflexivity.
  - intros c Hc. enum c 0 check_entry.
  - reflexivity.
  - intros p Hp. enum p 0 ltac:(vm_compute; reflexivity).
Defined.

Lemma chain_face_cells_ok : face_cells_ok chain.
Proof. intros i Hi. simpl in Hi. enum i 0 check_entry. Defined.

(** The cells of [chain] have their centres one unit apart on the first
    axis; the first and the last face are normal to it, the middle face is
    inclined by 45 degrees. *)
Definition chain_quantities : cs_mesh_quantities_t :=
  mk_mesh_quantities [0; 0; 0;  1; 0; 0;  2; 0; 0;  3; 0; 0]%float
                     [1; 0; 0;  1; 1; 0;  1; 0; 0]%float.

(** With the limit 0.875 (an angle of about 29 degrees) only the middle
    face is at or below the limit. *)
Example chain_cos_ij_fn_below :
  cos_ij_fn_below chain chain_quantities 0.875 <$> [0; 1; 2] = [false; true; false].
Proof. vm_compute. reflexivity. Qed.


(** What the filter leaves of [chain] with this limit: cell 3 keeps its
    neighbour 2 (cell numbers from 1), the other rows are empty. *)
Example redvse_chain_cos :
  let mesh' := (redvse chain (cos_ij_fn_below chain chain_quantities 0.875) 0).2 in
  cell_cells_idx mesh' = Some [1; 1; 1; 2; 2] ∧ cell_cells_lst mesh' = Some [2].
Proof. vm_compute. split; reflexivity. Qed.

(** Witness: the vertex -> cells connectivity of [grid]. *)
Lemma vtx_cells_connect_spec_witness :
  let r := _create_vtx_cells_connect grid in
  rd r.1 0 = 1 ∧
  Z.of_nat (length r.1) = n_vertices grid + 1 ∧
  Z.of_nat (length r.2) = rd r.1 (n_vertices grid) - 1 ∧
  ∀ v, 0 ≤ v < n_vertices grid →
    rd r.1 v ≤ rd r.1 (v + 1) ∧
    NoDup (csr_row 1 r.1 r.2 v) ∧
    ∀ x, x ∈ csr_row 1 r.1 r.2 v ↔
         ∃ f, 0 ≤ f < n_i_faces grid ∧ on_face grid f v ∧
              (x = rd (i_face_cells grid) (2 * f)
               ∨ x = rd (i_face_cells grid) (2 * f + 1)).
Proof.
  apply (vtx_cells_connect_spec grid).
  - simpl. lia.
  - intros f i_vtx Hf Hi. simpl in Hf.
    enum f 0 ltac:(read_bounds Hi; enum i_vtx 1 check_entry).
Defined.

(** The connectivity of [grid]: vertex 5, common to the four faces, has the
    four cells; the vertices 2, 4, 6 and 8 have two cells each. *)
Example vtx_cells_connect_grid :
  _create_vtx_cells_connect grid
  = ([1; 1; 3; 3; 5; 9; 11; 11; 13; 13], [1; 2; 1; 3; 1; 2; 3; 4; 2; 4; 3; 4]).
Proof. vm_compute. reflexivity. Qed.

(** Witness: vertex 5 of [grid] (id 4), common to the four cells, and
    the local cell 0. *)
Lemma vtx_cells_builders_agree_witness :
  let cell_i_faces := _get_cell_i_faces_connectivity grid in
  let r2 := _create_vtx_cells_connect2 grid cell_i_faces.1 cell_i_faces.2 in
  let r := _create_vtx_cells_connect grid in
  0 ∈ csr_row 0 r2.1 r2.2 4 ↔ 0 ≤ 0 < n_cells grid ∧ 0 + 1 ∈ csr_row 1 r.1 r.2 4.
Proof.
  apply (vtx_cells_builders_agree grid grid_halo 4 1 [0; 4] [5; 6; 8; 9] 4 0).
  - constructor.
    + simpl. lia.
    + simpl. lia.
    + intros f Hf. simpl in Hf. enum f 0 check_entry.
    + intros f i_vtx Hf Hi. simpl in Hf.
      enum f 0 ltac:(read_bounds Hi; enum i_vtx 1 check_entry).
    + intros _. split; [lia|]. split; [simpl; lia|].
      intros id j Hid Hj. simpl in Hid. assert (id = 0) as -> by lia.
      read_bounds Hj. enum j 0 check_entry.
  - simpl. lia.
Defined.

(** Witness: [chain], only the middle face being below the limit. *)
Lemma redvse_keeps_shared_vertex_witness :
  let below_limit := λ face_id, bool_decide (face_id = 1) in
  let mesh' := (redvse chain below_limit 0).2 in
  ∃ idx' lst',
    cell_cells_idx mesh' = Some idx' ∧
    cell_cells_lst mesh' = Some lst' ∧
    ∀ c x, 0 ≤ c < n_cells chain →
      x ∈ csr_row 1 idx' lst' c ↔
      x ∈ csr_row 1 [1; 3; 5; 7; 9] [3; 4; 4; 1; 1; 2; 2; 1] c ∧
      ∃ F v g, adjoins chain F c ∧ below_limit F = true ∧ on_face chain F v ∧
               0 ≤ g < n_i_faces chain ∧ on_face chain g v ∧
               (x = rd (i_face_cells chain) (2 * g)
                ∨ x = rd (i_face_cells chain) (2 * g + 1)).
Proof.
  apply (redvse_keeps_shared_vertex chain (λ face_id, bool_decide (face_id = 1))
           [1; 3; 5; 7; 9] [3; 4; 4; 1; 1; 2; 2; 1]).
  - reflexivity.
  - reflexivity.
  - discriminate.
  - exact chain_csr_ok.
  - exact chain_face_cells_ok.
  - simpl. lia.
  - exact chain_face_vtx_ok.
Defined.

(** Witness: [chain] again. *)
Lemma redvse_keeps_csr_ok_witness :
  let mesh' := (redvse chain (λ face_id, bool_decide (face_id = 1)) 0).2 in
  ∃ idx' lst',
    cell_cells_idx mesh' = Some idx' ∧
    cell_cells_lst mesh' = Some lst' ∧
    csr_ok mesh' idx' lst' ∧
    ∀ c, 0 ≤ c < n_cells chain →
      csr_row 1 idx' lst' c `sublist_of` csr_row 1 [1; 3; 5; 7; 9] [3; 4; 4; 1; 1; 2; 2; 1] c.
Proof.
  apply (redvse_keeps_csr_ok chain (λ face_id, bool_decide (face_id = 1))
           [1; 3; 5; 7; 9] [3; 4; 4; 1; 1; 2; 2; 1]).
  - reflexivity.
  - reflexivity.
  - discriminate.
  - exact chain_csr_ok.
  - exact chain_face_cells_ok.
Defined.

(** What is left of the rows of [chain]: cell 3 keeps its neighbour 2
    (cell numbers from 1), the other rows are empty. *)
Example redvse_chain :
  let mesh' := (redvse chain (λ face_id, bool_decide (face_id = 1)) 0).2 in
  cell_cells_idx mesh' = Some [1; 1; 1; 2; 2] ∧ cell_cells_lst mesh' = Some [2].
Proof. vm_compute. split; reflexivity. Qed.

(** Witness: face 1 of [chain] and its cell 2, whose row holds the
    neighbours 1 and 2; the call tags the 2. *)
Lemma tag_cells_only_negates_witness :
  let vidx := (_create_vtx_cells_connect chain).1 in
  let vlst := (_create_vtx_cells_connect chain).2 in
  let idx := [1; 3; 5; 7; 9] in
  let lst := [3; 4; 4; 1; 1; 2; 2; 1] in
  let res := _tag_cells chain 1 2 vidx vlst idx lst in
  length res = length lst ∧
  (∀ p, rd res p ≠ rd lst p →
        2 < n_cells chain ∧
        rd idx 2 - 1 ≤ p < rd idx (2 + 1) - 1 ∧
        0 < rd lst p ∧ rd res p = - rd lst p) ∧
  _tag_cells chain 1 2 vidx vlst idx res = res.
Proof.
  apply (tag_cells_only_negates chain (_create_vtx_cells_connect chain).1
           (_create_vtx_cells_connect chain).2 1 2
           [1; 3; 5; 7; 9] [3; 4; 4; 1; 1; 2; 2; 1]).
  intros _. vm_compute. split; discriminate.
Defined.

End FilterInstances.


End ExtNeighborhood.
